(** * subtitle_to_text.py: a shallow embedding and its properties

    The development follows [scripts/subtitle_to_text.py].  A Python [str] is
    a sequence of Unicode code points, so strings are lists of code points
    ([N]); the calls of [re] are run by a small backtracking matcher that
    follows the search order of Python's engine (leftmost position, first
    alternative first, greedy or lazy repetition); subscripts that can raise
    ([xs[i]], [d[k]]) live in an error monad. *)

From Stdlib Require Import String Ascii.
From Stdlib Require Import List NArith Bool Arith Lia.
Import ListNotations.

Set Implicit Arguments.

(** ** Code points and strings *)

Definition char := N.
Definition str := list char.

(** An ASCII literal of the source as a [str]. *)
Definition py (s : string) : str :=
  List.map N_of_ascii (list_ascii_of_string s).

Definition LF : char := 10%N.
Definition CR : char := 13%N.
Definition TAB : char := 9%N.
Definition SPACE : char := 32%N.

Definition is_empty {A} (xs : list A) : bool :=
  match xs with [] => true | _ :: _ => false end.

(** Truth value of a Python sequence: non-empty. *)
Definition truthy {A} (xs : list A) : bool := negb (is_empty xs).

Fixpoint str_eqb (a b : str) : bool :=
  match a, b with
  | [], [] => true
  | x :: a', y :: b' => N.eqb x y && str_eqb a' b'
  | _, _ => false
  end.

Definition in_range (lo hi c : char) : bool := N.leb lo c && N.leb c hi.

Arguments in_range (lo hi c)%_N.

Definition is_ascii (c : char) : bool := N.ltb c 128.

(** The block U+4E00..U+9FFF, which the script tests with [[\u4e00-\u9fff]]. *)
Definition is_ideograph (c : char) : bool := in_range 0x4e00 0x9fff c.

(** [str.isspace] on one code point, which is also [\s] of a [str] pattern:
    the characters of bidirectional type WS, B or S and of category Zs. *)
Definition isspace (c : char) : bool :=
  in_range 9 13 c || in_range 28 32 c || N.eqb c 133 || N.eqb c 160
  || N.eqb c 5760 || in_range 8192 8202 c || N.eqb c 8232 || N.eqb c 8233
  || N.eqb c 8239 || N.eqb c 8287 || N.eqb c 12288.

(** The line boundaries of [str.splitlines]. *)
Definition is_linebreak (c : char) : bool :=
  in_range 10 13 c || in_range 28 30 c || N.eqb c 133 || N.eqb c 8232
  || N.eqb c 8233.

Fixpoint startswith (prefix s : str) : bool :=
  match prefix, s with
  | [], _ => true
  | p :: prefix', c :: s' => N.eqb p c && startswith prefix' s'
  | _ :: _, [] => false
  end.

(** [sub in s] for strings. *)
Fixpoint contains (sub s : str) : bool :=
  startswith sub s ||
  match s with
  | [] => false
  | _ :: s' => contains sub s'
  end.

Fixpoint lstrip (s : str) : str :=
  match s with
  | c :: s' => if isspace c then lstrip s' else s
  | [] => []
  end.

Definition rstrip (s : str) : str := rev (lstrip (rev s)).

Definition strip (s : str) : str := rstrip (lstrip s).

(** [sep.join(parts)] *)
Fixpoint join (sep : str) (parts : list str) : str :=
  match parts with
  | [] => []
  | [p] => p
  | p :: rest => p ++ sep ++ join sep rest
  end.

(** [s.split(sep)] for a separator of one character: the pieces between the
    separators, empty pieces included; never the empty list. *)
Fixpoint split_char (sep : char) (s : str) : list str :=
  match s with
  | [] => [[]]
  | c :: s' =>
      if N.eqb c sep then [] :: split_char sep s'
      else match split_char sep s' with
           | piece :: rest => (c :: piece) :: rest
           | [] => [[c]]
           end
  end.

(** [s.splitlines()]: split at line boundaries ([\r\n] counts once), without
    the boundaries; a trailing boundary opens no empty last line. *)
Fixpoint splitlines_go (after_cr : bool) (cur : str) (s : str) : list str :=
  match s with
  | [] => if is_empty cur then [] else [cur]
  | c :: s' =>
      if after_cr && N.eqb c LF then splitlines_go false cur s'
      else if is_linebreak c then cur :: splitlines_go (N.eqb c CR) [] s'
      else splitlines_go false (cur ++ [c]) s'
  end.

Definition splitlines (s : str) : list str := splitlines_go false [] s.

(** [s.replace(old, new)] for a non-empty [old]: occurrences are replaced from
    the left and do not overlap; [skip] counts the characters of an occurrence
    still to be passed over. *)
Fixpoint replace_go (old new : str) (skip : nat) (s : str) : str :=
  match s with
  | [] => []
  | c :: s' =>
      match skip with
      | S n => replace_go old new n s'
      | O =>
          if startswith old s
          then new ++ replace_go old new (length old - 1) s'
          else c :: replace_go old new 0 s'
      end
  end.

Definition replace (old new s : str) : str := replace_go old new 0 s.

(** [xs[n:]] *)
Definition slice_from {A} (n : nat) (xs : list A) : list A := skipn n xs.

(** ** Exceptions

    The subscripts of the source raise on a missing index or key, and
    [print] raises on a line that cannot be encoded; every other operation
    the script uses is total on strings and lists.  Reading the input and
    writing the output are taken to succeed: the output path, where one is
    given, names a file that can be written and a name that can be
    printed. *)

Inductive exn := IndexError | KeyError | UnicodeEncodeError.

Inductive result (A : Type) : Type :=
| Ok (a : A)
| Raise (e : exn).

Arguments Ok {A} a.
Arguments Raise {A} e.

Definition bind {A B} (c : result A) (k : A -> result B) : result B :=
  match c with
  | Ok a => k a
  | Raise e => Raise e
  end.

Notation "x <- c ;; k" := (bind c (fun x => k))
  (at level 61, c at next level, right associativity).

(** [xs[i]] for [i >= 0] *)
Definition index {A} (xs : list A) (i : nat) : result A :=
  match nth_error xs i with
  | Some x => Ok x
  | None => Raise IndexError
  end.

(** [xs[-1]] *)
Definition index_last {A} (xs : list A) : result A :=
  match rev xs with
  | x :: _ => Ok x
  | [] => Raise IndexError
  end.

(** A [for] loop over [xs] that updates an accumulator and may raise. *)
Fixpoint for_each {A B} (body : B -> A -> result B) (xs : list A) (acc : B)
  : result B :=
  match xs with
  | [] => Ok acc
  | x :: xs' => acc' <- body acc x ;; for_each body xs' acc'
  end.

(** A list comprehension whose element expression may raise. *)
Fixpoint comprehension {A B} (f : A -> result B) (xs : list A)
  : result (list B) :=
  match xs with
  | [] => Ok []
  | x :: xs' => y <- f x ;; ys <- comprehension f xs' ;; Ok (y :: ys)
  end.

(** A [dict] with string keys, in insertion order. *)
Definition dict (V : Type) := list (str * V).

Fixpoint lookup {V} (d : dict V) (k : str) : option V :=
  match d with
  | [] => None
  | (k', v) :: d' => if str_eqb k k' then Some v else lookup d' k
  end.

(** [d[k]] *)
Definition subscript {V} (d : dict V) (k : str) : result V :=
  match lookup d k with
  | Some v => Ok v
  | None => Raise KeyError
  end.

(** [d.get(k, default)] *)
Definition dict_get {V} (d : dict V) (k : str) (default : V) : V :=
  match lookup d k with
  | Some v => v
  | None => default
  end.

(** ** The Unicode tables

    On ASCII the case and class functions of Python are written out.  Beyond
    ASCII they read the Unicode Character Database, which is taken as a
    parameter: every theorem below holds for every table. *)

Record ucd := {
  ucd_isdecimal : char -> bool;        (* [\d] *)
  ucd_isword : char -> bool;           (* [\w] *)
  ucd_islower : char -> bool;          (* [str.islower] of one character *)
  ucd_upper : char -> str;             (* [str.upper] of one character *)
  ucd_lower : str -> str;              (* [str.lower] *)
  ucd_same_case_insensitive : char -> char -> bool  (* IGNORECASE literals *)
}.

Definition ascii_islower (c : char) : bool := in_range 97 122 c.
Definition ascii_isupper (c : char) : bool := in_range 65 90 c.
Definition ascii_isdigit (c : char) : bool := in_range 48 57 c.
Definition ascii_lower (c : char) : char :=
  if ascii_isupper c then (c + 32)%N else c.
Definition ascii_upper (c : char) : char :=
  if ascii_islower c then (c - 32)%N else c.
Definition ascii_isword (c : char) : bool :=
  ascii_islower c || ascii_isupper c || ascii_isdigit c || N.eqb c 95.

Section Unicode.

Variable U : ucd.

Definition isdecimal (c : char) : bool :=
  if is_ascii c then ascii_isdigit c else ucd_isdecimal U c.

Definition isword (c : char) : bool :=
  if is_ascii c then ascii_isword c else ucd_isword U c.

Definition islower1 (c : char) : bool :=
  if is_ascii c then ascii_islower c else ucd_islower U c.

Definition upper1 (c : char) : str :=
  if is_ascii c then [ascii_upper c] else ucd_upper U c.

(** [s.upper()] maps each character on its own. *)
Definition upper (s : str) : str := flat_map upper1 s.

(** [s.lower()]; beyond ASCII it is not a map over the characters (final
    sigma, dotted capital I), so the table takes the whole string. *)
Definition lower (s : str) : str :=
  if forallb is_ascii s then List.map ascii_lower s else ucd_lower U s.

(** A literal [p] of an IGNORECASE pattern against the character [c].  The
    CJK unified ideographs have no case: they match themselves only. *)
Definition same_case_insensitive (p c : char) : bool :=
  if is_ascii p && is_ascii c then N.eqb (ascii_lower p) (ascii_lower c)
  else if is_ideograph p || is_ideograph c then N.eqb p c
  else N.eqb p c || ucd_same_case_insensitive U p c.

End Unicode.

(** A table to run the functions on ASCII and ideographic text: beyond
    ASCII it knows the ideographs, which are word characters without case,
    and takes every other character for a caseless symbol. *)
Definition ascii_tables : ucd :=
  {| ucd_isdecimal := fun _ => false;
     ucd_isword := is_ideograph;
     ucd_islower := fun _ => false;
     ucd_upper := fun c => [c];
     ucd_lower := List.map ascii_lower;
     ucd_same_case_insensitive := fun _ _ => false |}.

(** ** Regular expressions

    The syntax covers what the patterns of the script use.
    [Rep greedy lo hi r] is [r{lo,hi}] ([hi = None]: no upper bound), lazy
    when [greedy] is false; [Group n r] is the [n]-th capturing group; [Eos]
    is [$] and [WordB] is [\b]. *)

Inductive citem :=
| CChar (c : char)
| CRange (lo hi : char)
| CSpace
| CDigit.

Inductive regex :=
| Eps
| Lit (c : char)
| Any
| OneOf (items : list citem)
| NoneOf (items : list citem)
| Cat (r1 r2 : regex)
| Alt (r1 r2 : regex)
| Rep (greedy : bool) (lo : nat) (hi : option nat) (r : regex)
| Group (n : nat) (r : regex)
| Eos
| WordB.

Arguments CChar c%_N.
Arguments CRange (lo hi)%_N.
Arguments Lit c%_N.

Definition star (r : regex) : regex := Rep true 0 None r.
Definition plus (r : regex) : regex := Rep true 1 None r.
Definition lazy_star (r : regex) : regex := Rep false 0 None r.
Definition opt (r : regex) : regex := Rep true 0 (Some 1) r.
Definition times (lo hi : nat) (r : regex) : regex := Rep true lo (Some hi) r.

(** [r1 r2 ... rn] *)
Definition cats (rs : list regex) : regex := fold_right Cat Eps rs.

(** The characters of a literal, in sequence. *)
Definition lits (s : str) : regex := cats (List.map Lit s).

(** [r|r1|...|rn] *)
Fixpoint alts (r : regex) (rs : list regex) : regex :=
  match rs with
  | [] => r
  | r' :: rs' => Alt r (alts r' rs')
  end.

Definition chars (s : str) : list citem := List.map CChar s.

(** The state of a match attempt: the character before the current position
    (for [\b]), the text from the current position on, and the groups captured
    so far (the latest first). *)
Record mstate := {
  ms_prev : option char;
  ms_rest : str;
  ms_groups : list (nat * str)
}.

Definition group (gs : list (nat * str)) (n : nat) : str :=
  match find (fun g => Nat.eqb (fst g) n) gs with
  | Some g => snd g
  | None => []
  end.

Definition orelse {A} (a : option A) (b : unit -> option A) : option A :=
  match a with
  | Some x => Some x
  | None => b tt
  end.

Section Engine.

Variable U : ucd.

(** The flag [re.IGNORECASE].  It acts on literals; the patterns the script
    compiles with it hold literals and [.] only. *)
Variable ignorecase : bool.

Definition item_matches (c : char) (i : citem) : bool :=
  match i with
  | CChar x => N.eqb x c
  | CRange lo hi => in_range lo hi c
  | CSpace => isspace c
  | CDigit => isdecimal U c
  end.

Definition in_set (items : list citem) (c : char) : bool :=
  existsb (item_matches c) items.

Definition lit_matches (p c : char) : bool :=
  if ignorecase then same_case_insensitive U p c else N.eqb p c.

(** Consume one character that satisfies [p]. *)
Definition eat (p : char -> bool) (st : mstate)
    (k : mstate -> option mstate) : option mstate :=
  match ms_rest st with
  | c :: s' =>
      if p c
      then k {| ms_prev := Some c; ms_rest := s'; ms_groups := ms_groups st |}
      else None
  | [] => None
  end.

(** [$]: at the end, or before a newline that ends the string. *)
Definition at_eos (st : mstate) : bool :=
  match ms_rest st with
  | [] => true
  | [c] => N.eqb c LF
  | _ => false
  end.

(** [\b]: exactly one side of the position is a word character. *)
Definition at_boundary (st : mstate) : bool :=
  xorb (match ms_prev st with Some c => isword U c | None => false end)
       (match ms_rest st with c :: _ => isword U c | [] => false end).

Definition consumed (st st' : mstate) : str :=
  firstn (length (ms_rest st) - length (ms_rest st')) (ms_rest st).

Definition progressed (st st' : mstate) : bool :=
  length (ms_rest st') <? length (ms_rest st).

Definition set_group (n : nat) (text : str) (st : mstate) : mstate :=
  {| ms_prev := ms_prev st; ms_rest := ms_rest st;
     ms_groups := (n, text) :: ms_groups st |}.

Section Loop.

Variable body : mstate -> (mstate -> option mstate) -> option mstate.
Variable greedy : bool.

(** The repetition loop: [lo] iterations are still owed, [hi] bounds the
    ones still allowed.  A greedy loop tries one more iteration before it
    leaves, a lazy one leaves first.  An iteration must consume text, so
    [fuel] one above the length of the text left never runs out. *)
Fixpoint rep_loop (fuel lo : nat) (hi : option nat) (st : mstate)
    (k : mstate -> option mstate) : option mstate :=
  match fuel with
  | O => None
  | S fuel' =>
      let again (_ : unit) :=
        match hi with
        | Some O => None
        | _ =>
            body st (fun st' =>
              if progressed st st'
              then rep_loop fuel' (pred lo) (option_map pred hi) st' k
              else None)
        end in
      match lo with
      | S _ => again tt
      | O => if greedy then orelse (again tt) (fun _ => k st)
             else orelse (k st) again
      end
  end.

End Loop.

(** The backtracking matcher, in continuation-passing style: [k] is the rest
    of the pattern; the first success in Python's search order is returned. *)
Fixpoint rmatch (r : regex) (st : mstate) (k : mstate -> option mstate)
    {struct r} : option mstate :=
  match r with
  | Eps => k st
  | Lit c => eat (lit_matches c) st k
  | Any => eat (fun x => negb (N.eqb x LF)) st k
  | OneOf items => eat (in_set items) st k
  | NoneOf items => eat (fun x => negb (in_set items x)) st k
  | Cat r1 r2 => rmatch r1 st (fun st' => rmatch r2 st' k)
  | Alt r1 r2 => orelse (rmatch r1 st k) (fun _ => rmatch r2 st k)
  | Rep greedy lo hi r' =>
      rep_loop (rmatch r') greedy (S (length (ms_rest st))) lo hi st k
  | Group n r' =>
      rmatch r' st (fun st' => k (set_group n (consumed st st') st'))
  | Eos => if at_eos st then k st else None
  | WordB => if at_boundary st then k st else None
  end.

(** A match of [r] that starts at the head of [s], [prev] being the character
    before it: the length matched and the groups. *)
Definition match_at (r : regex) (prev : option char) (s : str)
  : option (nat * list (nat * str)) :=
  match rmatch r {| ms_prev := prev; ms_rest := s; ms_groups := [] |}
               (fun st => Some st) with
  | Some st => Some (length s - length (ms_rest st), ms_groups st)
  | None => None
  end.

(** [re.search(r, s)] as a truth value: some position of [s], the end
    included, starts a match. *)
Fixpoint search_from (r : regex) (prev : option char) (s : str) : bool :=
  match match_at r prev s with
  | Some _ => true
  | None =>
      match s with
      | [] => false
      | c :: s' => search_from r (Some c) s'
      end
  end.

Definition re_search (r : regex) (s : str) : bool := search_from r None s.

(** The scanners below take the leftmost match, then go on behind it;
    [skip] counts the characters of the current match still to pass.  No
    pattern of the script matches the empty string (each needs a character);
    a match of length zero is passed over like a failed attempt. *)

(** [re.sub(r, repl, s)], the replacement computed from the groups. *)
Fixpoint sub_go (r : regex) (repl : list (nat * str) -> str)
    (prev : option char) (skip : nat) (s : str) : str :=
  match s with
  | [] => []
  | c :: s' =>
      match skip with
      | S n => sub_go r repl (Some c) n s'
      | O =>
          match match_at r prev s with
          | Some (S n, gs) => repl gs ++ sub_go r repl (Some c) n s'
          | _ => c :: sub_go r repl (Some c) 0 s'
          end
      end
  end.

Definition re_sub (r : regex) (repl : list (nat * str) -> str) (s : str)
  : str := sub_go r repl None 0 s.

(** [re.split(r, s)] for a pattern without groups. *)
Fixpoint split_go (r : regex) (prev : option char) (skip : nat)
    (cur : str) (s : str) : list str :=
  match s with
  | [] => [cur]
  | c :: s' =>
      match skip with
      | S n => split_go r (Some c) n cur s'
      | O =>
          match match_at r prev s with
          | Some (S n, _) => cur :: split_go r (Some c) n [] s'
          | _ => split_go r (Some c) 0 (cur ++ [c]) s'
          end
      end
  end.

Definition re_split (r : regex) (s : str) : list str :=
  split_go r None 0 [] s.

(** [re.findall(r, s)] for a pattern without groups: the matched texts. *)
Fixpoint findall_go (r : regex) (prev : option char) (skip : nat) (s : str)
  : list str :=
  match s with
  | [] => []
  | c :: s' =>
      match skip with
      | S n => findall_go r (Some c) n s'
      | O =>
          match match_at r prev s with
          | Some (S n, _) => firstn (S n) s :: findall_go r (Some c) n s'
          | _ => findall_go r (Some c) 0 s'
          end
      end
  end.

Definition re_findall (r : regex) (s : str) : list str :=
  findall_go r None 0 s.

End Engine.

(** ** The language profiles *)

(** One entry of [LANGUAGE_CONFIGS].  Every entry has the same four keys, so
    [config['annotations']] and the like are field reads. *)
Record config := {
  cfg_sentence_end : regex;
  cfg_annotations : list regex;
  cfg_fix_capitalization : bool;
  cfg_space_join : str
}.

Definition lang_en : str := py "en".
Definition lang_zh_tw : str := py "zh_tw".
Definition lang_zh_cn : str := py "zh_cn".
Definition lang_auto : str := py "auto".

Definition fmt_auto : str := py "auto".
Definition fmt_vtt : str := py "vtt".
Definition fmt_srt : str := py "srt".

(** [\[(?:w1|...|wn|.*?)\]] *)
Definition bracket_annotation (w : str) (ws : list str) : regex :=
  cats [Lit 91%N;
        alts (lits w) (List.map lits ws ++ [lazy_star Any]);
        Lit 93%N].

(** [\((?:w1|...|wn)\)] *)
Definition paren_annotation (w : str) (ws : list str) : regex :=
  cats [Lit 40%N; alts (lits w) (List.map lits ws); Lit 41%N].

Definition english_bracket : regex :=
  bracket_annotation (py "Music")
    [py "Applause"; py "Laughter"; py "Inaudible"].

Definition english_paren : regex :=
  paren_annotation (py "Music")
    [py "Applause"; py "Laughter"; py "Inaudible"].

(** [[.!?][\s]*$] *)
Definition english_sentence_end : regex :=
  cats [OneOf (chars (py ".!?")); star (OneOf [CSpace]); Eos].

(** [[\u3002\uff01\uff1f][\s]*$] *)
Definition chinese_sentence_end : regex :=
  cats [OneOf (chars [0x3002; 0xff01; 0xff1f]%N); star (OneOf [CSpace]); Eos].

Definition config_en : config :=
  {| cfg_sentence_end := english_sentence_end;
     cfg_annotations := [english_bracket; english_paren];
     cfg_fix_capitalization := true;
     cfg_space_join := py " " |}.

Definition config_zh_tw : config :=
  {| cfg_sentence_end := chinese_sentence_end;
     cfg_annotations :=
       [ bracket_annotation [0x97f3; 0x6a02]%N
           [[0x638c; 0x8072]; [0x7b11; 0x8072];
            [0x7121; 0x6cd5; 0x807d; 0x6e05]]%N;
         paren_annotation [0x97f3; 0x6a02]%N
           [[0x638c; 0x8072]; [0x7b11; 0x8072];
            [0x7121; 0x6cd5; 0x807d; 0x6e05]]%N;
         english_bracket ];
     cfg_fix_capitalization := false;
     cfg_space_join := [] |}.

Definition config_zh_cn : config :=
  {| cfg_sentence_end := chinese_sentence_end;
     cfg_annotations :=
       [ bracket_annotation [0x97f3; 0x4e50]%N
           [[0x638c; 0x58f0]; [0x7b11; 0x58f0];
            [0x65e0; 0x6cd5; 0x542c; 0x6e05]]%N;
         paren_annotation [0x97f3; 0x4e50]%N
           [[0x638c; 0x58f0]; [0x7b11; 0x58f0];
            [0x65e0; 0x6cd5; 0x542c; 0x6e05]]%N;
         english_bracket ];
     cfg_fix_capitalization := false;
     cfg_space_join := [] |}.

Definition LANGUAGE_CONFIGS : dict config :=
  [ (lang_en, config_en); (lang_zh_tw, config_zh_tw);
    (lang_zh_cn, config_zh_cn) ].

(** [LANGUAGE_CONFIGS.get(lang, LANGUAGE_CONFIGS['en'])]; the default is
    evaluated first. *)
Definition config_for (lang : str) : result config :=
  default <- subscript LANGUAGE_CONFIGS lang_en ;;
  Ok (dict_get LANGUAGE_CONFIGS lang default).

(** ** The patterns of the functions *)

(** [[\u4e00-\u9fff]] *)
Definition cjk : regex := OneOf [CRange 0x4e00 0x9fff].

(** [<v\s+[^>]*>] *)
Definition voice_tag : regex :=
  cats [Lit 60%N; Lit 118%N; plus (OneOf [CSpace]);
        star (NoneOf [CChar 62%N]); Lit 62%N].

(** [</?[^>]+>] *)
Definition any_tag : regex :=
  cats [Lit 60%N; opt (Lit 47%N); plus (NoneOf [CChar 62%N]); Lit 62%N].

(** [\n\s*\n+] *)
Definition blank_lines : regex :=
  cats [Lit LF; star (OneOf [CSpace]); plus (Lit LF)].

(** [\d{1,2}:\d{2}:\d{2}[.,]\d{3}] *)
Definition timestamp : regex :=
  cats [times 1 2 (OneOf [CDigit]); Lit 58%N;
        times 2 2 (OneOf [CDigit]); Lit 58%N;
        times 2 2 (OneOf [CDigit]); OneOf (chars (py ".,"));
        times 3 3 (OneOf [CDigit])].

(** [\d{1,2}:\d{2}:\d{2}[.,]\d{3}\s*-->\s*\d{1,2}:\d{2}:\d{2}[.,]\d{3}] *)
Definition timestamp_re : regex :=
  cats [timestamp; star (OneOf [CSpace]); lits (py "-->");
        star (OneOf [CSpace]); timestamp].

Definition arrow : str := py "-->".

(** [([.!?]\s+)([a-z])] *)
Definition sentence_start : regex :=
  cats [Group 1 (cats [OneOf (chars (py ".!?")); plus (OneOf [CSpace])]);
        Group 2 (OneOf [CRange 97 122])].

(** [\bi\b] *)
Definition lone_i : regex := cats [WordB; Lit 105%N; WordB].

(** [\bi\'] *)
Definition i_apostrophe : regex := cats [WordB; Lit 105%N; Lit 39%N].

(** [([\u4e00-\u9fff])\s+([\u4e00-\u9fff])] *)
Definition cjk_gap : regex :=
  cats [Group 1 cjk; plus (OneOf [CSpace]); Group 2 cjk].

Definition blank : list citem := [CChar SPACE; CChar TAB].

(** [[ \t]{2,}] *)
Definition blanks2 : regex := Rep true 2 None (OneOf blank).

(** [[ \t]+] *)
Definition blanks : regex := plus (OneOf blank).

(** [[ \t]+([\uff0c\u3002\uff01\uff1f\u3001\uff1b\uff1a])] *)
Definition blanks_before_fullwidth : regex :=
  cats [plus (OneOf blank);
        Group 1 (OneOf (chars [0xff0c; 0x3002; 0xff01; 0xff1f; 0x3001; 0xff1b;
                            0xff1a]%N))].

(** [[ \t]+([,.!?;:])] *)
Definition blanks_before_punct : regex :=
  cats [plus (OneOf blank); Group 1 (OneOf (chars (py ",.!?;:")))].

(** [([,.!?;:])([A-Za-z])] *)
Definition punct_then_letter : regex :=
  cats [Group 1 (OneOf (chars (py ",.!?;:")));
        Group 2 (OneOf [CRange 65 90; CRange 97 122])].

(** ** The functions of the script *)

(** What [parse_subtitle_file] reads of its path [p = Path(sub_path)]:
    [p.suffix] and the decoded text [p.read_text(...)]. *)
Record subtitle_file := {
  suffix : str;
  content : str
}.

(** What a run does besides returning. *)
Inductive event :=
| Print (line : str)
| WriteFile (path : str) (text : str).

(** The surrogate code points: a [str] may hold them, no UTF-8 text does. *)
Definition is_surrogate (c : char) : bool := in_range 0xd800 0xdfff c.

(** [print(line)].  The line is encoded for the standard output, taken to be
    a UTF-8 stream with the default error handler (the emoji of the messages
    need UTF-8): a line that holds a surrogate raises. *)
Definition print (log : list event) (line : str) : result (list event) :=
  if existsb is_surrogate line then Raise UnicodeEncodeError
  else Ok (log ++ [Print line]).

Definition traditional_indicators : list str :=
  [[0x81fa]; [0x7063]; [0x7e41]; [0x9ad4]; [0x61c9]; [0x70ba]; [0x5011];
   [0x500b]; [0x9019]; [0x8aac]]%N.

Definition simplified_indicators : list str :=
  [[0x53f0]; [0x6e7e]; [0x7b80]; [0x4f53]; [0x5e94]; [0x4e3a]; [0x4eec];
   [0x4e2a]; [0x8fd9]; [0x8bf4]]%N.

(** [sum(1 for x in xs if p(x))] *)
Definition count_if {A} (p : A -> bool) (xs : list A) : nat :=
  list_sum (List.map (fun _ => 1) (filter p xs)).

Section Program.

Variable U : ucd.

(** [simplified_chars > len(text) * 0.3] compares an integer with the double
    nearest to the product.  The double 0.3 lies below 3/10 by less than half
    a unit in the last place, so the product rounds to [3 * len / 10] when
    that is an integer and stays on its side of every integer otherwise: for
    every length below 2^50 the test is [10 * simplified_chars > 3 * len]. *)
Definition detect_language (text : str) : str :=
  if negb (truthy text) then lang_en else
  let simplified_chars := length (re_findall U false cjk text) in
  let traditional_count :=
    count_if (fun ch => contains ch text) traditional_indicators in
  let simplified_count :=
    count_if (fun ch => contains ch text) simplified_indicators in
  if 3 * length text <? 10 * simplified_chars then
    if simplified_count <? traditional_count then lang_zh_tw else lang_zh_cn
  else lang_en.

Definition remove_subtitle_formatting (text : str) : str :=
  let text := re_sub U false voice_tag (fun _ => []) text in
  let text := re_sub U false any_tag (fun _ => []) text in
  text.

Definition remove_annotations (text lang : str) : result str :=
  config <- config_for lang ;;
  Ok (fold_left (fun text pattern => re_sub U true pattern (fun _ => []) text)
                (cfg_annotations config) text).

(** The lines of a block that are not blank. *)
Definition block_lines (block : str) : list str :=
  filter (fun ln => truthy (strip ln)) (split_char LF block).

(** The inner loop of both parsers: at the first line [lines[i]] that
    satisfies [p], [caption_text = lines[i+1:]] and the loop ends; without
    such a line [caption_text] stays empty. *)
Fixpoint lines_after (p : str -> bool) (lines : list str) : list str :=
  match lines with
  | [] => []
  | line :: rest => if p line then rest else lines_after p rest
  end.

(** The end of both loop bodies: join, strip the tags, keep what is left. *)
Definition append_caption (captions : list str) (caption_text : list str)
  : list str :=
  if truthy caption_text then
    let text := join (py " ") caption_text in
    let text := remove_subtitle_formatting text in
    if truthy (strip text) then captions ++ [strip text] else captions
  else captions.

Definition vtt_block (captions : list str) (block : str)
  : result (list str) :=
  let lines := block_lines block in
  if negb (truthy lines) then Ok captions else
  first <- index lines 0 ;;
  if startswith (py "WEBVTT") first || startswith (py "NOTE") first
  then Ok captions else
  let caption_text := lines_after (re_search U false timestamp_re) lines in
  Ok (append_caption captions caption_text).

Definition srt_block (captions : list str) (block : str)
  : result (list str) :=
  let lines := block_lines block in
  if negb (truthy lines) then Ok captions else
  let caption_text := lines_after (contains arrow) lines in
  caption_text <-
    (if negb (truthy caption_text) && (2 <=? length lines) then
       second <- index lines 1 ;;
       if contains arrow second then Ok (slice_from 2 lines)
       else Ok caption_text
     else Ok caption_text) ;;
  Ok (append_caption captions caption_text).

Definition detect_format (f : subtitle_file) (normalized fmt : str) : str :=
  if str_eqb fmt fmt_auto then
    let ext := lower U (suffix f) in
    if str_eqb ext (py ".vtt") || startswith (py "WEBVTT") (lstrip normalized)
    then fmt_vtt
    else if str_eqb ext (py ".srt") || contains arrow normalized
    then fmt_srt
    else fmt_vtt
  else fmt.

Definition parse_subtitle_file (f : subtitle_file) (fmt : str)
  : result (list str * str) :=
  let raw := content f in
  let normalized := replace [CR] [LF] (replace [CR; LF] [LF] raw) in
  let blocks := re_split U false blank_lines normalized in
  let detected := detect_format f normalized fmt in
  captions <-
    (if str_eqb detected fmt_vtt then for_each vtt_block blocks []
     else if str_eqb detected fmt_srt then for_each srt_block blocks []
     else Ok []) ;;
  Ok (captions, detected).

(** The body of the loop of [remove_duplicates]. *)
Definition keep_if_new (cleaned : list str) (caption : str)
  : result (list str) :=
  kept <- index_last cleaned ;;
  if negb (str_eqb (lower U caption) (lower U kept))
  then Ok (cleaned ++ [caption])
  else Ok cleaned.

Definition remove_duplicates (captions : list str) : result (list str) :=
  if negb (truthy captions) then Ok captions else
  first <- index captions 0 ;;
  for_each keep_if_new (slice_from 1 captions) [first].

(** The loop of [merge_into_paragraphs], with its two variables. *)
Fixpoint merge_loop (sentence_end : regex) (captions : list str)
    (paragraphs : list str) (current : list str) : list str * list str :=
  match captions with
  | [] => (paragraphs, current)
  | cap :: rest =>
      let current := current ++ [cap] in
      if re_search U false sentence_end cap
      then merge_loop sentence_end rest (paragraphs ++ [join [LF] current]) []
      else merge_loop sentence_end rest paragraphs current
  end.

Definition merge_into_paragraphs (captions : list str) (lang : str)
  : result (list str) :=
  if negb (truthy captions) then Ok [] else
  config <- config_for lang ;;
  let sentence_end := cfg_sentence_end config in
  let (paragraphs, current) := merge_loop sentence_end captions [] [] in
  if truthy current then Ok (paragraphs ++ [join [LF] current])
  else Ok paragraphs.

Definition fix_capitalization (text lang : str) : result str :=
  config <- config_for lang ;;
  if negb (cfg_fix_capitalization config) then Ok text else
  text <-
    (if truthy text then
       first <- index text 0 ;;
       if islower1 U first then Ok (upper1 U first ++ slice_from 1 text)
       else Ok text
     else Ok text) ;;
  let text :=
    re_sub U false sentence_start
      (fun m => group m 1 ++ upper U (group m 2)) text in
  let text := re_sub U false lone_i (fun _ => py "I") text in
  let text := re_sub U false i_apostrophe (fun _ => py "I'") text in
  Ok text.

Definition is_chinese (lang : str) : bool :=
  existsb (str_eqb lang) [lang_zh_tw; lang_zh_cn].

Definition clean_line (lang line : str) : str :=
  if negb (truthy (strip line)) then [] else
  let line :=
    if is_chinese lang then
      let line :=
        re_sub U false cjk_gap (fun m => group m 1 ++ group m 2) line in
      let line := re_sub U false blanks2 (fun _ => py " ") line in
      re_sub U false blanks_before_fullwidth (fun m => group m 1) line
    else
      let line := re_sub U false blanks (fun _ => py " ") line in
      let line :=
        re_sub U false blanks_before_punct (fun m => group m 1) line in
      re_sub U false punct_then_letter
        (fun m => group m 1 ++ py " " ++ group m 2) line in
  strip line.

Definition clean_spacing (text lang : str) : str :=
  let lines := splitlines text in
  let cleaned_lines := List.map (clean_line lang) lines in
  strip (join [LF] cleaned_lines).

(** The value a call returns and what it printed and wrote, in order. *)
Record outcome := {
  returned : str;
  effects : list event
}.

Definition finish_paragraph (lang : str) (cleaned_paragraphs : list str)
    (para : str) : result (list str) :=
  para <- fix_capitalization para lang ;;
  let para := clean_spacing para lang in
  if truthy para then Ok (cleaned_paragraphs ++ [para])
  else Ok cleaned_paragraphs.

(** [output_path] is [None] or a path; an empty path is false like [None].
    The two messages on the language and the format go through [print]; the
    output path is taken to be one that can be written and printed. *)
Definition convert_subtitles_to_text (sub_path : subtitle_file)
    (output_path : option str) (lang fmt : str) : result outcome :=
  parsed <- parse_subtitle_file sub_path fmt ;;
  let (captions, detected_fmt) := parsed in
  chosen <-
    (if str_eqb lang lang_auto then
       let sample_text := join (py " ") (firstn 10 captions) in
       let lang := detect_language sample_text in
       log <- print [] (0x1F310%N :: py " Detected language: " ++ lang) ;;
       Ok (lang, log)
     else Ok (lang, [])) ;;
  let (lang, log) := chosen in
  log <- print log (0x1F4CB%N :: py " Detected subtitle format: "
                    ++ detected_fmt) ;;
  captions <- comprehension (fun c => remove_annotations c lang) captions ;;
  let captions :=
    List.map strip (filter (fun c => truthy (strip c)) captions) in
  captions <- remove_duplicates captions ;;
  paragraphs <- merge_into_paragraphs captions lang ;;
  cleaned_paragraphs <- for_each (finish_paragraph lang) paragraphs [] ;;
  let final_text := join [LF; LF] cleaned_paragraphs in
  let log :=
    match output_path with
    | Some path =>
        if truthy path then
          log ++ [WriteFile path final_text;
                  Print (0x2705%N :: py " Converted text saved to: " ++ path)]
        else log
    | None => log
    end in
  Ok {| returned := final_text; effects := log |}.

(** Backwards-compatible alias *)
Definition convert_vtt_to_text (sub_path : subtitle_file)
    (output_path : option str) (lang : str) : result outcome :=
  convert_subtitles_to_text sub_path output_path lang fmt_vtt.

End Program.

(** ** The option loop of [main]

    The loop over [args = sys.argv[2:]] of [main].  The index [i] of the
    source is the position of the list that is left: [args[i]] is its head
    and [i + 1 < len(args)] says that a second element follows.  The
    arguments are taken to be text that can be printed. *)






(** ** What a pattern matches

    The texts a pattern matches, written as a relation, to state what the
    matcher finds without running it: [matches r prev w next gs gs'] says
    that [r] matches the text [w] when [prev] is the character before it and
    [next] the text behind it, and that the groups captured go from [gs] to
    [gs'].  An iteration of a repetition consumes text, as in the loop. *)

(** The character before the position behind [w]. *)
Definition last_char (prev : option char) (w : str) : option char :=
  match rev w with
  | c :: _ => Some c
  | [] => prev
  end.

Section Matches.

Variable U : ucd.
Variable ignorecase : bool.

Inductive matches
  : regex -> option char -> str -> str ->
    list (nat * str) -> list (nat * str) -> Prop :=
| matches_eps prev next gs :
    matches Eps prev [] next gs gs
| matches_lit c x prev next gs :
    lit_matches U ignorecase c x = true ->
    matches (Lit c) prev [x] next gs gs
| matches_any x prev next gs :
    negb (N.eqb x LF) = true ->
    matches Any prev [x] next gs gs
| matches_one_of items x prev next gs :
    in_set U items x = true ->
    matches (OneOf items) prev [x] next gs gs
| matches_none_of items x prev next gs :
    negb (in_set U items x) = true ->
    matches (NoneOf items) prev [x] next gs gs
| matches_cat r1 r2 prev w1 w2 next gs gs1 gs2 :
    matches r1 prev w1 (w2 ++ next) gs gs1 ->
    matches r2 (last_char prev w1) w2 next gs1 gs2 ->
    matches (Cat r1 r2) prev (w1 ++ w2) next gs gs2
| matches_alt_left r1 r2 prev w next gs gs' :
    matches r1 prev w next gs gs' ->
    matches (Alt r1 r2) prev w next gs gs'
| matches_alt_right r1 r2 prev w next gs gs' :
    matches r2 prev w next gs gs' ->
    matches (Alt r1 r2) prev w next gs gs'
| matches_rep_done greedy hi r prev next gs :
    matches (Rep greedy 0 hi r) prev [] next gs gs
| matches_rep_more greedy lo hi r prev w1 w2 next gs gs1 gs2 :
    hi <> Some 0 ->
    w1 <> [] ->
    matches r prev w1 (w2 ++ next) gs gs1 ->
    matches (Rep greedy (pred lo) (option_map pred hi) r)
            (last_char prev w1) w2 next gs1 gs2 ->
    matches (Rep greedy lo hi r) prev (w1 ++ w2) next gs gs2
| matches_group n r prev w next gs gs' :
    matches r prev w next gs gs' ->
    matches (Group n r) prev w next gs ((n, w) :: gs')
| matches_eos prev next gs :
    at_eos {| ms_prev := prev; ms_rest := next; ms_groups := gs |} = true ->
    matches Eos prev [] next gs gs
| matches_word_boundary prev next gs :
    at_boundary U {| ms_prev := prev; ms_rest := next; ms_groups := gs |}
    = true ->
    matches WordB prev [] next gs gs.

(** What a step of the matcher that succeeded has done: it has consumed a
    text that the pattern matches and has handed over behind it. *)
Definition steps_by (r : regex) (st : mstate) (k : mstate -> option mstate)
    (final : mstate) : Prop :=
  exists w st',
    ms_rest st = w ++ ms_rest st'
    /\ ms_prev st' = last_char (ms_prev st) w
    /\ matches r (ms_prev st) w (ms_rest st')
         (ms_groups st) (ms_groups st')
    /\ k st' = Some final.

End Matches.

(** [p] is a piece of [s]: some text before it, some text behind it. *)
Definition infix (p s : str) : Prop := exists a b, s = a ++ p ++ b.

(** ** How a substitution goes through a text

    [re.sub] goes from left to right: where the pattern matches a text that
    is not empty, the replacement stands for it and the scan goes on behind
    the match; elsewhere one character is passed on as it is. *)

Section Rewrites.

Variable U : ucd.
Variable ignorecase : bool.
Variable r : regex.
Variable repl : list (nat * str) -> str.

Definition no_match_at (prev : option char) (s : str) : Prop :=
  match match_at U ignorecase r prev s with
  | Some (S _, _) => False
  | _ => True
  end.

Inductive rewrites : option char -> str -> str -> Prop :=
| rewrites_end prev : rewrites prev [] []
| rewrites_pass prev c s o :
    no_match_at prev (c :: s) ->
    rewrites (Some c) s o ->
    rewrites prev (c :: s) (c :: o)
| rewrites_match prev w s gs o :
    w <> [] ->
    match_at U ignorecase r prev (w ++ s) = Some (length w, gs) ->
    rewrites (last_char prev w) s o ->
    rewrites prev (w ++ s) (repl gs ++ o).

End Rewrites.

(** A relation that holds between every character and the next one. *)
Fixpoint chain (R : char -> char -> Prop) (s : str) : Prop :=
  match s with
  | x :: (y :: _) as t => R x y /\ chain R t
  | _ => True
  end.

(** [x] stands directly before [y] somewhere in [s]. *)
Definition adjacent (x y : char) (s : str) : Prop :=
  exists a b, s = a ++ x :: y :: b.

(** The characters of [[ \t]]. *)
Definition is_blank (c : char) : bool := N.eqb SPACE c || N.eqb TAB c.

Definition ascii_letter (c : char) : bool :=
  ascii_isupper c || ascii_islower c.

Definition punctuation : str := py ",.!?;:".

Definition fullwidth_punctuation : str :=
  [0xff0c; 0x3002; 0xff01; 0xff1f; 0x3001; 0xff1b; 0xff1a]%N.

(** [b] is [a], or the capital of [a] where [a] is an ASCII lower-case
    letter. *)
Definition capital_or_same (a b : char) : Prop :=
  b = a \/ (ascii_islower a = true /\ b = ascii_upper a).

(** At the head of [s] stand a sentence mark, white space and an ASCII
    lower-case letter: what [sentence_start] matches. *)
Definition low_start (s : str) : Prop :=
  exists p ws l b,
    s = p :: ws ++ l :: b /\ List.In p (py ".!?") /\ ws <> []
    /\ forallb isspace ws = true /\ ascii_islower l = true.

(** ** Vocabulary of the properties *)

(** The string a call returns, whatever it printed or wrote. *)
Definition result_text (r : result outcome) : result str :=
  o <- r ;; Ok (returned o).



Section Vocabulary.

Variable U : ucd.

(** No caption is followed by one equal to it up to case. *)
Fixpoint no_adjacent_repeat (captions : list str) : Prop :=
  match captions with
  | x :: (y :: _) as rest => lower U x <> lower U y /\ no_adjacent_repeat rest
  | _ => True
  end.

End Vocabulary.

Definition sample_en_expected : str :=
  py "Hello and welcome to this tutorial." ++ [LF; LF]
  ++ py "Today we're going to learn about video text tracks.".

(** The number of CJK ideographs of a text. *)
Definition ideographs (text : str) : nat := length (filter is_ideograph text).

(** How many of the indicator characters occur in the text, each counted
    once however often it occurs. *)
Definition indicators_present (indicators : list str) (text : str) : nat :=
  length (filter (fun ch => contains ch text) indicators).

(** The count the words "count of occurrences" describe: the number of
    characters of the text that are one of the indicators. *)
Definition spec_occurrences (indicators : list str) (text : str) : nat :=
  length (filter (fun c => existsb (str_eqb [c]) indicators) text).

(** No carriage return and no newline among the characters. *)
Definition no_line_end (w : str) : Prop :=
  forall c, List.In c w -> c <> CR /\ c <> LF.

(** A SubRip file of one cue. *)
Definition sample_srt_content : str :=
  py "1" ++ [LF] ++ py "00:00:01,000 --> 00:00:02,000" ++ [LF]
  ++ py "Hi there." ++ [LF].


(** Where a match attempt hands over to its continuation. *)
Definition hands_over (st : mstate) (k : mstate -> option mstate)
    (final : mstate) : Prop :=
  exists st', length (ms_rest st') <= length (ms_rest st) /\ k st' = Some final.

(** Two continuations that agree on the states with at most [n] characters
    left. *)
Definition agree_below (n : nat) (k1 k2 : mstate -> option mstate) : Prop :=
  forall st, length (ms_rest st) <= n -> k1 st = k2 st.

(** A text of one line: no newline character in it. *)
Definition single_line (s : str) : Prop := ~ List.In LF s.

(** The sentences of the Chinese tests of the repository. *)
Definition zh_cn_first : str :=
  [0x5927; 0x5bb6; 0x597d; 0xff0c; 0x6b22; 0x8fce; 0x89c2; 0x770b; 0x8fd9;
   0x4e2a; 0x6559; 0x5b66; 0x3002]%N.

Definition zh_cn_second : str :=
  [0x4eca; 0x5929; 0x6211; 0x4eec; 0x8981; 0x5b66; 0x4e60; 0x5982; 0x4f55;
   0x4f7f; 0x7528; 0x5b57; 0x5e55; 0x6587; 0x4ef6; 0x3002]%N.

Definition zh_tw_first : str :=
  [0x5927; 0x5bb6; 0x597d; 0xff0c; 0x6b61; 0x8fce; 0x6536; 0x770b; 0x81fa;
   0x7063; 0x7684; 0x6559; 0x5b78; 0x3002]%N.

Definition zh_tw_second : str :=
  [0x4eca; 0x5929; 0x6211; 0x5011; 0x8981; 0x5b78; 0x7fd2; 0x5982; 0x4f55;
   0x4f7f; 0x7528; 0x5b57; 0x5e55; 0x6a94; 0x6848; 0x3002]%N.

(** A SubRip file of two cues. *)
Definition srt_of (first second : str) : subtitle_file :=
  {| suffix := py ".srt";
     content :=
       py "1" ++ [LF] ++ py "00:00:00,000 --> 00:00:02,000" ++ [LF]
       ++ first ++ [LF; LF]
       ++ py "2" ++ [LF] ++ py "00:00:02,000 --> 00:00:05,000" ++ [LF]
       ++ second ++ [LF] |}.

(** A VTT file of two cues. *)
Definition vtt_of (first second : str) : subtitle_file :=
  {| suffix := py ".vtt";
     content :=
       py "WEBVTT" ++ [LF; LF]
       ++ py "00:00:00.000 --> 00:00:02.000" ++ [LF] ++ first ++ [LF; LF]
       ++ py "00:00:02.000 --> 00:00:05.000" ++ [LF] ++ second ++ [LF] |}.

(** The English sample: a header and two cues, blank lines between the
    blocks. *)
Definition sample_en_vtt : subtitle_file :=
  vtt_of (py "Hello and welcome to this tutorial.")
         (py "Today we're going to learn about video text tracks.").

(** [xs] is [ys] with some elements removed, the others in their order. *)
Inductive subsequence {A : Type} : list A -> list A -> Prop :=
| subsequence_nil : subsequence [] []
| subsequence_keep x xs ys :
    subsequence xs ys -> subsequence (x :: xs) (x :: ys)
| subsequence_drop y xs ys :
    subsequence xs ys -> subsequence xs (y :: ys).

(** A text holds a tag: a '<', at least one character other than '>', and
    somewhere behind them a '>'. *)
Fixpoint has_tag (s : str) : bool :=
  match s with
  | [] => false
  | c :: s' =>
      (N.eqb c 60
       && match s' with
          | d :: s'' => negb (N.eqb d 62) && existsb (N.eqb 62) s''
          | [] => false
          end)
      || has_tag s'
  end.

(** Neither the first nor the last character is white space. *)
Definition clean_ends (s : str) : Prop :=
  forall c,
    hd_error s = Some c \/ hd_error (rev s) = Some c -> isspace c = false.

(** What the parser promises of a caption. *)
Definition well_formed_caption (c : str) : Prop :=
  c <> [] /\ strip c = c /\ single_line c /\ has_tag c = false.

Definition is_some {A} (o : option A) : bool :=
  match o with Some _ => true | None => false end.

(** The last character of [cap] that is not white space is one of [marks]. *)
Definition ends_with_mark (marks cap : str) : Prop :=
  exists a c w,
    cap = a ++ c :: w /\ List.In c marks /\ forallb isspace w = true.

(** A group of captions that its last caption closes, and no caption
    before it. *)
Definition closed_group (ends : str -> bool) (g : list str) : Prop :=
  exists init last,
    g = init ++ [last] /\ ends last = true
    /\ Forall (fun c => ends c = false) init.

(** The files a run wrote, with what it wrote, in order. *)
Definition written (es : list event) : list (str * str) :=
  flat_map (fun e => match e with
                     | WriteFile path text => [(path, text)]
                     | Print _ => []
                     end) es.

(** ** Properties *)

(** *** The English VTT scenario *)

(** C1: on the English VTT file of two cues, "Hello and welcome to this
    tutorial." and "Today we're going to learn about video text tracks.",
    [convert_subtitles_to_text] returns the two sentences joined by a blank
    line, with the language and the format given or detected. *)
Theorem english_vtt_scenario : forall U,
  result_text (convert_subtitles_to_text U sample_en_vtt None lang_en fmt_vtt)
    = Ok sample_en_expected
  /\ result_text
       (convert_subtitles_to_text U sample_en_vtt None lang_auto fmt_auto)
     = Ok sample_en_expected
  /\ result_text
       (convert_subtitles_to_text U sample_en_vtt None lang_auto fmt_vtt)
     = Ok sample_en_expected
  /\ result_text
       (convert_subtitles_to_text U sample_en_vtt None lang_en fmt_auto)
     = Ok sample_en_expected.
Proof.
  intro U. repeat split; vm_compute; reflexivity.
Qed.

(** The scenarios of [tests/test_subtitle_to_text.py], on files written
    like its samples. *)
Example srt_english_conversion :
  result_text
    (convert_subtitles_to_text ascii_tables
       (srt_of (py "Hello and welcome to this tutorial.")
               (py "Today we're going to learn about video text tracks."))
       None lang_en fmt_srt)
  = Ok sample_en_expected.
Proof. vm_compute. reflexivity. Qed.

Example vtt_traditional_chinese_conversion :
  result_text
    (convert_subtitles_to_text ascii_tables (vtt_of zh_tw_first zh_tw_second)
       None lang_zh_tw fmt_vtt)
  = Ok (zh_tw_first ++ [LF; LF] ++ zh_tw_second)
  /\ detect_language ascii_tables (zh_tw_first ++ py " " ++ zh_tw_second)
     = lang_zh_tw.
Proof. split; vm_compute; reflexivity. Qed.

Example srt_simplified_chinese_conversion :
  result_text
    (convert_subtitles_to_text ascii_tables (srt_of zh_cn_first zh_cn_second)
       None lang_zh_cn fmt_srt)
  = Ok (zh_cn_first ++ [LF; LF] ++ zh_cn_second)
  /\ detect_language ascii_tables (zh_cn_first ++ py " " ++ zh_cn_second)
     = lang_zh_cn.
Proof. split; vm_compute; reflexivity. Qed.

Example backwards_alias_matches :
  forall U,
    result_text (convert_vtt_to_text U sample_en_vtt None lang_auto)
    = result_text
        (convert_subtitles_to_text U sample_en_vtt None lang_en fmt_vtt).
Proof. intro U. vm_compute. reflexivity. Qed.

(** *** The alias *)

(** C8: [convert_vtt_to_text] on an input, an output path and a language is
    the call of [convert_subtitles_to_text] on the same arguments with the
    format set to vtt: the same returned text and the same effects. *)
Theorem convert_vtt_to_text_is_vtt_conversion :
  forall U sub_path output_path lang,
    convert_vtt_to_text U sub_path output_path lang
    = convert_subtitles_to_text U sub_path output_path lang fmt_vtt.
Proof.
  intros. unfold convert_vtt_to_text. reflexivity.
Qed.

(** *** Determinism *)

(** Case analysis on the computation at the head of a sequence of binds. *)
Ltac step_bind :=
  match goal with
  | |- context [bind ?c _] =>
      lazymatch c with
      | context [bind _ _] => fail
      | _ => destruct c; cbn [bind]
      end
  end.

Lemma returned_text_ignores_output_path :
  forall U sub_path output_path lang fmt,
    result_text (convert_subtitles_to_text U sub_path output_path lang fmt)
    = result_text (convert_subtitles_to_text U sub_path None lang fmt).
Proof.
  intros. unfold convert_subtitles_to_text, result_text.
  destruct (parse_subtitle_file U sub_path fmt) as [[captions detected]|e];
    cbn [bind]; [|reflexivity].
  set (chosen := if str_eqb lang lang_auto then _ else _).
  destruct chosen as [[lang' log]|e]; cbn [bind]; [|reflexivity].
  repeat (step_bind; try reflexivity).
Qed.

(** C9: the returned text is a function of what the run reads: two runs on
    files with the same suffix and the same content, with the same language
    and format options, return the same string, wherever they write it. *)
Theorem conversion_is_deterministic :
  forall U file1 file2 output1 output2 lang fmt,
    suffix file1 = suffix file2 ->
    content file1 = content file2 ->
    result_text (convert_subtitles_to_text U file1 output1 lang fmt)
    = result_text (convert_subtitles_to_text U file2 output2 lang fmt).
Proof.
  intros U [s1 c1] [s2 c2] output1 output2 lang fmt Hs Hc.
  cbn in Hs, Hc. subst s2 c2.
  rewrite (returned_text_ignores_output_path U _ output1).
  rewrite (returned_text_ignores_output_path U _ output2).
  reflexivity.
Qed.

Lemma conversion_is_deterministic_example :
  result_text
    (convert_subtitles_to_text ascii_tables sample_en_vtt
       (Some (py "a.txt")) lang_auto fmt_auto)
  = result_text
      (convert_subtitles_to_text ascii_tables sample_en_vtt None lang_auto
         fmt_auto).
Proof.
  apply (conversion_is_deterministic ascii_tables sample_en_vtt sample_en_vtt
           (Some (py "a.txt")) None lang_auto fmt_auto);
    reflexivity.
Defined.

(** *** Basic facts on strings and on the monad *)

Lemma str_eqb_eq : forall a b, str_eqb a b = true <-> a = b.
Proof.
  induction a as [|x a IH]; destruct b as [|y b]; cbn; split; intro H;
    try reflexivity; try discriminate.
  - apply andb_true_iff in H. destruct H as [Hx Hab].
    apply N.eqb_eq in Hx. apply IH in Hab. congruence.
  - injection H as -> ->. rewrite N.eqb_refl. cbn. apply IH. reflexivity.
Qed.


Lemma str_eqb_neq : forall a b, str_eqb a b = false <-> a <> b.
Proof.
  intros a b. split.
  - intros H E. apply str_eqb_eq in E. congruence.
  - intro H. destruct (str_eqb a b) eqn:E; [|reflexivity].
    apply str_eqb_eq in E. contradiction.
Qed.

Lemma for_each_app :
  forall A B (body : B -> A -> result B) xs ys acc,
    for_each body (xs ++ ys) acc
    = (acc' <- for_each body xs acc ;; for_each body ys acc').
Proof.
  induction xs as [|x xs IH]; intros ys acc; cbn; [reflexivity|].
  destruct (body acc x); cbn; [apply IH | reflexivity].
Qed.

(** A loop whose body keeps an invariant and never raises ends normally,
    the invariant still holding. *)
Lemma for_each_invariant :
  forall A B (body : B -> A -> result B) (P : B -> Prop),
    (forall acc x, P acc -> exists acc', body acc x = Ok acc' /\ P acc') ->
    forall xs acc, P acc -> exists r, for_each body xs acc = Ok r /\ P r.
Proof.
  intros A B body P Hbody. induction xs as [|x xs IH]; intros acc Hacc; cbn.
  - exists acc. split; [reflexivity | assumption].
  - destruct (Hbody acc x Hacc) as (acc' & E & Hacc'). rewrite E. cbn.
    apply IH. assumption.
Qed.

Lemma index_last_snoc : forall A (xs : list A) x, index_last (xs ++ [x]) = Ok x.
Proof.
  intros. unfold index_last. rewrite rev_app_distr. reflexivity.
Qed.

(** *** Deduplication *)

Section Deduplication.

Variable U : ucd.

Lemma no_adjacent_repeat_snoc :
  forall xs k c,
    no_adjacent_repeat U (xs ++ [k]) -> lower U k <> lower U c ->
    no_adjacent_repeat U ((xs ++ [k]) ++ [c]).
Proof.
  induction xs as [|x xs IH]; intros k c Hxs Hkc.
  - cbn. auto.
  - destruct xs as [|y xs].
    + cbn in *. tauto.
    + cbn in Hxs. destruct Hxs as [Hxy Hrest].
      change (lower U x <> lower U y
              /\ no_adjacent_repeat U (((y :: xs) ++ [k]) ++ [c])).
      split; [assumption | apply IH; assumption].
Qed.

Lemma remove_duplicates_cons :
  forall c rest,
    remove_duplicates U (c :: rest) = for_each (keep_if_new U) rest [c].
Proof. reflexivity. Qed.

Lemma keep_if_new_snoc :
  forall xs k c,
    keep_if_new U (xs ++ [k]) c
    = Ok (if str_eqb (lower U c) (lower U k) then xs ++ [k]
          else (xs ++ [k]) ++ [c]).
Proof.
  intros. unfold keep_if_new. rewrite index_last_snoc. cbn.
  destruct (str_eqb (lower U c) (lower U k)); reflexivity.
Qed.

(** The loop keeps a non-empty list without adjacent repeats. *)
Lemma dedup_loop :
  forall rest xs k,
    no_adjacent_repeat U (xs ++ [k]) ->
    exists xs' k',
      for_each (keep_if_new U) rest (xs ++ [k]) = Ok (xs' ++ [k'])
      /\ no_adjacent_repeat U (xs' ++ [k']).
Proof.
  intros rest xs k H.
  destruct (for_each_invariant (keep_if_new U)
              (fun acc => exists xs' k',
                   acc = xs' ++ [k']
                   /\ no_adjacent_repeat U (xs' ++ [k']))) with
    (xs := rest) (acc := xs ++ [k]) as (r & E & xs' & k' & -> & Hr).
  - intros acc c (ys & j & -> & Hys). rewrite keep_if_new_snoc.
    destruct (str_eqb (lower U c) (lower U j)) eqn:Ecj.
    + eexists. split; [reflexivity|]. exists ys, j. auto.
    + eexists. split; [reflexivity|]. exists (ys ++ [j]), c.
      split; [reflexivity|]. apply no_adjacent_repeat_snoc; [assumption|].
      apply str_eqb_neq in Ecj. congruence.
  - exists xs, k. auto.
  - exists xs', k'. auto.
Qed.

Lemma remove_duplicates_nonempty :
  forall c rest,
    exists xs k,
      remove_duplicates U (c :: rest) = Ok (xs ++ [k])
      /\ no_adjacent_repeat U (xs ++ [k]).
Proof.
  intros. rewrite remove_duplicates_cons.
  apply (dedup_loop rest [] c). exact I.
Qed.

End Deduplication.

(** C4: [remove_duplicates] keeps the first caption; it drops a later caption
    exactly when that caption equals, up to case, the last caption kept so
    far (whatever was kept or dropped earlier); so the result has no two
    adjacent captions equal up to case, and A, B, A is kept in full when A and
    B differ up to case. *)
Theorem remove_duplicates_compares_with_last_kept : forall U,
  remove_duplicates U [] = Ok []
  /\ (forall c, remove_duplicates U [c] = Ok [c])
  /\ (forall captions c,
        captions <> [] ->
        exists kept last_kept,
          remove_duplicates U captions = Ok (kept ++ [last_kept])
          /\ remove_duplicates U (captions ++ [c])
             = Ok (if str_eqb (lower U c) (lower U last_kept)
                   then kept ++ [last_kept]
                   else (kept ++ [last_kept]) ++ [c]))
  /\ (forall captions,
        exists cleaned,
          remove_duplicates U captions = Ok cleaned
          /\ no_adjacent_repeat U cleaned)
  /\ (forall a b,
        lower U a <> lower U b ->
        remove_duplicates U [a; b; a] = Ok [a; b; a]).
Proof.
  intro U. split; [reflexivity|]. split; [reflexivity|].
  split; [|split].
  - intros [|c0 rest] c Hne; [contradiction|].
    destruct (remove_duplicates_nonempty U c0 rest) as (xs & k & E & _).
    exists xs, k. split; [assumption|].
    change ((c0 :: rest) ++ [c]) with (c0 :: (rest ++ [c])).
    rewrite remove_duplicates_cons in *. rewrite for_each_app, E. cbn.
    unfold keep_if_new. rewrite index_last_snoc. cbn.
    destruct (str_eqb (lower U c) (lower U k)); reflexivity.
  - intros [|c0 rest].
    + exists []. split; [reflexivity | exact I].
    + destruct (remove_duplicates_nonempty U c0 rest) as (xs & k & E & H).
      exists (xs ++ [k]). auto.
  - intros a b Hab. cbn.
    assert (Hba : str_eqb (lower U b) (lower U a) = false)
      by (apply str_eqb_neq; congruence).
    assert (Hab' : str_eqb (lower U a) (lower U b) = false)
      by (apply str_eqb_neq; assumption).
    unfold index_last. cbn. rewrite Hba. cbn. rewrite Hab'. reflexivity.
Qed.

Lemma remove_duplicates_compares_with_last_kept_example :
  remove_duplicates ascii_tables [py "Hi"; py "there"; py "Hi"]
    = Ok [py "Hi"; py "there"; py "Hi"]
  /\ exists kept last_kept,
       remove_duplicates ascii_tables [py "Hi"; py "there"]
         = Ok (kept ++ [last_kept])
       /\ remove_duplicates ascii_tables ([py "Hi"; py "there"] ++ [py "THERE"])
          = Ok (if str_eqb (lower ascii_tables (py "THERE"))
                          (lower ascii_tables last_kept)
                then kept ++ [last_kept]
                else (kept ++ [last_kept]) ++ [py "THERE"]).
Proof.
  destruct (remove_duplicates_compares_with_last_kept ascii_tables)
    as (_ & _ & Hsnoc & _ & Haba).
  split.
  - apply Haba. vm_compute. discriminate.
  - apply Hsnoc. discriminate.
Defined.

(** *** Paragraphs *)





Section Paragraphs.

Variable U : ucd.
Variable sentence_end : regex.


End Paragraphs.





(** *** Language detection *)

Lemma match_at_cjk :
  forall U prev c s,
    match_at U false cjk prev (c :: s)
    = if is_ideograph c then Some (1, []) else None.
Proof.
  intros. unfold match_at, cjk. cbn -[Nat.sub length in_range].
  unfold in_set, is_ideograph. cbn -[Nat.sub length in_range].
  rewrite orb_false_r.
  destruct (in_range 0x4e00 0x9fff c); cbn -[Nat.sub length]; [|reflexivity].
  replace (length (c :: s) - length s) with 1 by (cbn [length]; lia).
  reflexivity.
Qed.

Lemma findall_cjk_counts_ideographs :
  forall U text, length (re_findall U false cjk text) = ideographs text.
Proof.
  intros U text. unfold re_findall, ideographs. generalize (@None char).
  induction text as [|c text IH]; intro prev; [reflexivity|].
  cbn [findall_go filter]. rewrite match_at_cjk.
  destruct (is_ideograph c); cbn [length]; rewrite IH; reflexivity.
Qed.

Lemma count_if_filter :
  forall A (p : A -> bool) xs, count_if p xs = length (filter p xs).
Proof.
  intros A p xs. unfold count_if. generalize (filter p xs).
  induction l as [|x l IH]; cbn; [reflexivity | f_equal; exact IH].
Qed.

Lemma detect_language_unfold :
  forall U text,
    detect_language U text
    = if 3 * length text <? 10 * ideographs text then
        if indicators_present simplified_indicators text
           <? indicators_present traditional_indicators text
        then lang_zh_tw else lang_zh_cn
      else lang_en.
Proof.
  intros U text. unfold detect_language.
  rewrite findall_cjk_counts_ideographs, !count_if_filter.
  destruct text as [|c text]; reflexivity.
Qed.

(** C3, as stated, fails when an indicator occurs more than once: three
    occurrences of one Traditional indicator against one occurrence each of
    two Simplified indicators give zh_cn. *)
Lemma repeated_indicator_counts_once :
  ~ (forall U text,
       10 * ideographs text > 3 * length text ->
       spec_occurrences traditional_indicators text
       > spec_occurrences simplified_indicators text ->
       detect_language U text = lang_zh_tw).
Proof.
  intro H.
  specialize (H ascii_tables [0x9019; 0x9019; 0x9019; 0x4e2a; 0x4e3a]%N).
  assert (E : detect_language ascii_tables
                [0x9019; 0x9019; 0x9019; 0x4e2a; 0x4e3a]%N = lang_zh_cn)
    by (vm_compute; reflexivity).
  rewrite E in H. clear E.
  assert (Hne : lang_zh_cn <> lang_zh_tw) by (vm_compute; discriminate).
  apply Hne, H; apply Nat.ltb_lt; vm_compute; reflexivity.
Qed.

(** C3, amended: [detect_language] always returns en, zh_tw or zh_cn.  When
    the ideographs are more than 30% of the sample it returns zh_tw if more
    of the ten Traditional indicator characters than of the ten Simplified
    ones are present in the sample (each indicator counted once), and zh_cn
    otherwise, ties included; when they are not, and on the empty sample, it
    returns en. *)
Theorem detect_language_by_threshold_and_indicators :
  forall U text,
    List.In (detect_language U text) [lang_en; lang_zh_tw; lang_zh_cn]
    /\ (10 * ideographs text > 3 * length text ->
        indicators_present traditional_indicators text
        > indicators_present simplified_indicators text ->
        detect_language U text = lang_zh_tw)
    /\ (10 * ideographs text > 3 * length text ->
        indicators_present traditional_indicators text
        <= indicators_present simplified_indicators text ->
        detect_language U text = lang_zh_cn)
    /\ (10 * ideographs text <= 3 * length text ->
        detect_language U text = lang_en)
    /\ detect_language U [] = lang_en.
Proof.
  intros U text. rewrite detect_language_unfold.
  destruct (Nat.ltb_spec (3 * length text) (10 * ideographs text)) as [Hc|Hc];
    [destruct (Nat.ltb_spec (indicators_present simplified_indicators text)
                 (indicators_present traditional_indicators text)) as [Ht|Ht]|];
    (split; [cbn; tauto|]);
    repeat split; intros; try reflexivity; lia.
Qed.

Lemma detect_language_by_threshold_and_indicators_example :
  detect_language ascii_tables [0x9019; 0x500b; 0x4e2a; 65; 66]%N = lang_zh_tw
  /\ detect_language ascii_tables [0x9019; 0x4e2a; 65]%N = lang_zh_cn
  /\ detect_language ascii_tables [0x9019; 65; 66; 67]%N = lang_en.
Proof.
  split; [|split].
  - destruct (detect_language_by_threshold_and_indicators ascii_tables
                [0x9019; 0x500b; 0x4e2a; 65; 66]%N) as (_ & H & _).
    apply H; apply Nat.ltb_lt; vm_compute; reflexivity.
  - destruct (detect_language_by_threshold_and_indicators ascii_tables
                [0x9019; 0x4e2a; 65]%N) as (_ & _ & H & _).
    apply H; [apply Nat.ltb_lt | apply Nat.leb_le]; vm_compute; reflexivity.
  - destruct (detect_language_by_threshold_and_indicators ascii_tables
                [0x9019; 65; 66; 67]%N) as (_ & _ & _ & H & _).
    apply H. apply Nat.leb_le. vm_compute. reflexivity.
Defined.

(** *** Format detection *)

Lemma contains_nil : forall s, contains [] s = true.
Proof. destruct s; reflexivity. Qed.

Lemma startswith_contains :
  forall w s, startswith w s = true -> contains w s = true.
Proof.
  intros w s H. destruct s; cbn [contains]; rewrite H; reflexivity.
Qed.

Lemma contains_cons :
  forall w c s, contains w s = true -> contains w (c :: s) = true.
Proof.
  intros w c s H. cbn [contains]. rewrite H. apply orb_true_r.
Qed.

(** One pass of the normalization, [s.replace('\r' + tail, '\n')]: the
    script runs it with [tail = '\n'], then with the empty [tail]. *)
Section LineEndings.

Variable tail : str.
Hypothesis tail_cases : tail = [] \/ tail = [LF].

Lemma pass_nil : replace (CR :: tail) [LF] [] = [].
Proof. reflexivity. Qed.

Lemma pass_cons_other :
  forall c s,
    c <> CR ->
    replace (CR :: tail) [LF] (c :: s) = c :: replace (CR :: tail) [LF] s.
Proof.
  intros c s Hc. unfold replace. cbn [replace_go startswith].
  assert (E : N.eqb CR c = false) by (apply N.eqb_neq; congruence).
  rewrite E. reflexivity.
Qed.

(** At a carriage return the pass writes a newline and goes on behind the
    occurrence, or, when the occurrence is incomplete, copies it. *)
Lemma pass_cons_cr :
  forall s,
    (exists s',
        replace (CR :: tail) [LF] (CR :: s)
        = LF :: replace (CR :: tail) [LF] s'
        /\ (s = s' \/ s = LF :: s'))
    \/ replace (CR :: tail) [LF] (CR :: s)
       = CR :: replace (CR :: tail) [LF] s.
Proof.
  intro s. destruct tail_cases as [-> | ->]; unfold replace.
  - left. exists s. split; [reflexivity | left; reflexivity].
  - destruct s as [|d s]; [right; reflexivity|].
    cbn [replace_go startswith]. cbn [N.eqb CR Pos.eqb andb].
    destruct (N.eqb LF d) eqn:E.
    + apply N.eqb_eq in E. subst d. left. exists s.
      split; [reflexivity | right; reflexivity].
    + right. reflexivity.
Qed.

Lemma pass_startswith :
  forall w s,
    no_line_end w ->
    startswith w (replace (CR :: tail) [LF] s) = startswith w s.
Proof.
  induction w as [|x w IH]; intros s Hw.
  - destruct (replace (CR :: tail) [LF] s), s; reflexivity.
  - assert (Hx : x <> CR /\ x <> LF) by (apply Hw; left; reflexivity).
    assert (Hw' : no_line_end w)
      by (intros c Hc; apply Hw; right; assumption).
    destruct s as [|c s]; [reflexivity|].
    destruct (N.eqb_spec c CR) as [-> | Hc].
    + assert (Ecr : N.eqb x CR = false) by (apply N.eqb_neq; tauto).
      assert (Elf : N.eqb x LF = false) by (apply N.eqb_neq; tauto).
      destruct (pass_cons_cr s) as [(s' & -> & _) | ->];
        cbn [startswith]; rewrite ?Ecr, ?Elf; reflexivity.
    + rewrite pass_cons_other by assumption. cbn [startswith].
      rewrite IH by assumption. reflexivity.
Qed.

Lemma pass_lstrip_startswith :
  forall w, no_line_end w ->
  forall n s,
    length s <= n ->
    startswith w (lstrip (replace (CR :: tail) [LF] s))
    = startswith w (lstrip s).
Proof.
  intros w Hw. induction n as [|n IH]; intros s Hn.
  - destruct s; [reflexivity | cbn in Hn; lia].
  - destruct s as [|c s]; [reflexivity|]. cbn [length] in Hn.
    destruct (N.eqb_spec c CR) as [-> | Hc].
    + change (lstrip (CR :: s)) with (lstrip s).
      destruct (pass_cons_cr s) as [(s' & -> & [<- | ->]) | ->].
      * change (lstrip (LF :: replace (CR :: tail) [LF] s))
          with (lstrip (replace (CR :: tail) [LF] s)).
        apply IH. lia.
      * change (lstrip (LF :: replace (CR :: tail) [LF] s'))
          with (lstrip (replace (CR :: tail) [LF] s')).
        change (lstrip (LF :: s')) with (lstrip s').
        apply IH. cbn [length] in Hn. lia.
      * change (lstrip (CR :: replace (CR :: tail) [LF] s))
          with (lstrip (replace (CR :: tail) [LF] s)).
        apply IH. lia.
    + rewrite pass_cons_other by assumption. cbn [lstrip].
      destruct (isspace c); [apply IH; lia|].
      destruct w as [|x w]; [reflexivity|]. cbn [startswith].
      rewrite pass_startswith; [reflexivity|].
      intros d Hd. apply Hw. right. assumption.
Qed.

Lemma pass_contains :
  forall w, no_line_end w ->
  forall n s,
    length s <= n ->
    contains w s = true ->
    contains w (replace (CR :: tail) [LF] s) = true.
Proof.
  intros w Hw. destruct w as [|x w]; [intros; apply contains_nil|].
  assert (Hx : x <> CR /\ x <> LF) by (apply Hw; left; reflexivity).
  induction n as [|n IH]; intros s Hn H.
  - destruct s; [exact H | cbn in Hn; lia].
  - destruct s as [|c s]; [exact H|]. cbn [length] in Hn.
    destruct (startswith (x :: w) (c :: s)) eqn:Es.
    + apply startswith_contains. rewrite pass_startswith; assumption.
    + cbn [contains] in H. rewrite Es in H. cbn [orb] in H.
      destruct (N.eqb_spec c CR) as [-> | Hc].
      * destruct (pass_cons_cr s) as [(s' & -> & [<- | ->]) | ->];
          apply contains_cons.
        -- apply IH; [lia | assumption].
        -- cbn [contains startswith] in H.
           assert (Elf : N.eqb x LF = false) by (apply N.eqb_neq; tauto).
           rewrite Elf in H. cbn [andb orb] in H.
           apply IH; [cbn [length] in Hn; lia | assumption].
        -- apply IH; [lia | assumption].
      * rewrite pass_cons_other by assumption. apply contains_cons.
        apply IH; [lia | assumption].
Qed.

End LineEndings.

Lemma no_line_end_literal :
  forall w,
    forallb (fun c => negb (N.eqb c CR) && negb (N.eqb c LF)) w = true ->
    no_line_end w.
Proof.
  intros w H c Hc. rewrite forallb_forall in H. specialize (H c Hc).
  apply andb_true_iff in H. destruct H as [H1 H2].
  apply negb_true_iff in H1, H2. apply N.eqb_neq in H1, H2. auto.
Qed.

(** The normalization keeps a header after leading white space and keeps
    an arrow. *)
Lemma normalized_header :
  forall raw,
    startswith (py "WEBVTT")
      (lstrip (replace [CR] [LF] (replace [CR; LF] [LF] raw)))
    = startswith (py "WEBVTT") (lstrip raw).
Proof.
  intro raw.
  assert (Hw : no_line_end (py "WEBVTT"))
    by (apply no_line_end_literal; reflexivity).
  rewrite (@pass_lstrip_startswith [] (or_introl eq_refl) _ Hw _ _ (le_n _)).
  apply (@pass_lstrip_startswith [LF] (or_intror eq_refl) _ Hw _ _ (le_n _)).
Qed.

Lemma normalized_arrow :
  forall raw,
    contains arrow raw = true ->
    contains arrow (replace [CR] [LF] (replace [CR; LF] [LF] raw)) = true.
Proof.
  intros raw H.
  assert (Hw : no_line_end arrow) by (apply no_line_end_literal; reflexivity).
  apply (@pass_contains [] (or_introl eq_refl) _ Hw _ _ (le_n _)).
  apply (@pass_contains [LF] (or_intror eq_refl) _ Hw _ _ (le_n _)).
  assumption.
Qed.

Lemma header_first_is_not_white :
  forall raw,
    startswith (py "WEBVTT") raw = true -> lstrip raw = raw.
Proof.
  intros [|c raw] H; [reflexivity|].
  change (py "WEBVTT") with (87%N :: py "EBVTT") in H.
  cbn [startswith] in H. apply andb_true_iff in H. destruct H as [H _].
  apply N.eqb_eq in H. subst c. reflexivity.
Qed.

(** C2, as stated, fails on a file named [.vtt]: the extension is looked at
    before the arrow, so a SubRip text in a [.vtt] file is parsed as VTT. *)
Lemma vtt_extension_comes_before_the_arrow :
  ~ (forall U file,
       startswith (py "WEBVTT") (content file) = false ->
       contains arrow (content file) = true ->
       parse_subtitle_file U file fmt_auto
       = parse_subtitle_file U file fmt_srt).
Proof.
  intro H.
  specialize (H ascii_tables
                {| suffix := py ".vtt"; content := sample_srt_content |}
                eq_refl eq_refl).
  vm_compute in H. discriminate H.
Qed.

(** C2, amended: with the hint auto, a file whose content starts with WEBVTT
    is parsed as VTT whatever its extension; a file whose extension is not
    [.vtt] (in any case) and whose content, leading white space apart, does
    not start with WEBVTT but holds an arrow is parsed as SRT. *)
Theorem auto_format_by_header_and_arrow :
  forall U file,
    (startswith (py "WEBVTT") (content file) = true ->
     parse_subtitle_file U file fmt_auto
     = parse_subtitle_file U file fmt_vtt)
    /\ (lower U (suffix file) <> py ".vtt" ->
        startswith (py "WEBVTT") (lstrip (content file)) = false ->
        contains arrow (content file) = true ->
        parse_subtitle_file U file fmt_auto
        = parse_subtitle_file U file fmt_srt).
Proof.
  intros U file. unfold parse_subtitle_file, detect_format.
  change (str_eqb fmt_auto fmt_auto) with true.
  change (str_eqb fmt_vtt fmt_auto) with false.
  change (str_eqb fmt_srt fmt_auto) with false.
  cbv iota. rewrite normalized_header. split.
  - intro Hhead. rewrite (header_first_is_not_white _ Hhead), Hhead.
    rewrite orb_true_r. reflexivity.
  - intros Hext Hhead Harrow. apply str_eqb_neq in Hext.
    rewrite Hext, Hhead. cbn [orb].
    rewrite (normalized_arrow _ Harrow), orb_true_r. reflexivity.
Qed.

Lemma auto_format_by_header_and_arrow_example :
  parse_subtitle_file ascii_tables
    {| suffix := py ".srt"; content := content sample_en_vtt |} fmt_auto
  = parse_subtitle_file ascii_tables
      {| suffix := py ".srt"; content := content sample_en_vtt |} fmt_vtt
  /\ parse_subtitle_file ascii_tables
       {| suffix := py ".txt"; content := sample_srt_content |} fmt_auto
     = parse_subtitle_file ascii_tables
         {| suffix := py ".txt"; content := sample_srt_content |} fmt_srt.
Proof.
  split.
  - apply (proj1 (auto_format_by_header_and_arrow ascii_tables
                    {| suffix := py ".srt";
                       content := content sample_en_vtt |})).
    reflexivity.
  - apply (proj2 (auto_format_by_header_and_arrow ascii_tables
                    {| suffix := py ".txt";
                       content := sample_srt_content |})).
    + vm_compute. discriminate.
    + reflexivity.
    + reflexivity.
Defined.

(** *** The matcher only moves forward *)

Section Forward.

Variable U : ucd.
Variable ignorecase : bool.

Lemma eat_forward :
  forall p st k final,
    eat p st k = Some final ->
    exists st', S (length (ms_rest st')) = length (ms_rest st)
                /\ k st' = Some final.
Proof.
  intros p [prev rest groups] k final. unfold eat. cbn.
  destruct rest as [|c rest]; [discriminate|].
  destruct (p c); [|discriminate]. intro H.
  eexists. split; [|exact H]. reflexivity.
Qed.

Lemma rep_loop_forward :
  forall body greedy,
    (forall st k final, body st k = Some final -> hands_over st k final) ->
    forall fuel lo hi st k final,
      rep_loop body greedy fuel lo hi st k = Some final ->
      hands_over st k final.
Proof.
  intros body greedy Hbody. induction fuel as [|fuel IH];
    intros lo hi st k final H; [discriminate|].
  cbn [rep_loop] in H. cbv zeta in H.
  assert (Hagain :
    forall final',
      match hi with
      | Some 0 => None
      | _ => body st (fun st' =>
               if progressed st st'
               then rep_loop body greedy fuel (pred lo) (option_map pred hi)
                      st' k
               else None)
      end = Some final' -> hands_over st k final').
  { intros final' Ha.
    assert (Hb : body st (fun st' =>
               if progressed st st'
               then rep_loop body greedy fuel (pred lo) (option_map pred hi)
                      st' k
               else None) = Some final')
      by (destruct hi as [[|h]|]; [discriminate | exact Ha | exact Ha]).
    apply Hbody in Hb. destruct Hb as (st1 & Hlen & Hk).
    destruct (progressed st st1); [|discriminate].
    apply IH in Hk. destruct Hk as (st2 & Hlen2 & Hk2).
    exists st2. split; [lia | assumption]. }
  destruct lo as [|lo].
  - destruct greedy; unfold orelse in H.
    + match type of H with
      | match ?a with _ => _ end = _ => destruct a eqn:Ea
      end.
      * apply Hagain. exact H.
      * exists st. split; [lia | exact H].
    + destruct (k st) eqn:Ek.
      * injection H as <-. exists st. split; [lia | assumption].
      * apply Hagain. exact H.
  - apply Hagain. assumption.
Qed.

Lemma rmatch_forward :
  forall r st k final,
    rmatch U ignorecase r st k = Some final -> hands_over st k final.
Proof.
  induction r as [| c | | items | items | r1 IH1 r2 IH2 | r1 IH1 r2 IH2
                 | greedy lo hi r IH | n r IH | | ];
    intros st k final H; cbn [rmatch] in H.
  - exists st. split; [lia | assumption].
  - apply eat_forward in H. destruct H as (st' & Hlen & Hk).
    exists st'. split; [lia | assumption].
  - apply eat_forward in H. destruct H as (st' & Hlen & Hk).
    exists st'. split; [lia | assumption].
  - apply eat_forward in H. destruct H as (st' & Hlen & Hk).
    exists st'. split; [lia | assumption].
  - apply eat_forward in H. destruct H as (st' & Hlen & Hk).
    exists st'. split; [lia | assumption].
  - apply IH1 in H. destruct H as (st1 & Hlen1 & H).
    apply IH2 in H. destruct H as (st2 & Hlen2 & H).
    exists st2. split; [lia | assumption].
  - unfold orelse in H. destruct (rmatch U ignorecase r1 st k) eqn:E1.
    + injection H as <-. apply IH1. assumption.
    + apply IH2. assumption.
  - apply rep_loop_forward in H; [assumption|].
    intros st0 k0 final0. apply IH.
  - apply IH in H. destruct H as (st' & Hlen & H).
    eexists. split; [|exact H]. cbn. assumption.
  - destruct (at_eos st); [|discriminate].
    exists st. split; [lia | assumption].
  - destruct (at_boundary U st); [|discriminate].
    exists st. split; [lia | assumption].
Qed.

(** A pattern that begins with a literal matches at least one character. *)
Lemma match_at_literal_first :
  forall c r prev s n gs,
    match_at U ignorecase (Cat (Lit c) r) prev s = Some (n, gs) -> 0 < n.
Proof.
  intros c r prev s n gs. unfold match_at. cbn [rmatch].
  destruct (eat _ _ _) eqn:E; [|discriminate].
  intro H. injection H as <- _.
  apply eat_forward in E. destruct E as (st1 & Hlen1 & E). cbn in Hlen1.
  apply rmatch_forward in E. destruct E as (st2 & Hlen2 & E).
  injection E as <-. lia.
Qed.

End Forward.

(** *** The repetition loop has fuel enough *)

Section Fuel.

Variable U : ucd.
Variable ignorecase : bool.

(** A loop whose body looks at its continuation only behind the current
    position gives the same result with any fuel above the length of the text
    left. *)
Lemma rep_loop_fuel :
  forall body greedy,
    (forall st k1 k2,
        agree_below (length (ms_rest st)) k1 k2 -> body st k1 = body st k2) ->
    forall fuel1 fuel2 lo hi st k,
      length (ms_rest st) < fuel1 ->
      length (ms_rest st) < fuel2 ->
      rep_loop body greedy fuel1 lo hi st k
      = rep_loop body greedy fuel2 lo hi st k.
Proof.
  intros body greedy Hbody. induction fuel1 as [|fuel1 IH];
    intros fuel2 lo hi st k H1 H2; [lia|].
  destruct fuel2 as [|fuel2]; [lia|]. cbn [rep_loop].
  assert (E :
    body st (fun st' =>
      if progressed st st'
      then rep_loop body greedy fuel1 (pred lo) (option_map pred hi) st' k
      else None)
    = body st (fun st' =>
      if progressed st st'
      then rep_loop body greedy fuel2 (pred lo) (option_map pred hi) st' k
      else None)).
  { apply Hbody. intros st' Hlen. unfold progressed.
    destruct (Nat.ltb_spec (length (ms_rest st')) (length (ms_rest st)));
      [|reflexivity].
    apply IH; lia. }
  rewrite E. reflexivity.
Qed.

Lemma rep_loop_local :
  forall body greedy,
    (forall st k1 k2,
        agree_below (length (ms_rest st)) k1 k2 -> body st k1 = body st k2) ->
    forall fuel lo hi st k1 k2,
      agree_below (length (ms_rest st)) k1 k2 ->
      rep_loop body greedy fuel lo hi st k1
      = rep_loop body greedy fuel lo hi st k2.
Proof.
  intros body greedy Hbody. induction fuel as [|fuel IH];
    intros lo hi st k1 k2 Hk; [reflexivity|].
  cbn [rep_loop].
  assert (E :
    body st (fun st' =>
      if progressed st st'
      then rep_loop body greedy fuel (pred lo) (option_map pred hi) st' k1
      else None)
    = body st (fun st' =>
      if progressed st st'
      then rep_loop body greedy fuel (pred lo) (option_map pred hi) st' k2
      else None)).
  { apply Hbody. intros st' Hlen.
    destruct (progressed st st'); [|reflexivity].
    apply IH. intros st'' Hlen'. apply Hk. lia. }
  rewrite E, (Hk st (le_n _)). reflexivity.
Qed.

Lemma eat_local :
  forall p st k1 k2,
    agree_below (length (ms_rest st)) k1 k2 -> eat p st k1 = eat p st k2.
Proof.
  intros p [prev rest groups] k1 k2 Hk. unfold eat. cbn [ms_rest] in *.
  destruct rest as [|c rest]; [reflexivity|].
  destruct (p c); [|reflexivity]. apply Hk. cbn. lia.
Qed.

Lemma rmatch_local :
  forall r st k1 k2,
    agree_below (length (ms_rest st)) k1 k2 ->
    rmatch U ignorecase r st k1 = rmatch U ignorecase r st k2.
Proof.
  induction r as [| c | | items | items | r1 IH1 r2 IH2 | r1 IH1 r2 IH2
                 | greedy lo hi r IH | n r IH | | ];
    intros st k1 k2 Hk; cbn [rmatch];
    try (apply eat_local; assumption).
  - apply Hk. lia.
  - apply IH1. intros st' Hlen. apply IH2.
    intros st'' Hlen'. apply Hk. lia.
  - rewrite (IH1 st k1 k2 Hk), (IH2 st k1 k2 Hk). reflexivity.
  - apply rep_loop_local; [|assumption]. intros st0 k3 k4. apply IH.
  - apply IH. intros st' Hlen. apply Hk. cbn. assumption.
  - rewrite (Hk st (le_n _)). reflexivity.
  - rewrite (Hk st (le_n _)). reflexivity.
Qed.

(** The fuel the matcher gives to a repetition is enough: more fuel does not
    change the result. *)
Lemma repetition_has_fuel_enough :
  forall greedy lo hi r st k fuel,
    length (ms_rest st) < fuel ->
    rmatch U ignorecase (Rep greedy lo hi r) st k
    = rep_loop (rmatch U ignorecase r) greedy fuel lo hi st k.
Proof.
  intros greedy lo hi r st k fuel Hfuel. cbn [rmatch].
  apply rep_loop_fuel; [|lia|assumption].
  intros st0 k1 k2. apply rmatch_local.
Qed.

End Fuel.

(** *** Annotations *)

Lemma config_for_cases :
  forall lang,
    config_for lang
    = Ok (if str_eqb lang lang_en then config_en
          else if str_eqb lang lang_zh_tw then config_zh_tw
          else if str_eqb lang lang_zh_cn then config_zh_cn
          else config_en).
Proof.
  intro lang. unfold config_for.
  change (subscript LANGUAGE_CONFIGS lang_en) with (Ok config_en).
  cbn [bind]. unfold dict_get, LANGUAGE_CONFIGS. cbn [lookup].
  destruct (str_eqb lang lang_en); [reflexivity|].
  destruct (str_eqb lang lang_zh_tw); [reflexivity|].
  destruct (str_eqb lang lang_zh_cn); reflexivity.
Qed.

Lemma existsb_eqb_in :
  forall c s, existsb (N.eqb c) s = true <-> List.In c s.
Proof.
  intros c s. rewrite existsb_exists. split.
  - intros (x & Hx & E). apply N.eqb_eq in E. subst x. assumption.
  - intro H. exists c. split; [assumption | apply N.eqb_refl].
Qed.

Section Erasure.

Variable U : ucd.
Variable ignorecase : bool.
Variable r : regex.

(** [re.sub(r, '', s)] only removes characters. *)
Lemma sub_erase_in :
  forall c s prev skip,
    List.In c (sub_go U ignorecase r (fun _ => []) prev skip s) ->
    List.In c s.
Proof.
  intros c. induction s as [|d s IH]; intros prev skip H; [exact H|].
  cbn [sub_go] in H. destruct skip as [|n].
  - destruct (match_at U ignorecase r prev (d :: s)) as [[[|n] gs]|].
    + destruct H as [<- | H]; [left; reflexivity | right; eauto].
    + right. eauto.
    + destruct H as [<- | H]; [left; reflexivity | right; eauto].
  - right. eauto.
Qed.


End Erasure.

Section Brackets.

Variable U : ucd.





End Brackets.



Lemma removals_only_remove :
  forall U c patterns text,
    List.In c
      (fold_left (fun text pattern => re_sub U true pattern (fun _ => []) text)
                 patterns text) ->
    List.In c text.
Proof.
  intros U c. induction patterns as [|p patterns IH]; intros text H;
    [exact H|].
  cbn [fold_left] in H. apply IH in H. apply sub_erase_in in H. assumption.
Qed.




(** C6: [remove_annotations] removes the bracket annotations, English or
    local and in any case, for every language, and the parenthesis
    annotations of the language itself; but the profiles zh_tw and zh_cn list
    no English parenthesis pattern, so there "(Applause)" stays where the
    claim wants it removed. *)
Theorem english_parenthesis_stays_in_chinese :
  forall U,
    remove_annotations U (py "(Applause)") lang_zh_tw = Ok (py "(Applause)")
    /\ remove_annotations U (py "(Applause)") lang_zh_cn
       = Ok (py "(Applause)")
    /\ remove_annotations U (py "(Applause)") lang_en = Ok []
    /\ remove_annotations U (py "[MUSIC] (applause)") lang_en = Ok (py " ")
    /\ remove_annotations U (py "[Music]") lang_zh_tw = Ok []
    /\ remove_annotations U (py "[Music]") lang_zh_cn = Ok []
    /\ remove_annotations U [40; 0x97f3; 0x6a02; 41]%N lang_zh_tw = Ok []
    /\ remove_annotations U [40; 0x97f3; 0x4e50; 41]%N lang_zh_cn = Ok [].
Proof.
  intro U. repeat split; vm_compute; reflexivity.
Qed.

(** *** No exception *)





Section Totality.

Variable U : ucd.

















End Totality.

(** *** Unknown options *)

Section UnknownLanguage.

Variable U : ucd.
Variable lang : str.
Hypothesis unknown : ~ List.In lang [lang_en; lang_zh_tw; lang_zh_cn].










End UnknownLanguage.





(** C7, as stated, fails for the format a second time: the line on the
    format is printed on every call, and a format that holds a surrogate
    cannot be encoded for the standard output, so the call raises. *)
Lemma unprintable_format_raises :
  ~ (forall U file output_path lang fmt,
       exists o,
         convert_subtitles_to_text U file output_path lang fmt = Ok o).
Proof.
  intro H.
  destruct (H ascii_tables sample_en_vtt None lang_en [0xd800%N]) as (o & E).
  vm_compute in E. discriminate E.
Qed.





(** *** The captions of the pipeline are single lines *)

Lemma split_char_pieces :
  forall sep s piece,
    List.In piece (split_char sep s) -> ~ List.In sep piece.
Proof.
  intros sep. induction s as [|c s IH]; intros piece H; cbn in H.
  - destruct H as [<- | []]. intros [].
  - destruct (N.eqb_spec c sep) as [-> | Hc].
    + destruct H as [<- | H]; [intros [] | apply IH; assumption].
    + destruct (split_char sep s) as [|first rest].
      * destruct H as [<- | []]. intros [E | []]. congruence.
      * destruct H as [<- | H].
        -- intros [E | Hin]; [congruence|].
           apply (IH first); [left; reflexivity | assumption].
        -- apply IH. right. assumption.
Qed.

Lemma lstrip_in : forall c s, List.In c (lstrip s) -> List.In c s.
Proof.
  intros c. induction s as [|d s IH]; intro H; [exact H|].
  cbn [lstrip] in H. destruct (isspace d); [right; auto | exact H].
Qed.

Lemma strip_in : forall c s, List.In c (strip s) -> List.In c s.
Proof.
  intros c s H. unfold strip, rstrip in H.
  apply in_rev, lstrip_in in H. apply in_rev in H.
  apply lstrip_in. assumption.
Qed.

Lemma lines_after_in :
  forall p line lines,
    List.In line (lines_after p lines) -> List.In line lines.
Proof.
  intros p line. induction lines as [|l lines IH]; intro H; [exact H|].
  cbn [lines_after] in H. destruct (p l); right; auto.
Qed.

Lemma join_single_line :
  forall sep parts,
    single_line sep -> Forall single_line parts ->
    single_line (join sep parts).
Proof.
  intros sep parts Hsep. induction 1 as [|p parts Hp Hparts IH].
  - intros [].
  - destruct parts as [|q parts]; [exact Hp|].
    change (join sep (p :: q :: parts))
      with (p ++ sep ++ join sep (q :: parts)).
    intro H. apply in_app_or in H. destruct H as [H | H]; [auto|].
    apply in_app_or in H. destruct H as [H | H]; auto.
Qed.

Section SingleLines.

Variable U : ucd.

Lemma block_lines_single_line :
  forall block, Forall single_line (block_lines block).
Proof.
  intro block. apply Forall_forall. intros line H.
  unfold block_lines in H. apply filter_In in H. destruct H as [H _].
  apply split_char_pieces in H. exact H.
Qed.

Lemma append_caption_single_line :
  forall captions caption_text,
    Forall single_line captions -> Forall single_line caption_text ->
    Forall single_line (append_caption U captions caption_text).
Proof.
  intros captions caption_text Hc Ht. unfold append_caption.
  destruct (truthy caption_text); [|assumption].
  destruct (truthy (strip _)); [|assumption].
  apply Forall_app. split; [assumption|]. constructor; [|constructor].
  intro H. apply strip_in in H. unfold remove_subtitle_formatting in H.
  unfold re_sub in H. apply sub_erase_in, sub_erase_in in H.
  revert H. apply join_single_line; [|assumption].
  vm_compute. intuition discriminate.
Qed.

Lemma vtt_block_single_line :
  forall captions block r,
    Forall single_line captions ->
    vtt_block U captions block = Ok r -> Forall single_line r.
Proof.
  intros captions block r Hc. unfold vtt_block.
  pose proof (block_lines_single_line block) as Hl.
  destruct (block_lines block) as [|line lines];
    cbn [truthy is_empty negb index nth_error bind].
  - intro E. injection E as <-. assumption.
  - destruct (_ || _); intro E; injection E as <-; [assumption|].
    apply append_caption_single_line; [assumption|].
    apply Forall_forall. intros l H.
    assert (Hin : List.In l (line :: lines))
      by (apply (lines_after_in (re_search U false timestamp_re)); exact H).
    rewrite Forall_forall in Hl. auto.
Qed.

Lemma srt_block_single_line :
  forall captions block r,
    Forall single_line captions ->
    srt_block U captions block = Ok r -> Forall single_line r.
Proof.
  intros captions block r Hc. unfold srt_block.
  pose proof (block_lines_single_line block) as Hl.
  assert (Hafter :
    Forall single_line (lines_after (contains arrow) (block_lines block))).
  { apply Forall_forall. intros l H. apply lines_after_in in H.
    rewrite Forall_forall in Hl. auto. }
  destruct (truthy (block_lines block)); cbn [negb];
    [|intro E; injection E as <-; assumption].
  destruct (negb _ && _).
  - destruct (index (block_lines block) 1); cbn [bind]; [|discriminate].
    destruct (contains arrow a); cbn [bind]; intro E; injection E as <-;
      apply append_caption_single_line; try assumption.
    apply Forall_forall. intros l H. unfold slice_from in H.
    rewrite Forall_forall in Hl. apply Hl.
    rewrite <- (firstn_skipn 2 (block_lines block)).
    apply in_or_app. right. exact H.
  - cbn [bind]. intro E. injection E as <-.
    apply append_caption_single_line; assumption.
Qed.

(** Every caption [parse_subtitle_file] returns is a single line. *)
Lemma parsed_captions_are_single_lines :
  forall file fmt captions detected,
    parse_subtitle_file U file fmt = Ok (captions, detected) ->
    Forall single_line captions.
Proof.
  intros file fmt captions detected. unfold parse_subtitle_file.
  set (blocks := re_split U false blank_lines _).
  set (d := detect_format U file _ fmt).
  assert (Hloop :
    forall body,
      (forall acc block r,
          Forall single_line acc -> body acc block = Ok r ->
          Forall single_line r) ->
      forall r, for_each body blocks [] = Ok r -> Forall single_line r).
  { intros body Hbody. generalize (@nil str) (Forall_nil single_line).
    induction blocks as [|b bs IH]; intros acc Hacc r; cbn [for_each].
    - intro E. injection E as <-. assumption.
    - destruct (body acc b) eqn:Eb; cbn [bind]; [|discriminate].
      apply IH. eapply Hbody; eassumption. }
  destruct (str_eqb d fmt_vtt).
  - destruct (for_each (vtt_block U) blocks []) eqn:E; cbn [bind];
      [|discriminate].
    intro H. injection H as <- _.
    eapply Hloop; [|exact E]. apply vtt_block_single_line.
  - destruct (str_eqb d fmt_srt).
    + destruct (for_each (srt_block U) blocks []) eqn:E; cbn [bind];
        [|discriminate].
      intro H. injection H as <- _.
      eapply Hloop; [|exact E]. apply srt_block_single_line.
    + cbn [bind]. intro H. injection H as <- _. constructor.
Qed.

Lemma remove_annotations_single_line :
  forall text lang r,
    single_line text -> remove_annotations U text lang = Ok r ->
    single_line r.
Proof.
  intros text lang r Ht. unfold remove_annotations.
  destruct (config_for lang); cbn [bind]; [|discriminate].
  intro E. injection E as <-. intro H.
  apply removals_only_remove in H. auto.
Qed.

Lemma comprehension_single_line :
  forall lang captions r,
    Forall single_line captions ->
    comprehension (fun c => remove_annotations U c lang) captions = Ok r ->
    Forall single_line r.
Proof.
  intros lang captions r H. revert r.
  induction H as [|c captions Hc Hcs IH]; intros r; cbn [comprehension].
  - intro E. injection E as <-. constructor.
  - destruct (remove_annotations U c lang) eqn:Ec; cbn [bind];
      [|discriminate].
    destruct (comprehension _ captions); cbn [bind]; [|discriminate].
    intro E. injection E as <-. constructor; [|auto].
    eapply remove_annotations_single_line; eassumption.
Qed.

Lemma remove_duplicates_keeps_members :
  forall captions r,
    remove_duplicates U captions = Ok r ->
    forall c, List.In c r -> List.In c captions.
Proof.
  intros [|c0 rest] r.
  - intro E. injection E as <-. auto.
  - rewrite remove_duplicates_cons.
    assert (Hloop :
      forall xs acc r',
        for_each (keep_if_new U) xs acc = Ok r' ->
        forall c, List.In c r' -> List.In c acc \/ List.In c xs).
    { induction xs as [|x xs IH]; intros acc r'; cbn [for_each].
      - intro E. injection E as <-. auto.
      - unfold keep_if_new at 1.
        destruct (index_last acc); cbn [bind]; [|discriminate].
        destruct (negb _); cbn [bind]; intros E c Hc;
          destruct (IH _ _ E c Hc) as [H | H]; cbn; auto.
        apply in_app_or in H. destruct H as [H | [-> | []]]; auto. }
    intros E c Hc. destruct (Hloop _ _ _ E c Hc) as [[<- | []] | H];
      [left; reflexivity | right; assumption].
Qed.

(** The captions that reach [merge_into_paragraphs] in a run of
    [convert_subtitles_to_text] are single lines. *)
Lemma merged_captions_are_single_lines :
  forall file fmt lang captions detected cleaned deduplicated,
    parse_subtitle_file U file fmt = Ok (captions, detected) ->
    comprehension (fun c => remove_annotations U c lang) captions
    = Ok cleaned ->
    remove_duplicates U
      (List.map strip (filter (fun c => truthy (strip c)) cleaned))
    = Ok deduplicated ->
    Forall single_line deduplicated.
Proof.
  intros file fmt lang captions detected cleaned deduplicated Hp Hc Hd.
  apply parsed_captions_are_single_lines in Hp.
  pose proof (comprehension_single_line lang Hp Hc) as Hcleaned.
  apply Forall_forall. intros c H.
  apply (remove_duplicates_keeps_members _ Hd) in H.
  apply in_map_iff in H. destruct H as (x & <- & Hx).
  apply filter_In in Hx. destruct Hx as [Hx _].
  rewrite Forall_forall in Hcleaned. intro Hlf. apply strip_in in Hlf.
  exact (Hcleaned x Hx Hlf).
Qed.

End SingleLines.

(** ** Further properties of the functions *)

(** *** Removals give subsequences *)

Lemma subsequence_refl : forall A (xs : list A), subsequence xs xs.
Proof. induction xs; constructor; assumption. Qed.

Lemma subsequence_trans :
  forall A (ys xs zs : list A),
    subsequence xs ys -> subsequence ys zs -> subsequence xs zs.
Proof.
  intros A ys xs zs Hxy Hyz. revert xs Hxy.
  induction Hyz as [|y ys zs Hyz IH|z ys zs Hyz IH]; intros xs Hxy.
  - assumption.
  - inversion Hxy; subst; constructor; auto.
  - constructor. auto.
Qed.

Lemma subsequence_in :
  forall A (xs ys : list A) x,
    subsequence xs ys -> List.In x xs -> List.In x ys.
Proof.
  intros A xs ys x H. induction H; cbn; intuition.
Qed.

Lemma subsequence_app :
  forall A (xs xs' ys ys' : list A),
    subsequence xs ys -> subsequence xs' ys' ->
    subsequence (xs ++ xs') (ys ++ ys').
Proof.
  intros A xs xs' ys ys' H H'. induction H; cbn; try constructor; auto.
Qed.

Lemma sub_erase_subsequence :
  forall U ignorecase r s prev skip,
    subsequence (sub_go U ignorecase r (fun _ => []) prev skip s) s.
Proof.
  intros U ignorecase r. induction s as [|c s IH]; intros prev skip;
    cbn [sub_go]; [constructor|].
  destruct skip as [|n]; [|constructor; apply IH].
  destruct (match_at U ignorecase r prev (c :: s)) as [[[|n] gs]|];
    cbn [app]; constructor; apply IH.
Qed.

Lemma lstrip_subsequence : forall s, subsequence (lstrip s) s.
Proof.
  induction s as [|c s IH]; cbn [lstrip]; [constructor|].
  destruct (isspace c); [constructor; assumption | apply subsequence_refl].
Qed.

Lemma subsequence_rev :
  forall A (xs ys : list A), subsequence xs ys -> subsequence (rev xs) (rev ys).
Proof.
  intros A xs ys H. induction H; cbn.
  - constructor.
  - apply subsequence_app; [assumption | apply subsequence_refl].
  - rewrite <- (app_nil_r (rev xs)). apply subsequence_app; [assumption|].
    constructor. constructor.
Qed.

Lemma strip_subsequence : forall s, subsequence (strip s) s.
Proof.
  intro s. unfold strip, rstrip.
  apply subsequence_trans with (ys := lstrip s); [|apply lstrip_subsequence].
  rewrite <- (rev_involutive (lstrip s)) at 2.
  apply subsequence_rev, lstrip_subsequence.
Qed.

(** *** Tags *)

Section Tags.

Variable U : ucd.
Variable ignorecase : bool.

(** A greedy loop over one character class gets through a run of the class,
    whatever follows, when the rest of the pattern matches behind the run. *)
Lemma greedy_run_reaches :
  forall body p k c b,
    (forall st k', body st k' = eat p st k') ->
    (forall st, ms_rest st = c :: b -> k st <> None) ->
    forall a fuel lo st,
      length a < fuel ->
      lo <= length a ->
      ms_rest st = a ++ c :: b ->
      forallb p a = true ->
      rep_loop body true fuel lo None st k <> None.
Proof.
  intros body p k c b Hbody Hk.
  induction a as [|x a IH]; intros fuel lo st Hfuel Hlo Hrest Ha;
    (destruct fuel as [|fuel]; [lia|]); cbn [rep_loop].
  - cbn [length] in Hlo. assert (lo = 0) by lia. subst lo.
    unfold orelse. destruct (body st _); [discriminate|]. apply Hk. exact Hrest.
  - cbn [forallb] in Ha. apply andb_true_iff in Ha. destruct Ha as [Hx Ha].
    assert (Hagain :
      body st (fun st' =>
        if progressed st st'
        then rep_loop body true fuel (pred lo) (option_map pred None) st' k
        else None) <> None).
    { rewrite Hbody. unfold eat. rewrite Hrest. cbn [app]. rewrite Hx.
      match goal with
      | |- (if ?q then _ else _) <> None => assert (Eq : q = true)
      end.
      { unfold progressed. rewrite Hrest. cbn [ms_rest app length].
        apply Nat.ltb_lt. lia. }
      rewrite Eq. apply IH; cbn [ms_rest option_map length] in *;
        [lia | lia | reflexivity | assumption]. }
    destruct lo as [|lo]; [|exact Hagain].
    unfold orelse. destruct (body st _); [discriminate | contradiction].
Qed.

(** A greedy loop that owes nothing may leave at once. *)
Lemma greedy_loop_may_leave :
  forall body fuel hi st k,
    k st <> None -> rep_loop body true (S fuel) 0 hi st k <> None.
Proof.
  intros body fuel hi st k Hk. cbn [rep_loop]. unfold orelse.
  destruct (match hi with Some 0 => None | _ => _ end);
    [discriminate | exact Hk].
Qed.

End Tags.

Lemma in_split_first :
  forall (x : char) s,
    List.In x s -> exists a b, s = a ++ x :: b /\ ~ List.In x a.
Proof.
  intros x. induction s as [|c s IH]; intro H; [destruct H|].
  destruct (N.eqb_spec c x) as [-> | Hc].
  - exists [], s. split; [reflexivity | intros []].
  - destruct H as [E | H]; [contradiction|].
    destruct (IH H) as (a & b & -> & Ha). exists (c :: a), b.
    split; [reflexivity|]. intros [E | Hin]; [contradiction | auto].
Qed.

Section TagRemoval.

Variable U : ucd.

(** [</?[^>]+>] matches at every '<' that a '>' follows with at least one
    other character between them. *)
Lemma any_tag_matches :
  forall prev a b,
    a <> [] -> ~ List.In 62%N a ->
    exists n gs,
      match_at U false any_tag prev (60%N :: a ++ 62%N :: b) = Some (S n, gs).
Proof.
  intros prev a b Hne Ha.
  destruct (match_at U false any_tag prev (60%N :: a ++ 62%N :: b))
    as [[n gs]|] eqn:E.
  - pose proof (match_at_literal_first _ _ _ _ _ _ E) as Hn.
    destruct n as [|n]; [lia|]. exists n, gs. reflexivity.
  - exfalso. revert E. unfold match_at, any_tag.
    cbn [cats fold_right rmatch]. unfold eat at 1. cbn [ms_rest].
    change (lit_matches U false 60%N 60%N) with true. cbv iota.
    match goal with
    | |- match ?m with _ => _ end = None -> False =>
        assert (Hm : m <> None); [|destruct m; [discriminate | contradiction]]
    end.
    unfold opt. apply greedy_loop_may_leave. unfold plus. cbn [rmatch].
    apply greedy_run_reaches
      with (p := fun x => negb (in_set U [CChar 62] x)) (c := 62%N) (b := b)
           (a := a).
    + reflexivity.
    + intros st Hst. unfold eat. rewrite Hst.
      change (lit_matches U false 62%N 62%N) with true. discriminate.
    + simpl ms_rest. rewrite length_app. unfold char. lia.
    + destruct a; [contradiction | cbn [length]; lia].
    + reflexivity.
    + apply forallb_forall. intros x Hx. unfold in_set.
      cbn [existsb item_matches].
      rewrite orb_false_r. apply negb_true_iff, N.eqb_neq.
      intro E. apply Ha. rewrite E. exact Hx.
Qed.

Lemma any_tag_not_at_close :
  forall prev s, match_at U false any_tag prev (62%N :: s) = None.
Proof. reflexivity. Qed.

(** After the removal of [</?[^>]+>] no tag is left. *)
Lemma any_tag_sub_leaves_none :
  forall s prev skip,
    has_tag (sub_go U false any_tag (fun _ => []) prev skip s) = false.
Proof.
  induction s as [|d s IH]; intros prev skip; [reflexivity|].
  cbn [sub_go]. destruct skip as [|n]; [|apply IH].
  destruct (match_at U false any_tag prev (d :: s)) as [[[|n] gs]|] eqn:E.
  - apply match_at_literal_first in E. lia.
  - apply IH.
  - cbn [has_tag]. rewrite IH, orb_false_r.
    destruct (N.eqb_spec d 60) as [-> | Hd]; [|reflexivity]. cbn [andb].
    destruct s as [|e s]; [reflexivity|].
    destruct (N.eqb_spec e 62) as [-> | He].
    + cbn [sub_go]. rewrite any_tag_not_at_close. cbn [negb N.eqb andb].
      reflexivity.
    + match goal with
      | |- match ?o with _ => _ end = false =>
          destruct o as [|x out] eqn:Eout; [reflexivity|]
      end.
      destruct (negb (N.eqb x 62) && existsb (N.eqb 62) out) eqn:Ex;
        [|reflexivity].
      apply andb_true_iff in Ex. destruct Ex as [_ Ex].
      assert (Hin : List.In 62%N (x :: out))
        by (right; apply existsb_eqb_in; exact Ex).
      rewrite <- Eout in Hin. apply sub_erase_in in Hin.
      apply in_split_first in Hin. destruct Hin as (a & b & Es & Ha).
      destruct (@any_tag_matches prev a b) as (n & gs & Em).
      * destruct a; [cbn in Es; congruence | discriminate].
      * assumption.
      * rewrite Es in E.
        pose proof (eq_trans (eq_sym Em) E) as X. discriminate X.
Qed.

End TagRemoval.

Lemma remove_subtitle_formatting_no_tag :
  forall U text, has_tag (remove_subtitle_formatting U text) = false.
Proof.
  intros U text. unfold remove_subtitle_formatting, re_sub.
  apply any_tag_sub_leaves_none.
Qed.

Lemma remove_subtitle_formatting_subsequence :
  forall U text, subsequence (remove_subtitle_formatting U text) text.
Proof.
  intros U text. unfold remove_subtitle_formatting, re_sub.
  eapply subsequence_trans; apply sub_erase_subsequence.
Qed.

(** [remove_subtitle_formatting] only removes characters, and no tag is
    left in its result: behind no '<' stand a character other than '>' and,
    later, a '>'. *)
Theorem remove_subtitle_formatting_leaves_no_tag :
  forall U text,
    has_tag (remove_subtitle_formatting U text) = false
    /\ subsequence (remove_subtitle_formatting U text) text.
Proof.
  intros U text. split.
  - apply remove_subtitle_formatting_no_tag.
  - apply remove_subtitle_formatting_subsequence.
Qed.

(** *** Stripped texts *)

Lemma lstrip_head :
  forall s c, hd_error (lstrip s) = Some c -> isspace c = false.
Proof.
  induction s as [|d s IH]; intros c H; [discriminate|].
  cbn [lstrip] in H. destruct (isspace d) eqn:E; [auto|].
  cbn in H. congruence.
Qed.

Lemma lstrip_id :
  forall s,
    (forall c, hd_error s = Some c -> isspace c = false) -> lstrip s = s.
Proof.
  intros [|d s] H; [reflexivity|]. cbn [lstrip].
  rewrite (H d eq_refl). reflexivity.
Qed.

Lemma lstrip_suffix : forall s, exists w, s = w ++ lstrip s.
Proof.
  induction s as [|d s (w & IH)]; [exists []; reflexivity|].
  cbn [lstrip]. destruct (isspace d).
  - exists (d :: w). cbn. congruence.
  - exists []. reflexivity.
Qed.

Lemma rstrip_prefix : forall s, exists w, s = rstrip s ++ w.
Proof.
  intro s. unfold rstrip. destruct (lstrip_suffix (rev s)) as (w & E).
  exists (rev w). rewrite <- rev_app_distr, <- E, rev_involutive. reflexivity.
Qed.

Lemma strip_clean_ends : forall s, clean_ends (strip s).
Proof.
  intros s c [H | H].
  - unfold strip in H. destruct (rstrip_prefix (lstrip s)) as (w & E).
    apply (lstrip_head s). rewrite E.
    destruct (rstrip (lstrip s)); [discriminate | exact H].
  - unfold strip, rstrip in H. rewrite rev_involutive in H.
    eapply lstrip_head. exact H.
Qed.

Lemma clean_ends_strip : forall s, clean_ends s -> strip s = s.
Proof.
  intros s H. unfold strip, rstrip.
  rewrite (lstrip_id s) by (intros c Hc; apply H; left; exact Hc).
  rewrite (lstrip_id (rev s)) by (intros c Hc; apply H; right; exact Hc).
  apply rev_involutive.
Qed.

Lemma strip_idempotent : forall s, strip (strip s) = strip s.
Proof. intro s. apply clean_ends_strip, strip_clean_ends. Qed.

Lemma strip_fixed_clean_ends : forall s, strip s = s -> clean_ends s.
Proof. intros s E. rewrite <- E. apply strip_clean_ends. Qed.

Lemma truthy_nonempty : forall A (xs : list A), truthy xs = true -> xs <> [].
Proof. intros A [|x xs] H; [discriminate H | discriminate]. Qed.

Lemma has_tag_suffix :
  forall a b, has_tag (a ++ b) = false -> has_tag b = false.
Proof.
  induction a as [|x a IH]; intros b H; [exact H|].
  cbn [app has_tag] in H. apply orb_false_iff in H. apply IH, H.
Qed.

Lemma has_tag_prefix :
  forall a b, has_tag (a ++ b) = false -> has_tag a = false.
Proof.
  induction a as [|x a IH]; intros b H; [reflexivity|].
  cbn [app has_tag] in H. apply orb_false_iff in H. destruct H as [Hx Ha].
  cbn [has_tag]. rewrite (IH b Ha), orb_false_r.
  destruct (N.eqb x 60); [|reflexivity]. cbn [andb] in *.
  destruct a as [|d a]; [reflexivity|]. cbn [app] in Hx.
  destruct (negb (N.eqb d 62)); [|reflexivity]. cbn [andb] in *.
  rewrite existsb_app in Hx. apply orb_false_iff in Hx. apply Hx.
Qed.

Lemma has_tag_strip :
  forall s, has_tag s = false -> has_tag (strip s) = false.
Proof.
  intros s H. unfold strip.
  destruct (lstrip_suffix s) as (w1 & E1).
  destruct (rstrip_prefix (lstrip s)) as (w2 & E2).
  apply has_tag_prefix with (b := w2). rewrite <- E2.
  apply has_tag_suffix with (a := w1). rewrite <- E1. exact H.
Qed.

(** *** What the parser returns *)

Section ParsedCaptions.

Variable U : ucd.
Variable P : str -> Prop.

(** [P] holds of every text the parser can append as a caption. *)
Hypothesis P_appended :
  forall caption_text,
    Forall single_line caption_text ->
    let text := remove_subtitle_formatting U (join (py " ") caption_text) in
    strip text <> [] -> P (strip text).

Lemma append_caption_forall :
  forall captions caption_text,
    Forall P captions -> Forall single_line caption_text ->
    Forall P (append_caption U captions caption_text).
Proof.
  intros captions caption_text Hc Ht. unfold append_caption.
  destruct (truthy caption_text); [|assumption].
  destruct (truthy (strip _)) eqn:E; [|assumption].
  apply Forall_app. split; [assumption|]. constructor; [|constructor].
  apply P_appended; [assumption|]. apply truthy_nonempty. exact E.
Qed.

Lemma vtt_block_forall :
  forall captions block r,
    Forall P captions -> vtt_block U captions block = Ok r -> Forall P r.
Proof.
  intros captions block r Hc. unfold vtt_block.
  pose proof (block_lines_single_line block) as Hl.
  destruct (block_lines block) as [|line lines];
    cbn [truthy is_empty negb index nth_error bind].
  - intro E. injection E as <-. assumption.
  - destruct (_ || _); intro E; injection E as <-; [assumption|].
    apply append_caption_forall; [assumption|].
    apply Forall_forall. intros l H.
    assert (Hin : List.In l (line :: lines))
      by (apply (lines_after_in (re_search U false timestamp_re)); exact H).
    rewrite Forall_forall in Hl. auto.
Qed.

Lemma srt_block_forall :
  forall captions block r,
    Forall P captions -> srt_block U captions block = Ok r -> Forall P r.
Proof.
  intros captions block r Hc. unfold srt_block.
  pose proof (block_lines_single_line block) as Hl.
  assert (Hafter :
    Forall single_line (lines_after (contains arrow) (block_lines block))).
  { apply Forall_forall. intros l H. apply lines_after_in in H.
    rewrite Forall_forall in Hl. auto. }
  destruct (truthy (block_lines block)); cbn [negb];
    [|intro E; injection E as <-; assumption].
  destruct (negb _ && _).
  - destruct (index (block_lines block) 1); cbn [bind]; [|discriminate].
    destruct (contains arrow a); cbn [bind]; intro E; injection E as <-;
      apply append_caption_forall; try assumption.
    apply Forall_forall. intros l H. unfold slice_from in H.
    rewrite Forall_forall in Hl. apply Hl.
    rewrite <- (firstn_skipn 2 (block_lines block)).
    apply in_or_app. right. exact H.
  - cbn [bind]. intro E. injection E as <-.
    apply append_caption_forall; assumption.
Qed.

Lemma for_each_forall :
  forall (body : list str -> str -> result (list str)),
    (forall acc block r,
        Forall P acc -> body acc block = Ok r -> Forall P r) ->
    forall blocks acc r,
      Forall P acc -> for_each body blocks acc = Ok r -> Forall P r.
Proof.
  intros body Hbody. induction blocks as [|b bs IH]; intros acc r Hacc;
    cbn [for_each].
  - intro E. injection E as <-. assumption.
  - destruct (body acc b) eqn:Eb; cbn [bind]; [|discriminate].
    apply IH. eapply Hbody; eassumption.
Qed.

Lemma parsed_captions_forall :
  forall file fmt captions detected,
    parse_subtitle_file U file fmt = Ok (captions, detected) ->
    Forall P captions.
Proof.
  intros file fmt captions detected. unfold parse_subtitle_file.
  set (blocks := re_split U false blank_lines _).
  set (d := detect_format U file _ fmt).
  destruct (str_eqb d fmt_vtt).
  - destruct (for_each (vtt_block U) blocks []) eqn:E; cbn [bind];
      [|discriminate].
    intro H. injection H as <- _.
    eapply for_each_forall; [apply vtt_block_forall | constructor | exact E].
  - destruct (str_eqb d fmt_srt).
    + destruct (for_each (srt_block U) blocks []) eqn:E; cbn [bind];
        [|discriminate].
      intro H. injection H as <- _.
      eapply for_each_forall; [apply srt_block_forall | constructor | exact E].
    + cbn [bind]. intro H. injection H as <- _. constructor.
Qed.

End ParsedCaptions.

(** Every caption [parse_subtitle_file] returns, for whatever file and
    format, is non-empty, has no white space at its ends, is a single line
    and holds no tag. *)
Theorem parsed_captions_are_well_formed :
  forall U file fmt captions detected,
    parse_subtitle_file U file fmt = Ok (captions, detected) ->
    Forall well_formed_caption captions.
Proof.
  intros U file fmt captions detected H.
  eapply parsed_captions_forall; [|exact H].
  intros caption_text Hlines text Hne. unfold well_formed_caption.
  split; [assumption|]. split; [apply strip_idempotent|]. split.
  - intro Hlf. apply strip_in in Hlf. unfold text in Hlf.
    apply (@subsequence_in _ _ _ _
             (remove_subtitle_formatting_subsequence U _)) in Hlf.
    revert Hlf. apply join_single_line; [|assumption].
    vm_compute. intuition discriminate.
  - apply has_tag_strip, remove_subtitle_formatting_no_tag.
Qed.

Lemma parsed_captions_are_well_formed_example :
  Forall well_formed_caption
    [py "Hello and welcome to this tutorial.";
     py "Today we're going to learn about video text tracks."].
Proof.
  apply (parsed_captions_are_well_formed ascii_tables sample_en_vtt fmt_auto
           (detected := fmt_vtt)).
  vm_compute. reflexivity.
Defined.

(** *** Deduplication, again *)

Section DeduplicationAgain.

Variable U : ucd.

Lemma no_adjacent_repeat_middle :
  forall xs k x rest,
    no_adjacent_repeat U (xs ++ k :: x :: rest) -> lower U k <> lower U x.
Proof.
  induction xs as [|y xs IH]; intros k x rest H.
  - cbn in H. tauto.
  - destruct xs as [|z xs]; cbn in H; destruct H as [_ H].
    + apply (IH k x rest). exact H.
    + apply (IH k x rest). exact H.
Qed.

Lemma dedup_loop_fixed :
  forall rest xs k,
    no_adjacent_repeat U ((xs ++ [k]) ++ rest) ->
    for_each (keep_if_new U) rest (xs ++ [k]) = Ok ((xs ++ [k]) ++ rest).
Proof.
  induction rest as [|x rest IH]; intros xs k H; cbn [for_each].
  - rewrite app_nil_r. reflexivity.
  - rewrite keep_if_new_snoc.
    assert (E : str_eqb (lower U x) (lower U k) = false).
    { apply str_eqb_neq. intro E.
      rewrite <- app_assoc in H. cbn [app] in H.
      apply no_adjacent_repeat_middle in H. congruence. }
    rewrite E. cbn [bind].
    replace ((xs ++ [k]) ++ x :: rest) with (((xs ++ [k]) ++ [x]) ++ rest)
      by (rewrite <- !app_assoc; reflexivity).
    apply IH. rewrite <- !app_assoc in *. exact H.
Qed.

Lemma remove_duplicates_fixed :
  forall captions,
    no_adjacent_repeat U captions -> remove_duplicates U captions = Ok captions.
Proof.
  intros [|c rest] H; [reflexivity|].
  rewrite remove_duplicates_cons. apply (dedup_loop_fixed rest [] c). exact H.
Qed.

Lemma dedup_loop_subsequence :
  forall rest acc r,
    for_each (keep_if_new U) rest acc = Ok r -> subsequence r (acc ++ rest).
Proof.
  induction rest as [|x rest IH]; intros acc r; cbn [for_each].
  - intro E. injection E as <-. rewrite app_nil_r. apply subsequence_refl.
  - unfold keep_if_new at 1.
    destruct (index_last acc); cbn [bind]; [|discriminate].
    destruct (negb _); cbn [bind]; intro E; apply IH in E.
    + rewrite <- app_assoc in E. exact E.
    + eapply subsequence_trans; [exact E|].
      apply subsequence_app; [apply subsequence_refl|].
      constructor. apply subsequence_refl.
Qed.

Lemma remove_duplicates_subsequence :
  forall captions r,
    remove_duplicates U captions = Ok r -> subsequence r captions.
Proof.
  intros [|c rest] r.
  - intro E. injection E as <-. constructor.
  - rewrite remove_duplicates_cons. intro E.
    apply dedup_loop_subsequence in E. exact E.
Qed.

End DeduplicationAgain.

(** [remove_duplicates] returns a subsequence of its input that begins with
    the first caption; it leaves a list without adjacent repeats as it is, so
    a second pass changes nothing. *)
Theorem remove_duplicates_is_idempotent :
  forall U captions cleaned,
    remove_duplicates U captions = Ok cleaned ->
    subsequence cleaned captions
    /\ hd_error cleaned = hd_error captions
    /\ remove_duplicates U cleaned = Ok cleaned.
Proof.
  intros U captions cleaned H. split; [|split].
  - apply remove_duplicates_subsequence with (U := U). exact H.
  - destruct captions as [|c rest].
    + injection H as <-. reflexivity.
    + rewrite remove_duplicates_cons in H.
      pose proof (dedup_loop_subsequence U rest [c] H) as Hsub.
      destruct (dedup_loop U rest [] c I) as (xs & k & E & _).
      cbn [app] in E. rewrite E in H. injection H as <-.
      assert (Hhead :
        forall rest0 acc r,
          for_each (keep_if_new U) rest0 acc = Ok r ->
          acc <> [] -> hd_error r = hd_error acc).
      { induction rest0 as [|x rest0 IH]; intros acc r; cbn [for_each].
        - intro E0. injection E0 as <-. reflexivity.
        - unfold keep_if_new at 1.
          destruct (index_last acc); cbn [bind]; [|discriminate].
          destruct (negb _); cbn [bind]; intros E0 Hacc.
          + rewrite (IH _ _ E0) by (destruct acc; discriminate).
            destruct acc; [contradiction | reflexivity].
          + apply IH; assumption. }
      apply (Hhead rest [c]); [exact E | discriminate].
  - destruct captions as [|c rest].
    + injection H as <-. reflexivity.
    + destruct (remove_duplicates_nonempty U c rest) as (xs & k & E & Hno).
      rewrite E in H. injection H as <-.
      apply remove_duplicates_fixed. exact Hno.
Qed.

Lemma remove_duplicates_is_idempotent_example :
  subsequence [py "Hi"; py "there"] [py "Hi"; py "HI"; py "there"]
  /\ hd_error [py "Hi"; py "there"] = hd_error [py "Hi"; py "HI"; py "there"]
  /\ remove_duplicates ascii_tables [py "Hi"; py "there"]
     = Ok [py "Hi"; py "there"].
Proof.
  apply (remove_duplicates_is_idempotent ascii_tables
           [py "Hi"; py "HI"; py "there"]).
  vm_compute. reflexivity.
Defined.

(** *** Sentence ends *)

Section SentenceEnd.

Variable U : ucd.
Variable ignorecase : bool.

Lemma in_set_chars :
  forall marks c, in_set U (chars marks) c = true <-> List.In c marks.
Proof.
  intros marks c. unfold in_set, chars. rewrite existsb_exists. split.
  - intros (i & Hi & E). apply in_map_iff in Hi. destruct Hi as (x & <- & Hx).
    cbn in E. apply N.eqb_eq in E. subst x. exact Hx.
  - intro H. exists (CChar c). split; [apply in_map; exact H|].
    cbn. apply N.eqb_refl.
Qed.

(** [[\s]*$] matches from a position exactly when only white space is
    left. *)
Lemma spaces_then_end :
  forall s fuel st,
    ms_rest st = s ->
    length s < fuel ->
    is_some
      (rep_loop (rmatch U ignorecase (OneOf [CSpace])) true fuel 0 None st
         (fun st' => rmatch U ignorecase (Cat Eos Eps) st'
                       (fun st'' => Some st'')))
    = forallb isspace s.
Proof.
  induction s as [|c s IH]; intros fuel st Hrest Hfuel;
    (destruct fuel as [|fuel]; [cbn in Hfuel; lia|]);
    cbn [rep_loop rmatch]; unfold orelse, eat, at_eos; rewrite Hrest.
  - reflexivity.
  - unfold in_set. cbn [existsb item_matches forallb]. rewrite orb_false_r.
    destruct (isspace c) eqn:Ec; cbn [andb].
    + match goal with
      | |- context [progressed st ?st1] =>
          assert (Ep : progressed st st1 = true)
            by (unfold progressed; rewrite Hrest; cbn [ms_rest length];
                apply Nat.ltb_lt; lia);
          rewrite Ep;
          specialize (IH fuel st1 eq_refl)
      end.
      cbn [length] in Hfuel. specialize (IH ltac:(lia)).
      cbn [option_map pred rmatch] in *. unfold at_eos in IH.
      match goal with
      | H : is_some ?o = _ |- context [match ?o' with _ => _ end] =>
          change o' with o; destruct o
      end.
      * exact IH.
      * rewrite <- IH. destruct s as [|d s]; [|reflexivity].
        cbn in IH. discriminate IH.
    + destruct s as [|d s]; [|reflexivity].
      destruct (N.eqb_spec c LF) as [-> | Hc]; [|reflexivity].
      discriminate Ec.
Qed.

Lemma sentence_end_at :
  forall marks prev c s,
    is_some
      (match_at U ignorecase
         (cats [OneOf (chars marks); star (OneOf [CSpace]); Eos])
         prev (c :: s))
    = in_set U (chars marks) c && forallb isspace s.
Proof.
  intros marks prev c s. unfold match_at. cbn [cats fold_right].
  cbn [rmatch]. unfold eat at 1. cbn [ms_rest].
  destruct (in_set U (chars marks) c); [|reflexivity]. cbn [andb].
  rewrite <- (@spaces_then_end s (S (length s))
                {| ms_prev := Some c; ms_rest := s; ms_groups := [] |}
                eq_refl (Nat.lt_succ_diag_r _)).
  cbn [ms_rest rmatch star].
  match goal with
  | |- is_some (match ?o with _ => _ end) = is_some ?o' =>
      change o' with o; destruct o; reflexivity
  end.
Qed.

Lemma sentence_end_search :
  forall marks cap prev,
    search_from U ignorecase
      (cats [OneOf (chars marks); star (OneOf [CSpace]); Eos]) prev cap = true
    <-> ends_with_mark marks cap.
Proof.
  intros marks. induction cap as [|c cap IH]; intro prev.
  - cbn. split; [discriminate|].
    intros (a & c & w & E & _). destruct a; discriminate E.
  - cbn [search_from].
    pose proof (sentence_end_at marks prev c cap) as Hat.
    destruct (match_at _ _ _ prev (c :: cap)); cbn [is_some] in Hat.
    + symmetry in Hat. apply andb_true_iff in Hat. destruct Hat as [Hc Hw].
      split; [|reflexivity]. intros _. exists [], c, cap.
      split; [reflexivity|]. split; [apply in_set_chars; exact Hc | exact Hw].
    + rewrite IH. split.
      * intros (a & x & w & -> & Hx & Hw). exists (c :: a), x, w. auto.
      * intros (a & x & w & E & Hx & Hw). destruct a as [|y a].
        -- cbn in E. injection E as <- <-.
           apply in_set_chars in Hx. rewrite Hx, Hw in Hat. discriminate Hat.
        -- cbn in E. injection E as <- ->. exists a, x, w. auto.
Qed.

End SentenceEnd.

(** A caption matches the sentence-end pattern of a profile exactly when
    its last character that is not white space is a full stop, an
    exclamation mark or a question mark: the ASCII ones for en, the
    full-width ones for zh_tw and zh_cn. *)
Theorem sentence_end_is_the_last_mark :
  forall U cap,
    (re_search U false (cfg_sentence_end config_en) cap = true
     <-> ends_with_mark (py ".!?") cap)
    /\ (re_search U false (cfg_sentence_end config_zh_tw) cap = true
        <-> ends_with_mark [0x3002; 0xff01; 0xff1f]%N cap)
    /\ (re_search U false (cfg_sentence_end config_zh_cn) cap = true
        <-> ends_with_mark [0x3002; 0xff01; 0xff1f]%N cap).
Proof.
  intros U cap. repeat split; intro H;
    try (apply (sentence_end_search U false) with (prev := None); exact H);
    apply (sentence_end_search U false) with (prev := None) in H; exact H.
Qed.

(** *** Where paragraphs end *)

Section Boundaries.

Variable U : ucd.
Variable sentence_end : regex.

Lemma merge_loop_boundaries :
  forall captions paragraphs current,
    Forall (fun c => re_search U false sentence_end c = false) current ->
    exists groups current',
      merge_loop U sentence_end captions paragraphs current
      = (paragraphs ++ List.map (join [LF]) groups, current')
      /\ concat groups ++ current' = current ++ captions
      /\ Forall (closed_group (re_search U false sentence_end)) groups
      /\ Forall (fun c => re_search U false sentence_end c = false) current'.
Proof.
  induction captions as [|cap rest IH]; intros paragraphs current Hcur;
    cbn [merge_loop].
  - exists [], current. cbn. rewrite !app_nil_r. auto.
  - destruct (re_search U false sentence_end cap) eqn:Ecap.
    + destruct (IH (paragraphs ++ [join [LF] (current ++ [cap])]) []
                  (Forall_nil _))
        as (groups & current' & E & Hcat & Hclosed & Hopen).
      exists ((current ++ [cap]) :: groups), current'.
      split; [|split; [|split]].
      * rewrite E. cbn. rewrite <- app_assoc. reflexivity.
      * cbn. rewrite <- !app_assoc. cbn in Hcat. rewrite Hcat. reflexivity.
      * constructor; [|assumption]. exists current, cap. auto.
      * assumption.
    + destruct (IH paragraphs (current ++ [cap]))
        as (groups & current' & E & Hcat & Hclosed & Hopen).
      * apply Forall_app. split; [assumption|]. constructor; [assumption|].
        constructor.
      * exists groups, current'. split; [assumption|].
        split; [|split; assumption]. rewrite Hcat, <- app_assoc. reflexivity.
Qed.

End Boundaries.

(** [merge_into_paragraphs] closes a paragraph at every caption that matches
    the sentence-end pattern of the profile, and nowhere else: each paragraph
    but the last is a run of captions of which the last one matches and no
    other does; the captions left behind the last match, if any, make the
    last paragraph. *)
Theorem paragraphs_end_at_sentence_ends :
  forall U captions lang config,
    config_for lang = Ok config ->
    exists closed rest,
      merge_into_paragraphs U captions lang
      = Ok (List.map (join [LF]) closed
            ++ (if truthy rest then [join [LF] rest] else []))
      /\ concat closed ++ rest = captions
      /\ Forall (closed_group (re_search U false (cfg_sentence_end config)))
           closed
      /\ Forall (fun c => re_search U false (cfg_sentence_end config) c = false)
           rest.
Proof.
  intros U captions lang config Hconfig. unfold merge_into_paragraphs.
  destruct captions as [|c captions]; cbn [truthy is_empty negb].
  - exists [], []. cbn. auto.
  - rewrite Hconfig. cbn [bind].
    destruct (@merge_loop_boundaries U (cfg_sentence_end config)
                (c :: captions) [] [] (Forall_nil _))
      as (groups & current & -> & Hcat & Hclosed & Hopen).
    cbn [app] in *. exists groups, current.
    split; [|auto]. destruct current; cbn [truthy is_empty negb];
      rewrite ?app_nil_r; reflexivity.
Qed.

Lemma paragraphs_end_at_sentence_ends_example :
  exists closed rest,
    merge_into_paragraphs ascii_tables
      [py "One."; py "two"; py "three!"; py "end"] lang_en
    = Ok (List.map (join [LF]) closed
          ++ (if truthy rest then [join [LF] rest] else []))
    /\ concat closed ++ rest = [py "One."; py "two"; py "three!"; py "end"]
    /\ Forall (closed_group
                 (re_search ascii_tables false (cfg_sentence_end config_en)))
         closed
    /\ Forall (fun c => re_search ascii_tables false
                          (cfg_sentence_end config_en) c = false) rest.
Proof.
  apply (@paragraphs_end_at_sentence_ends ascii_tables
           [py "One."; py "two"; py "three!"; py "end"] lang_en config_en).
  reflexivity.
Defined.

(** *** What a conversion writes and returns *)

Lemma written_app :
  forall es es', written (es ++ es') = written es ++ written es'.
Proof. intros. unfold written. apply flat_map_app. Qed.

Lemma print_writes_nothing :
  forall log line log',
    print log line = Ok log' -> written log' = written log.
Proof.
  intros log line log'. unfold print.
  destruct (existsb is_surrogate line); [discriminate|].
  intro E. injection E as <-. rewrite written_app. cbn. apply app_nil_r.
Qed.

Lemma chosen_language_writes_nothing :
  forall U lang captions lang' log,
    (if str_eqb lang lang_auto then
       log <- print [] (0x1F310%N :: py " Detected language: "
                        ++ detect_language U
                             (join (py " ") (firstn 10 captions))) ;;
       Ok (detect_language U (join (py " ") (firstn 10 captions)), log)
     else Ok (lang, []))
    = Ok (lang', log) ->
    written log = [].
Proof.
  intros U lang captions lang' log. destruct (str_eqb lang lang_auto).
  - destruct (print [] _) as [l|e] eqn:Ep; cbn [bind]; [|discriminate].
    intro E. injection E as _ <-. apply print_writes_nothing in Ep. exact Ep.
  - intro E. injection E as _ <-. reflexivity.
Qed.

(** A run writes one file, the output path, when that is given and not empty,
    and what it writes there is the text it returns; otherwise it writes
    nothing. *)
Theorem conversion_writes_what_it_returns :
  forall U file output_path lang fmt o,
    convert_subtitles_to_text U file output_path lang fmt = Ok o ->
    written (effects o)
    = match output_path with
      | Some path => if truthy path then [(path, returned o)] else []
      | None => []
      end.
Proof.
  intros U file output_path lang fmt o. unfold convert_subtitles_to_text.
  destruct (parse_subtitle_file U file fmt) as [[captions detected]|e];
    cbn [bind]; [|discriminate].
  set (chosen := if str_eqb lang lang_auto then _ else _).
  destruct chosen as [[lang' log]|e] eqn:Ec; cbn [bind]; [|discriminate].
  subst chosen. apply chosen_language_writes_nothing in Ec.
  destruct (print log _) as [log'|e] eqn:Ep; cbn [bind]; [|discriminate].
  apply print_writes_nothing in Ep. rewrite Ec in Ep.
  repeat (step_bind; [|discriminate]).
  intro E; injection E as <-; cbn [effects returned];
    destruct output_path as [path|]; try destruct (truthy path);
    rewrite ?written_app, ?Ep; reflexivity.
Qed.

Lemma conversion_writes_what_it_returns_example :
  exists o,
    convert_subtitles_to_text ascii_tables sample_en_vtt (Some (py "out.txt"))
      lang_auto fmt_auto = Ok o
    /\ written (effects o) = [(py "out.txt", returned o)].
Proof.
  eexists. split; [vm_compute; reflexivity|].
  apply (@conversion_writes_what_it_returns ascii_tables sample_en_vtt
           (Some (py "out.txt")) lang_auto fmt_auto).
  vm_compute. reflexivity.
Defined.

Lemma join_nonempty :
  forall sep p ps, p <> [] -> join sep (p :: ps) <> [].
Proof.
  intros sep p ps Hp. destruct ps; cbn [join]; [exact Hp|].
  destruct p; [contradiction | discriminate].
Qed.

Lemma hd_error_app :
  forall A (xs ys : list A), xs <> [] -> hd_error (xs ++ ys) = hd_error xs.
Proof. intros A [|x xs] ys H; [contradiction | reflexivity]. Qed.

Lemma rev_nonempty : forall A (xs : list A), xs <> [] -> rev xs <> [].
Proof.
  intros A xs H E. apply H. rewrite <- (rev_involutive xs), E. reflexivity.
Qed.

(** Pieces with clean ends, joined, have clean ends. *)
Lemma join_clean_ends :
  forall sep ps,
    Forall (fun p => p <> [] /\ clean_ends p) ps -> clean_ends (join sep ps).
Proof.
  intros sep ps H. induction H as [|p ps [Hne Hp] Hps IH].
  - intros c [E | E]; discriminate E.
  - destruct ps as [|q ps]; [exact Hp|].
    change (join sep (p :: q :: ps)) with (p ++ sep ++ join sep (q :: ps)).
    assert (Hq : join sep (q :: ps) <> []).
    { apply join_nonempty. inversion Hps as [|? ? [Hq _] _]. exact Hq. }
    intros c [E | E].
    + rewrite hd_error_app in E by exact Hne. apply Hp. left. exact E.
    + rewrite !rev_app_distr, <- app_assoc in E.
      rewrite hd_error_app in E by (apply rev_nonempty; exact Hq).
      apply IH. right. exact E.
Qed.

Section Finish.

Variable U : ucd.

Lemma finish_paragraph_clean :
  forall lang acc para r,
    Forall (fun p => p <> [] /\ clean_ends p) acc ->
    finish_paragraph U lang acc para = Ok r ->
    Forall (fun p => p <> [] /\ clean_ends p) r.
Proof.
  intros lang acc para r Hacc. unfold finish_paragraph.
  destruct (fix_capitalization U para lang); cbn [bind]; [|discriminate].
  destruct (truthy (clean_spacing U a lang)) eqn:E; intro H;
    injection H as <-; [|assumption].
  apply Forall_app. split; [assumption|]. constructor; [|constructor].
  split; [apply truthy_nonempty; exact E|].
  unfold clean_spacing. apply strip_clean_ends.
Qed.

Lemma finished_paragraphs_clean :
  forall lang paragraphs acc r,
    Forall (fun p => p <> [] /\ clean_ends p) acc ->
    for_each (finish_paragraph U lang) paragraphs acc = Ok r ->
    Forall (fun p => p <> [] /\ clean_ends p) r.
Proof.
  intros lang. induction paragraphs as [|p ps IH]; intros acc r Hacc;
    cbn [for_each].
  - intro E. injection E as <-. assumption.
  - destruct (finish_paragraph U lang acc p) eqn:Ep; cbn [bind];
      [|discriminate].
    apply IH. eapply finish_paragraph_clean; eassumption.
Qed.

End Finish.

(** The text a conversion returns never begins or ends with white space:
    stripping it changes nothing. *)
Theorem converted_text_is_stripped :
  forall U file output_path lang fmt o,
    convert_subtitles_to_text U file output_path lang fmt = Ok o ->
    strip (returned o) = returned o.
Proof.
  intros U file output_path lang fmt o. unfold convert_subtitles_to_text.
  destruct (parse_subtitle_file U file fmt) as [[captions detected]|e];
    cbn [bind]; [|discriminate].
  set (chosen := if str_eqb lang lang_auto then _ else _).
  destruct chosen as [[lang' log]|e]; cbn [bind]; [|discriminate].
  do 4 (step_bind; [|discriminate]).
  match goal with
  | |- context [for_each (finish_paragraph U lang') ?ps []] =>
      destruct (for_each (finish_paragraph U lang') ps []) eqn:E;
      cbn [bind]; [|discriminate]
  end.
  intro H. injection H as <-. cbn [returned].
  apply clean_ends_strip, join_clean_ends.
  eapply finished_paragraphs_clean; [constructor | exact E].
Qed.

Lemma converted_text_is_stripped_example :
  exists o,
    convert_subtitles_to_text ascii_tables sample_en_vtt None lang_en fmt_vtt
    = Ok o
    /\ strip (returned o) = returned o.
Proof.
  eexists. split; [vm_compute; reflexivity|].
  apply (@converted_text_is_stripped ascii_tables sample_en_vtt None lang_en
           fmt_vtt).
  vm_compute. reflexivity.
Defined.

(** *** The fallback of the SubRip parser *)

(** In [srt_block] the second test, for a block whose second line holds the
    arrow, never changes the result: the captions of a block are always the
    lines behind its first line with an arrow. *)
Theorem srt_fallback_changes_nothing :
  forall U captions block,
    srt_block U captions block
    = Ok (append_caption U captions
            (lines_after (contains arrow) (block_lines block))).
Proof.
  intros U captions block. unfold srt_block.
  destruct (block_lines block) as [|first [|second lines]];
    cbn [truthy is_empty negb length Nat.leb andb lines_after].
  - reflexivity.
  - destruct (contains arrow first); reflexivity.
  - destruct (contains arrow first); cbn [is_empty negb andb bind];
      [reflexivity|].
    destruct (contains arrow second) eqn:E2.
    + destruct lines as [|third lines]; cbn [is_empty negb andb bind];
        [|reflexivity].
      cbn [index nth_error bind]. rewrite E2. reflexivity.
    + cbn [index nth_error bind]. rewrite E2.
      destruct (negb (truthy (lines_after (contains arrow) lines)) && true);
        reflexivity.
Qed.

(** *** The options of the command line *)



(** *** The matcher finds what the pattern matches *)

Lemma last_char_cons :
  forall prev c w, last_char prev (c :: w) = last_char (Some c) w.
Proof.
  intros prev c w. unfold last_char. cbn [rev].
  destruct (rev w); reflexivity.
Qed.

Lemma last_char_app :
  forall w1 prev w2,
    last_char prev (w1 ++ w2) = last_char (last_char prev w1) w2.
Proof.
  induction w1 as [|c w1 IH]; intros prev w2; [reflexivity|].
  cbn [app]. rewrite !last_char_cons. apply IH.
Qed.

Lemma consumed_app :
  forall (w rest : str),
    firstn (length (w ++ rest) - length rest) (w ++ rest) = w.
Proof.
  intros w rest. rewrite length_app.
  replace (length w + length rest - length rest) with (length w + 0) by lia.
  rewrite firstn_app_2. cbn. apply app_nil_r.
Qed.

Section Denotation.

Variable U : ucd.
Variable ignorecase : bool.

Lemma eat_sound :
  forall p st k final,
    eat p st k = Some final ->
    exists x st',
      ms_rest st = x :: ms_rest st'
      /\ ms_prev st' = Some x
      /\ ms_groups st' = ms_groups st
      /\ p x = true
      /\ k st' = Some final.
Proof.
  intros p [prev rest groups] k final. unfold eat. cbn [ms_rest ms_groups].
  destruct rest as [|c rest]; [discriminate|].
  destruct (p c) eqn:E; [|discriminate]. intro H.
  exists c, {| ms_prev := Some c; ms_rest := rest; ms_groups := groups |}.
  cbn [ms_rest ms_prev ms_groups]. auto.
Qed.

Lemma rep_loop_sound :
  forall r greedy,
    (forall st k final,
        rmatch U ignorecase r st k = Some final ->
        steps_by U ignorecase r st k final) ->
    forall fuel lo hi st k final,
      rep_loop (rmatch U ignorecase r) greedy fuel lo hi st k = Some final ->
      steps_by U ignorecase (Rep greedy lo hi r) st k final.
Proof.
  intros r greedy Hbody. induction fuel as [|fuel IH];
    intros lo hi st k final H; [discriminate|].
  cbn [rep_loop] in H.
  assert (Hleave : lo = 0 -> k st = Some final ->
                   steps_by U ignorecase (Rep greedy lo hi r) st k final).
  { intros -> Hk. exists [], st. cbn [app]. repeat split; [|exact Hk].
    constructor. }
  assert (Hagain :
    match hi with
    | Some 0 => None
    | _ => rmatch U ignorecase r st (fun st' =>
             if progressed st st'
             then rep_loop (rmatch U ignorecase r) greedy fuel (pred lo)
                    (option_map pred hi) st' k
             else None)
    end = Some final -> steps_by U ignorecase (Rep greedy lo hi r) st k final).
  { intro Ha.
    assert (Hhi : hi <> Some 0) by (intro E; rewrite E in Ha; discriminate).
    assert (Hb : rmatch U ignorecase r st (fun st' =>
             if progressed st st'
             then rep_loop (rmatch U ignorecase r) greedy fuel (pred lo)
                    (option_map pred hi) st' k
             else None) = Some final)
      by (destruct hi as [[|h]|]; [contradiction | exact Ha | exact Ha]).
    apply Hbody in Hb. destruct Hb as (w1 & st1 & Hr1 & Hp1 & Hm1 & Hk1).
    destruct (progressed st st1) eqn:Ep; [|discriminate].
    apply IH in Hk1. destruct Hk1 as (w2 & st2 & Hr2 & Hp2 & Hm2 & Hk2).
    exists (w1 ++ w2), st2. split; [|split; [|split]].
    - rewrite Hr1, Hr2. apply app_assoc.
    - rewrite Hp2, Hp1. symmetry. apply last_char_app.
    - apply matches_rep_more with (gs1 := ms_groups st1).
      + exact Hhi.
      + intro E. subst w1. unfold progressed in Ep. rewrite Hr1 in Ep.
        apply Nat.ltb_lt in Ep. cbn in Ep. lia.
      + rewrite <- Hr2. exact Hm1.
      + rewrite <- Hp1. exact Hm2.
    - exact Hk2. }
  destruct lo as [|lo]; [|apply Hagain; exact H].
  destruct greedy; unfold orelse in H.
  - match type of H with
    | match ?a with _ => _ end = _ => destruct a eqn:Ea
    end.
    + apply Hagain. exact H.
    + apply Hleave; [reflexivity | exact H].
  - destruct (k st) eqn:Ek.
    + apply Hleave; [reflexivity | exact H].
    + apply Hagain. exact H.
Qed.

(** Soundness: a match the matcher finds is a match of the pattern. *)
Lemma rmatch_sound :
  forall r st k final,
    rmatch U ignorecase r st k = Some final ->
    steps_by U ignorecase r st k final.
Proof.
  induction r as [| c | | items | items | r1 IH1 r2 IH2 | r1 IH1 r2 IH2
                 | greedy lo hi r IH | n r IH | | ];
    intros st k final H; cbn [rmatch] in H.
  - exists [], st. repeat split; [constructor | exact H].
  - apply eat_sound in H. destruct H as (x & st' & Hr & Hp & Hg & Hx & Hk).
    exists [x], st'. rewrite Hg. repeat split; auto. constructor. exact Hx.
  - apply eat_sound in H. destruct H as (x & st' & Hr & Hp & Hg & Hx & Hk).
    exists [x], st'. rewrite Hg. repeat split; auto. constructor. exact Hx.
  - apply eat_sound in H. destruct H as (x & st' & Hr & Hp & Hg & Hx & Hk).
    exists [x], st'. rewrite Hg. repeat split; auto. constructor. exact Hx.
  - apply eat_sound in H. destruct H as (x & st' & Hr & Hp & Hg & Hx & Hk).
    exists [x], st'. rewrite Hg. repeat split; auto. constructor. exact Hx.
  - apply IH1 in H. destruct H as (w1 & st1 & Hr1 & Hp1 & Hm1 & H).
    apply IH2 in H. destruct H as (w2 & st2 & Hr2 & Hp2 & Hm2 & H).
    exists (w1 ++ w2), st2. split; [|split; [|split]].
    + rewrite Hr1, Hr2. apply app_assoc.
    + rewrite Hp2, Hp1. symmetry. apply last_char_app.
    + apply matches_cat with (gs1 := ms_groups st1).
      * rewrite <- Hr2. exact Hm1.
      * rewrite <- Hp1. exact Hm2.
    + exact H.
  - unfold orelse in H. destruct (rmatch U ignorecase r1 st k) eqn:E1.
    + injection H as <-. apply IH1 in E1.
      destruct E1 as (w & st' & Hr & Hp & Hm & Hk).
      exists w, st'. repeat split; auto. apply matches_alt_left. exact Hm.
    + apply IH2 in H. destruct H as (w & st' & Hr & Hp & Hm & Hk).
      exists w, st'. repeat split; auto. apply matches_alt_right. exact Hm.
  - apply rep_loop_sound in H; [exact H | exact IH].
  - apply IH in H. destruct H as (w & st' & Hr & Hp & Hm & Hk).
    exists w, (set_group n (consumed st st') st').
    cbn [set_group ms_rest ms_prev ms_groups].
    repeat split; auto.
    assert (Ew : consumed st st' = w)
      by (unfold consumed; rewrite Hr; apply consumed_app).
    rewrite Ew. constructor. exact Hm.
  - destruct (at_eos st) eqn:E; [|discriminate].
    exists [], st. repeat split; auto. constructor.
    destruct st; exact E.
  - destruct (at_boundary U st) eqn:E; [|discriminate].
    exists [], st. repeat split; auto. constructor.
    destruct st; exact E.
Qed.

(** Completeness: where the pattern matches and the rest of the pattern
    goes on behind the match, the matcher finds a match. *)
Lemma rmatch_complete :
  forall r prev w next gs gs',
    matches U ignorecase r prev w next gs gs' ->
    forall k,
      k {| ms_prev := last_char prev w; ms_rest := next; ms_groups := gs' |}
      <> None ->
      rmatch U ignorecase r
        {| ms_prev := prev; ms_rest := w ++ next; ms_groups := gs |} k
      <> None.
Proof.
  intros r prev w next gs gs' H.
  induction H as
    [ prev next gs
    | c x prev next gs Hx
    | x prev next gs Hx
    | items x prev next gs Hx
    | items x prev next gs Hx
    | r1 r2 prev w1 w2 next gs gs1 gs2 H1 IH1 H2 IH2
    | r1 r2 prev w next gs gs' H IH
    | r1 r2 prev w next gs gs' H IH
    | greedy hi r prev next gs
    | greedy lo hi r prev w1 w2 next gs gs1 gs2 Hhi Hw1 H1 IH1 H2 IH2
    | n r prev w next gs gs' H IH
    | prev next gs He
    | prev next gs Hb ];
    intros k Hk; cbn [rmatch].
  - exact Hk.
  - unfold eat. cbn [ms_rest app ms_groups]. rewrite Hx. exact Hk.
  - unfold eat. cbn [ms_rest app ms_groups]. rewrite Hx. exact Hk.
  - unfold eat. cbn [ms_rest app ms_groups]. rewrite Hx. exact Hk.
  - unfold eat. cbn [ms_rest app ms_groups]. rewrite Hx. exact Hk.
  - rewrite <- app_assoc. apply IH1. apply IH2.
    rewrite <- last_char_app. exact Hk.
  - unfold orelse.
    destruct (rmatch U ignorecase r1 _ k) eqn:E; [discriminate|].
    exfalso. revert E. apply IH. exact Hk.
  - unfold orelse.
    destruct (rmatch U ignorecase r1 _ k); [discriminate|].
    apply IH. exact Hk.
  - cbn [rep_loop]. unfold orelse. destruct greedy.
    + destruct (match hi with Some 0 => None | _ => _ end);
        [discriminate | exact Hk].
    + destruct (k _) eqn:E; [discriminate | contradiction].
  - cbn [rep_loop ms_rest].
    assert (Hagain :
      match hi with
      | Some 0 => None
      | _ => rmatch U ignorecase r
               {| ms_prev := prev; ms_rest := (w1 ++ w2) ++ next;
                  ms_groups := gs |}
               (fun st' =>
                  if progressed
                       {| ms_prev := prev; ms_rest := (w1 ++ w2) ++ next;
                          ms_groups := gs |} st'
                  then rep_loop (rmatch U ignorecase r) greedy
                         (length ((w1 ++ w2) ++ next)) (pred lo)
                         (option_map pred hi) st' k
                  else None)
      end <> None).
    { assert (Hb :
        rmatch U ignorecase r
          {| ms_prev := prev; ms_rest := (w1 ++ w2) ++ next;
             ms_groups := gs |}
          (fun st' =>
             if progressed
                  {| ms_prev := prev; ms_rest := (w1 ++ w2) ++ next;
                     ms_groups := gs |} st'
             then rep_loop (rmatch U ignorecase r) greedy
                    (length ((w1 ++ w2) ++ next)) (pred lo)
                    (option_map pred hi) st' k
             else None) <> None).
      { rewrite <- app_assoc. apply IH1.
        unfold progressed. cbn [ms_rest].
        assert (Hlt :
          (length (w2 ++ next) <? length (w1 ++ w2 ++ next)) = true).
        { apply Nat.ltb_lt. rewrite (length_app w1).
          destruct w1; [contradiction | cbn [length]; lia]. }
        rewrite Hlt.
        rewrite rep_loop_fuel with (fuel2 := S (length (w2 ++ next))).
        - apply (IH2 k). rewrite <- last_char_app. exact Hk.
        - intros st0 k1 k2. apply rmatch_local.
        - cbn [ms_rest]. apply Nat.ltb_lt in Hlt. exact Hlt.
        - cbn [ms_rest]. lia. }
      destruct hi as [[|h]|]; [contradiction | exact Hb | exact Hb]. }
    destruct lo as [|lo]; [|exact Hagain].
    unfold orelse. destruct greedy.
    + match goal with
      | |- match ?a with _ => _ end <> None => destruct a
      end; [discriminate | contradiction].
    + match goal with
      | |- match ?a with _ => _ end <> None => destruct a
      end; [discriminate | exact Hagain].
  - apply IH. cbn [set_group ms_prev ms_rest ms_groups].
    unfold consumed. cbn [ms_rest]. rewrite consumed_app. exact Hk.
  - cbn [app]. unfold at_eos in *. cbn [ms_rest] in *. rewrite He. exact Hk.
  - cbn [app]. unfold at_boundary in *. cbn [ms_rest ms_prev] in *.
    rewrite Hb. exact Hk.
Qed.

Lemma match_at_sound :
  forall r prev s n gs,
    match_at U ignorecase r prev s = Some (n, gs) ->
    exists w next,
      s = w ++ next /\ n = length w
      /\ matches U ignorecase r prev w next [] gs.
Proof.
  intros r prev s n gs. unfold match_at.
  destruct (rmatch U ignorecase r _ _) as [final|] eqn:E; [|discriminate].
  intro H. injection H as <- <-.
  apply rmatch_sound in E. destruct E as (w & st' & Hr & _ & Hm & Hk).
  injection Hk as <-. cbn [ms_rest ms_prev ms_groups] in *.
  exists w, (ms_rest st'). split; [exact Hr|]. split; [|exact Hm].
  rewrite Hr, length_app. lia.
Qed.

Lemma match_at_complete :
  forall r prev w next gs,
    matches U ignorecase r prev w next [] gs ->
    match_at U ignorecase r prev (w ++ next) <> None.
Proof.
  intros r prev w next gs H. unfold match_at.
  assert (Hc : rmatch U ignorecase r
                 {| ms_prev := prev; ms_rest := w ++ next; ms_groups := [] |}
                 (fun st => Some st) <> None)
    by (apply (rmatch_complete H); discriminate).
  destruct (rmatch U ignorecase r _ _) as [final|];
    [discriminate | contradiction].
Qed.

End Denotation.

(** *** Substitutions, step by step *)

Lemma app_same_length :
  forall {A : Type} (a a' b b' : list A),
    length a = length a' -> a ++ b = a' ++ b' -> a = a' /\ b = b'.
Proof.
  intros A. induction a as [|x a IH]; intros [|x' a'] b b' Hl H;
    cbn [length] in Hl; try discriminate.
  - split; [reflexivity | exact H].
  - cbn [app] in H. injection H as -> H.
    destruct (IH a' b b') as [-> ->]; [lia | exact H | split; reflexivity].
Qed.

Section Scan.

Variable U : ucd.
Variable ignorecase : bool.
Variable r : regex.
Variable repl : list (nat * str) -> str.

Lemma match_at_length :
  forall prev s n gs,
    match_at U ignorecase r prev s = Some (n, gs) -> n <= length s.
Proof.
  intros prev s n gs. unfold match_at.
  destruct (rmatch U ignorecase r _ _); [|discriminate].
  intro H. injection H as <- _. lia.
Qed.

(** The characters of a match are passed without a look at them. *)
Lemma sub_go_skip :
  forall s n prev,
    n <= length s ->
    sub_go U ignorecase r repl prev n s
    = sub_go U ignorecase r repl (last_char prev (firstn n s)) 0 (skipn n s).
Proof.
  induction s as [|c s IH]; intros n prev Hn.
  - destruct n; reflexivity.
  - destruct n as [|n]; [reflexivity|].
    cbn [sub_go firstn skipn]. rewrite last_char_cons.
    apply IH. cbn [length] in Hn. lia.
Qed.

Lemma sub_go_rewrites_bounded :
  forall n s prev,
    length s <= n ->
    rewrites U ignorecase r repl prev s
      (sub_go U ignorecase r repl prev 0 s).
Proof.
  induction n as [|n IH]; intros s prev Hn.
  - destruct s; [constructor | cbn [length] in Hn; lia].
  - destruct s as [|c s]; [constructor|].
    cbn [length] in Hn. cbn [sub_go].
    destruct (match_at U ignorecase r prev (c :: s))
      as [[[|m] gs]|] eqn:Em.
    + apply rewrites_pass; [unfold no_match_at; rewrite Em; exact I|].
      apply IH. lia.
    + pose proof (match_at_length _ _ Em) as Hm. cbn [length] in Hm.
      rewrite sub_go_skip by lia.
      pose proof (firstn_skipn m s) as Hs.
      assert (Hl : length (c :: firstn m s) = S m)
        by (cbn [length]; rewrite length_firstn; lia).
      rewrite <- last_char_cons with (prev := prev).
      replace (c :: s) with ((c :: firstn m s) ++ skipn m s)
        by (cbn [app]; rewrite Hs; reflexivity).
      apply rewrites_match.
      * discriminate.
      * rewrite Hl. cbn [app]. rewrite Hs. exact Em.
      * apply IH. rewrite length_skipn. lia.
    + apply rewrites_pass; [unfold no_match_at; rewrite Em; exact I|].
      apply IH. lia.
Qed.

(** [re.sub] goes through the text as [rewrites] says. *)
Lemma re_sub_rewrites :
  forall s,
    rewrites U ignorecase r repl None s (re_sub U ignorecase r repl s).
Proof.
  intro s. apply sub_go_rewrites_bounded with (n := length s). lia.
Qed.

(** What a step of the scan has matched is a match of the pattern. *)
Lemma match_at_matches :
  forall prev (w s : str) gs,
    match_at U ignorecase r prev (w ++ s) = Some (length w, gs) ->
    matches U ignorecase r prev w s [] gs.
Proof.
  intros prev w s gs H. apply match_at_sound in H.
  destruct H as (w' & next & Hs & Hl & Hm).
  assert (Hw : w = w' /\ s = next).
  { apply app_same_length; [exact Hl | exact Hs]. }
  destruct Hw as [<- <-]. exact Hm.
Qed.

End Scan.

(** *** Neighbours in a text *)

Section Chains.

Variable R : char -> char -> Prop.

Lemma chain_cons :
  forall x s,
    chain R (x :: s) <->
    (forall y, hd_error s = Some y -> R x y) /\ chain R s.
Proof.
  intros x [|y s]; cbn [chain hd_error]; split.
  - intros _. split; [discriminate | exact I].
  - intros _. exact I.
  - intros [H1 H2]. split; [|exact H2]. intros z E. injection E as <-. exact H1.
  - intros [H1 H2]. split; [apply H1; reflexivity | exact H2].
Qed.

Lemma chain_tail : forall x s, chain R (x :: s) -> chain R s.
Proof. intros x s H. apply chain_cons in H. apply H. Qed.

Lemma chain_app :
  forall a b,
    chain R a -> chain R b ->
    (forall x y, last_char None a = Some x -> hd_error b = Some y -> R x y) ->
    chain R (a ++ b).
Proof.
  induction a as [|x a IH]; intros b Ha Hb Hab; [exact Hb|].
  cbn [app]. apply chain_cons. apply chain_cons in Ha. destruct Ha as [Hx Ha].
  split.
  - intros y Hy. destruct a as [|z a].
    + apply Hab; [reflexivity | exact Hy].
    + apply Hx. exact Hy.
  - apply IH; [exact Ha | exact Hb|].
    intros u v Hu Hv. apply Hab; [|exact Hv].
    rewrite last_char_cons. destruct a as [|z a]; [discriminate|].
    rewrite last_char_cons in Hu. rewrite last_char_cons. exact Hu.
Qed.

Lemma chain_app_l : forall a b, chain R (a ++ b) -> chain R a.
Proof.
  induction a as [|x a IH]; intros b H; [exact I|].
  cbn [app] in H. apply chain_cons in H. destruct H as [Hx H].
  apply chain_cons. split; [|apply (IH b); exact H].
  intros y Hy. apply Hx. destruct a; [discriminate | exact Hy].
Qed.

Lemma chain_app_r : forall a b, chain R (a ++ b) -> chain R b.
Proof.
  induction a as [|x a IH]; intros b H; [exact H|].
  apply IH. apply chain_tail with (x := x). exact H.
Qed.

Lemma chain_adjacent :
  forall s x y, chain R s -> adjacent x y s -> R x y.
Proof.
  intros s x y H (a & b & ->). apply chain_app_r in H.
  apply chain_cons in H. apply H. reflexivity.
Qed.

Lemma chain_lstrip : forall s, chain R s -> chain R (lstrip s).
Proof.
  intros s H. destruct (lstrip_suffix s) as (w & E). rewrite E in H.
  apply chain_app_r in H. exact H.
Qed.

Lemma chain_rstrip : forall s, chain R s -> chain R (rstrip s).
Proof.
  intros s H. destruct (rstrip_prefix s) as (w & E). rewrite E in H.
  apply chain_app_l in H. exact H.
Qed.

Lemma chain_strip : forall s, chain R s -> chain R (strip s).
Proof. intros s H. apply chain_rstrip, chain_lstrip, H. Qed.

(** Lines that keep the relation, joined by a character that keeps it with
    every neighbour, keep it. *)
Lemma chain_join :
  forall sep ps,
    (forall x, R x sep) -> (forall y, R sep y) ->
    Forall (chain R) ps -> chain R (join [sep] ps).
Proof.
  intros sep ps Hl Hr H. induction H as [|p ps Hp Hps IH]; [exact I|].
  destruct ps as [|q ps]; [exact Hp|].
  change (join [sep] (p :: q :: ps))
    with (p ++ sep :: join [sep] (q :: ps)).
  apply chain_app; [exact Hp | |].
  - apply chain_cons. split; [intros y _; apply Hr | exact IH].
  - intros x y _ Hy. injection Hy as <-. apply Hl.
Qed.

End Chains.

(** *** The shape of what the patterns match *)

Section Shapes.

Variable U : ucd.
Variable ignorecase : bool.

Lemma matches_eps_inv :
  forall prev w next gs gs',
    matches U ignorecase Eps prev w next gs gs' -> w = [] /\ gs' = gs.
Proof. intros prev w next gs gs' H. inversion H; subst. auto. Qed.

Lemma matches_one_of_inv :
  forall items prev w next gs gs',
    matches U ignorecase (OneOf items) prev w next gs gs' ->
    exists x, w = [x] /\ in_set U items x = true /\ gs' = gs.
Proof.
  intros items prev w next gs gs' H. inversion H; subst.
  eexists. repeat split. assumption.
Qed.

Lemma matches_cat_inv :
  forall r1 r2 prev w next gs gs2,
    matches U ignorecase (Cat r1 r2) prev w next gs gs2 ->
    exists w1 w2 gs1,
      w = w1 ++ w2
      /\ matches U ignorecase r1 prev w1 (w2 ++ next) gs gs1
      /\ matches U ignorecase r2 (last_char prev w1) w2 next gs1 gs2.
Proof.
  intros r1 r2 prev w next gs gs2 H. inversion H; subst.
  eexists _, _, _. repeat split; eassumption.
Qed.

Lemma matches_group_inv :
  forall n r prev w next gs gs2,
    matches U ignorecase (Group n r) prev w next gs gs2 ->
    exists gs1,
      gs2 = (n, w) :: gs1 /\ matches U ignorecase r prev w next gs gs1.
Proof.
  intros n r prev w next gs gs2 H. inversion H; subst.
  eexists. split; [reflexivity | eassumption].
Qed.

(** A repetition of a character class matches a run of the class. *)
Lemma matches_class_run :
  forall items greedy lo hi prev w next gs gs',
    matches U ignorecase (Rep greedy lo hi (OneOf items)) prev w next gs gs' ->
    forallb (in_set U items) w = true /\ gs' = gs.
Proof.
  intros items greedy lo hi prev w next gs gs' H.
  remember (Rep greedy lo hi (OneOf items)) as r eqn:Er.
  revert lo hi Er.
  induction H; intros lo0 hi0 Er; try discriminate Er.
  - split; reflexivity.
  - injection Er as -> -> -> ->.
    apply matches_one_of_inv in H1. destruct H1 as (x & -> & Hx & ->).
    destruct (IHmatches2 _ _ eq_refl) as [Hw ->].
    split; [|reflexivity]. cbn [app forallb]. rewrite Hx, Hw. reflexivity.
Qed.

(** A run of a character class that is long enough is matched by the
    repetition of the class. *)
Lemma class_run_matches :
  forall items greedy w lo prev next gs,
    forallb (in_set U items) w = true ->
    lo <= length w ->
    matches U ignorecase (Rep greedy lo None (OneOf items)) prev w next gs gs.
Proof.
  intros items greedy. induction w as [|x w IH]; intros lo prev next gs Hw Hlo.
  - cbn [length] in Hlo. assert (lo = 0) by lia. subst lo. constructor.
  - cbn [forallb] in Hw. apply andb_true_iff in Hw. destruct Hw as [Hx Hw].
    change (x :: w) with ([x] ++ w).
    apply matches_rep_more with (gs1 := gs).
    + discriminate.
    + discriminate.
    + constructor. exact Hx.
    + apply IH; [exact Hw | cbn [length] in Hlo; lia].
Qed.

(** Where a pattern that matches no empty text has a match, the scan does
    not pass. *)
Lemma matched_is_seen :
  forall r prev w next gs,
    matches U ignorecase r prev w next [] gs ->
    (forall prev' w' next' gs',
        matches U ignorecase r prev' w' next' [] gs' -> w' <> []) ->
    ~ no_match_at U ignorecase r prev (w ++ next).
Proof.
  intros r prev w next gs Hm Hne Hno. unfold no_match_at in Hno.
  pose proof (match_at_complete Hm) as Hc.
  destruct (match_at U ignorecase r prev (w ++ next)) as [[[|n] gs']|] eqn:E.
  - apply match_at_sound in E. destruct E as (w' & next' & _ & Hl & Hm').
    apply Hne in Hm'. destruct w'; [contradiction | discriminate].
  - exact Hno.
  - apply Hc. reflexivity.
Qed.

End Shapes.

(** *** A letter behind a punctuation mark *)

Lemma punctuation_is_no_letter :
  forall c, List.In c punctuation -> ascii_letter c = false.
Proof.
  intros c H. cbn in H.
  repeat (destruct H as [<- | H]; [reflexivity|]). contradiction.
Qed.

Lemma punctuation_is_no_blank :
  forall c, List.In c punctuation -> is_blank c = false.
Proof.
  intros c H. cbn in H.
  repeat (destruct H as [<- | H]; [reflexivity|]). contradiction.
Qed.

Section PunctuationAndLetters.

Variable U : ucd.

Lemma in_set_letters :
  forall c,
    in_set U [CRange 65 90; CRange 97 122] c = ascii_letter c.
Proof.
  intro c. unfold in_set, ascii_letter, ascii_isupper, ascii_islower.
  cbn [existsb item_matches]. rewrite orb_false_r. reflexivity.
Qed.

Lemma punct_then_letter_shape :
  forall prev w next gs,
    matches U false punct_then_letter prev w next [] gs ->
    exists p l,
      w = [p; l] /\ List.In p punctuation /\ ascii_letter l = true
      /\ group gs 1 = [p] /\ group gs 2 = [l].
Proof.
  intros prev w next gs H. unfold punct_then_letter, cats in H.
  cbn [fold_right] in H.
  apply matches_cat_inv in H. destruct H as (w1 & w2 & gs1 & -> & H1 & H).
  apply matches_cat_inv in H. destruct H as (w3 & w4 & gs2 & -> & H2 & H).
  apply matches_eps_inv in H. destruct H as [-> ->].
  apply matches_group_inv in H1. destruct H1 as (g1 & -> & H1).
  apply matches_one_of_inv in H1. destruct H1 as (p & -> & Hp & ->).
  apply matches_group_inv in H2. destruct H2 as (g2 & -> & H2).
  apply matches_one_of_inv in H2. destruct H2 as (l & -> & Hl & ->).
  exists p, l. split; [reflexivity|].
  split; [apply (in_set_chars U); exact Hp|].
  split; [rewrite <- in_set_letters; exact Hl|].
  split; reflexivity.
Qed.

Lemma punct_then_letter_matches :
  forall prev p l next,
    List.In p punctuation -> ascii_letter l = true ->
    matches U false punct_then_letter prev [p; l] next []
      [(2, [l]); (1, [p])].
Proof.
  intros prev p l next Hp Hl. unfold punct_then_letter, cats.
  cbn [fold_right].
  change [p; l] with ([p] ++ [l] ++ []).
  apply matches_cat with (gs1 := [(1, [p])]).
  - constructor. constructor. apply (in_set_chars U). exact Hp.
  - apply matches_cat with (gs1 := [(2, [l]); (1, [p])]).
    + constructor. constructor. rewrite in_set_letters. exact Hl.
    + constructor.
Qed.

Lemma punct_then_letter_seen :
  forall prev p l s,
    List.In p punctuation -> ascii_letter l = true ->
    ~ no_match_at U false punct_then_letter prev (p :: l :: s).
Proof.
  intros prev p l s Hp Hl.
  apply (@matched_is_seen U false punct_then_letter prev [p; l] s
           [(2, [l]); (1, [p])]).
  - apply punct_then_letter_matches; assumption.
  - intros prev' w' next' gs' H. apply punct_then_letter_shape in H.
    destruct H as (p' & l' & -> & _). discriminate.
Qed.

(** The last pass of an English line leaves no letter directly behind a
    punctuation mark, and keeps the first character. *)
Lemma punct_then_letter_rewrites :
  forall prev s o,
    rewrites U false punct_then_letter
      (fun m => group m 1 ++ py " " ++ group m 2) prev s o ->
    hd_error o = hd_error s
    /\ chain (fun x y => ~ (List.In x punctuation /\ ascii_letter y = true)) o.
Proof.
  intros prev s o H.
  induction H as [prev | prev c s o Hno H [IHh IHc]
                 | prev w s gs o Hw Hm H [IHh IHc]].
  - split; [reflexivity | exact I].
  - split; [reflexivity|]. apply chain_cons. split; [|exact IHc].
    intros y Hy [Hp Hl]. rewrite IHh in Hy.
    destruct s as [|y' s]; [discriminate|]. injection Hy as ->.
    apply (@punct_then_letter_seen prev c y s Hp Hl). exact Hno.
  - apply match_at_matches in Hm. apply punct_then_letter_shape in Hm.
    destruct Hm as (p & l & -> & Hp & Hl & -> & ->).
    split; [reflexivity|].
    change ([p] ++ py " " ++ [l]) with [p; SPACE; l].
    cbn [app]. apply chain_cons. split.
    { intros y Hy [_ Hy']. injection Hy as <-. discriminate Hy'. }
    apply chain_cons. split.
    { intros y _ [Hs _]. apply punctuation_is_no_blank in Hs.
      discriminate Hs. }
    apply chain_cons. split; [|exact IHc].
    intros y _ [Hl' _]. apply punctuation_is_no_letter in Hl'. congruence.
Qed.

Lemma clean_line_punctuation :
  forall lang line,
    is_chinese lang = false ->
    chain (fun x y => ~ (List.In x punctuation /\ ascii_letter y = true))
      (clean_line U lang line).
Proof.
  intros lang line Hl. unfold clean_line. rewrite Hl.
  destruct (negb (truthy (strip line))); [exact I|].
  apply chain_strip.
  match goal with
  | |- chain _ (re_sub _ _ _ ?f ?s) =>
      destruct (@punct_then_letter_rewrites None s _
                  (re_sub_rewrites U false punct_then_letter f s)) as [_ H]
  end.
  exact H.
Qed.

Lemma clean_spacing_punctuation :
  forall text lang,
    is_chinese lang = false ->
    chain (fun x y => ~ (List.In x punctuation /\ ascii_letter y = true))
      (clean_spacing U text lang).
Proof.
  intros text lang Hl. unfold clean_spacing. apply chain_strip.
  apply chain_join.
  - intros x [_ H]. discriminate H.
  - intros y [H _]. cbn in H.
    repeat (destruct H as [H | H]; [discriminate H|]). contradiction.
  - apply Forall_forall. intros l Hin. apply in_map_iff in Hin.
    destruct Hin as (line & <- & _). apply clean_line_punctuation. exact Hl.
Qed.

End PunctuationAndLetters.

(** *** Greedy runs *)

(** Every text begins with a longest run of a class of characters. *)
Lemma longest_run :
  forall (p : char -> bool) (s : str),
    exists run rest,
      s = run ++ rest
      /\ forallb p run = true
      /\ (forall c, hd_error rest = Some c -> p c = false).
Proof.
  intros p. induction s as [|c s (run & rest & Hs & Hrun & Hrest)].
  - exists [], []. repeat split. discriminate.
  - destruct (p c) eqn:E.
    + exists (c :: run), rest. subst s. repeat split; [|exact Hrest].
      cbn [forallb]. rewrite E. exact Hrun.
    + exists [], (c :: s). repeat split. intros c' H. injection H as <-.
      exact E.
Qed.

Section GreedyRuns.

Variable U : ucd.
Variable ignorecase : bool.
Variable items : list citem.
Variable body : mstate -> (mstate -> option mstate) -> option mstate.
Hypothesis body_eats : forall st k, body st k = eat (in_set U items) st k.

(** A greedy repetition of a class takes the whole run when the rest of the
    pattern matches behind it. *)
Lemma greedy_run_exact :
  forall k rest final,
    (forall c, hd_error rest = Some c -> in_set U items c = false) ->
    forall run fuel lo st,
      forallb (in_set U items) run = true ->
      ms_rest st = run ++ rest ->
      length (ms_rest st) < fuel ->
      lo <= length run ->
      k {| ms_prev := last_char (ms_prev st) run; ms_rest := rest;
           ms_groups := ms_groups st |} = Some final ->
      rep_loop body true fuel lo None st k
      = Some final.
Proof.
  intros k rest final Hrest.
  induction run as [|x run IH]; intros fuel lo st Hrun Hst Hfuel Hlo Hk;
    (destruct fuel as [|fuel]; [lia|]); cbn [rep_loop].
  - cbn [length] in Hlo. assert (lo = 0) by lia. subst lo.
    rewrite body_eats. unfold eat. cbn [app] in Hst. rewrite Hst.
    assert (E : st = {| ms_prev := last_char (ms_prev st) [];
                        ms_rest := rest; ms_groups := ms_groups st |})
      by (destruct st; cbn in *; congruence).
    rewrite <- E in Hk.
    destruct rest as [|c rest']; [exact Hk|].
    rewrite (Hrest c eq_refl). exact Hk.
  - cbn [forallb] in Hrun. apply andb_true_iff in Hrun.
    destruct Hrun as [Hx Hrun].
    assert (Hagain :
      body st (fun st' =>
        if progressed st st'
        then rep_loop body true fuel (pred lo)
               (option_map pred None) st' k
        else None) = Some final).
    { rewrite body_eats. unfold eat. rewrite Hst. cbn [app]. rewrite Hx.
      match goal with
      | |- (if ?q then _ else _) = _ => assert (Eq : q = true)
      end.
      { unfold progressed. rewrite Hst. cbn [ms_rest app length].
        apply Nat.ltb_lt. lia. }
      rewrite Eq. cbn [option_map].
      apply IH; cbn [ms_rest ms_prev ms_groups length] in *.
      - exact Hrun.
      - reflexivity.
      - rewrite Hst in Hfuel. cbn [app length] in Hfuel. lia.
      - lia.
      - rewrite last_char_cons in Hk. exact Hk. }
    destruct lo as [|lo]; [|exact Hagain].
    unfold orelse. rewrite Hagain. reflexivity.
Qed.

(** It fails on a run that is too short. *)
Lemma greedy_run_short :
  forall k rest,
    (forall c, hd_error rest = Some c -> in_set U items c = false) ->
    forall run fuel lo st,
      forallb (in_set U items) run = true ->
      ms_rest st = run ++ rest ->
      length run < lo ->
      rep_loop body true fuel lo None st k
      = None.
Proof.
  intros k rest Hrest.
  induction run as [|x run IH]; intros fuel lo st Hrun Hst Hlo;
    (destruct fuel as [|fuel]; [reflexivity|]); cbn [rep_loop];
    (destruct lo as [|lo]; [cbn [length] in Hlo; lia|]).
  - rewrite body_eats. unfold eat. cbn [app] in Hst. rewrite Hst.
    destruct rest as [|c rest']; [reflexivity|].
    rewrite (Hrest c eq_refl). reflexivity.
  - cbn [forallb] in Hrun. apply andb_true_iff in Hrun.
    destruct Hrun as [Hx Hrun].
    rewrite body_eats. unfold eat. rewrite Hst. cbn [app]. rewrite Hx.
    destruct (progressed st _); [|reflexivity].
    cbn [option_map pred]. apply IH; cbn [ms_rest length] in *.
    + exact Hrun.
    + reflexivity.
    + lia.
Qed.

End GreedyRuns.

Section GreedyMatch.

Variable U : ucd.
Variable ignorecase : bool.
Variable items : list citem.

(** So a match of the repetition at the head of a text is its longest run,
    if that is long enough. *)
Lemma greedy_run_match :
  forall lo prev run rest,
    forallb (in_set U items) run = true ->
    (forall c, hd_error rest = Some c -> in_set U items c = false) ->
    match_at U ignorecase (Rep true lo None (OneOf items)) prev (run ++ rest)
    = if lo <=? length run then Some (length run, []) else None.
Proof.
  intros lo prev run rest Hrun Hrest. unfold match_at. cbn [rmatch ms_rest].
  destruct (lo <=? length run) eqn:E.
  - apply Nat.leb_le in E.
    rewrite (@greedy_run_exact U items _ (fun st k => eq_refl)
               (fun st => Some st) rest
               {| ms_prev := last_char prev run; ms_rest := rest;
                  ms_groups := [] |} Hrest run);
      cbn [ms_rest ms_prev ms_groups]; try reflexivity; try assumption;
      try lia.
    rewrite length_app. f_equal. f_equal. lia.
  - apply Nat.leb_gt in E.
    rewrite (@greedy_run_short U items _ (fun st k => eq_refl)
               (fun st => Some st) rest Hrest run);
      cbn [ms_rest]; try reflexivity; assumption.
Qed.

End GreedyMatch.

(** *** Runs of blanks *)

Lemma forallb_same :
  forall {A : Type} (p q : A -> bool) (w : list A),
    (forall c, p c = q c) -> forallb p w = forallb q w.
Proof.
  intros A p q w H. induction w as [|x w IH]; [reflexivity|].
  cbn [forallb]. rewrite H, IH. reflexivity.
Qed.

Section BlankRuns.

Variable U : ucd.

Lemma in_set_blank : forall c, in_set U blank c = is_blank c.
Proof.
  intro c. unfold in_set, blank, is_blank. cbn [existsb item_matches].
  rewrite orb_false_r. reflexivity.
Qed.

Lemma blank_run_seen :
  forall lo prev run rest,
    forallb (in_set U blank) run = true ->
    (forall c, hd_error rest = Some c -> in_set U blank c = false) ->
    lo <= length run ->
    run <> [] ->
    ~ no_match_at U false (Rep true lo None (OneOf blank)) prev (run ++ rest).
Proof.
  intros lo prev run rest Hrun Hrest Hlo Hne. unfold no_match_at.
  rewrite greedy_run_match by assumption.
  apply Nat.leb_le in Hlo. rewrite Hlo.
  destruct run; [contradiction|]. cbn [length]. auto.
Qed.

(** Where the scan for [[ \t]{lo,}] passes a blank, the run of blanks that
    begins there is shorter than [lo]. *)
Lemma passed_blank :
  forall lo prev c s,
    no_match_at U false (Rep true lo None (OneOf blank)) prev (c :: s) ->
    is_blank c = true ->
    (lo <= 1 \/ exists y s', s = y :: s' /\ is_blank y = true /\ lo <= 2) ->
    False.
Proof.
  intros lo prev c s Hno Hc Hlo. rewrite <- in_set_blank in Hc.
  destruct Hlo as [Hlo | (y & s' & -> & Hy & Hlo)].
  - destruct (longest_run (in_set U blank) s) as (run & rest & -> & Hr & Hrest).
    apply (@blank_run_seen lo prev (c :: run) rest); try assumption.
    + cbn [forallb]. rewrite Hc. exact Hr.
    + cbn [length]. lia.
    + discriminate.
  - rewrite <- in_set_blank in Hy.
    destruct (longest_run (in_set U blank) s')
      as (run & rest & -> & Hr & Hrest).
    apply (@blank_run_seen lo prev (c :: y :: run) rest); try assumption.
    + cbn [forallb]. rewrite Hc, Hy. exact Hr.
    + cbn [length]. lia.
    + discriminate.
Qed.

(** What the scan for [[ \t]{lo,}] matches is a longest run of blanks. *)
Lemma matched_blanks :
  forall lo prev (w s : str) gs,
    match_at U false (Rep true lo None (OneOf blank)) prev (w ++ s)
    = Some (length w, gs) ->
    forallb is_blank w = true
    /\ (forall c, hd_error s = Some c -> is_blank c = false).
Proof.
  intros lo prev w s gs Hm.
  destruct (longest_run (in_set U blank) (w ++ s))
    as (run & rest & E & Hr & Hrest).
  rewrite E in Hm. rewrite greedy_run_match in Hm by assumption.
  destruct (lo <=? length run); [|discriminate].
  injection Hm as Hl _.
  destruct (@app_same_length _ run w rest s Hl (eq_sym E)) as [-> ->].
  split.
  - rewrite <- Hr. apply forallb_same. intro c. symmetry.
    apply in_set_blank.
  - intros c Hc. rewrite <- in_set_blank. apply Hrest. exact Hc.
Qed.

(** A pass that puts one space for every run of [lo] blanks or more, [lo]
    being one or two, leaves no two blanks in a row; a pass for every run
    leaves no tab. *)
Lemma blank_runs_rewrites :
  forall lo, 1 <= lo <= 2 ->
  forall prev s o,
    rewrites U false (Rep true lo None (OneOf blank)) (fun _ => py " ")
      prev s o ->
    chain (fun x y => ~ (is_blank x = true /\ is_blank y = true)) o
    /\ (forall y, hd_error o = Some y -> is_blank y = true ->
        exists y', hd_error s = Some y' /\ is_blank y' = true)
    /\ (lo = 1 -> ~ List.In TAB o).
Proof.
  intros lo Hlo prev s o H.
  induction H as [prev | prev c s o Hno H (IHc & IHh & IHt)
                 | prev w s gs o Hw Hm H (IHc & IHh & IHt)].
  - split; [exact I|]. split; [discriminate|]. intros _ [].
  - split; [|split].
    + apply chain_cons. split; [|exact IHc].
      intros y Hy [Hc Hb]. destruct (IHh y Hy Hb) as (y' & Hy' & Hb').
      destruct s as [|z s']; [discriminate|]. injection Hy' as ->.
      apply (@passed_blank lo prev c (y' :: s') Hno Hc).
      right. exists y', s'. repeat split; [exact Hb' | lia].
    + intros y Hy Hb. exists y. split; [exact Hy | exact Hb].
    + intros -> [E | Hin]; [|apply IHt; [reflexivity | exact Hin]].
      subst c. apply (@passed_blank 1 prev TAB s Hno); [reflexivity|].
      left. lia.
  - destruct (@matched_blanks lo prev w s gs Hm) as [Hall Hnext].
    change (py " " ++ o) with (SPACE :: o). split; [|split].
    + apply chain_cons. split; [|exact IHc].
      intros y Hy [_ Hb]. destruct (IHh y Hy Hb) as (y' & Hy' & Hb').
      rewrite (Hnext y' Hy') in Hb'. discriminate.
    + intros y _ _. destruct w as [|x w]; [contradiction|].
      exists x. split; [reflexivity|].
      cbn [forallb] in Hall. apply andb_true_iff in Hall. apply Hall.
    + intros E [E' | Hin]; [discriminate E'|].
      apply IHt; [exact E | exact Hin].
Qed.

End BlankRuns.

(** *** Replacements with solid ends *)

Section SolidReplacements.

Variable U : ucd.
Variable ignorecase : bool.
Variable r : regex.
Variable repl : list (nat * str) -> str.

(** Every replacement is a text without two blanks in a row that begins and
    ends with a character that is no blank. *)
Hypothesis solid :
  forall prev (w s : str) gs,
    w <> [] ->
    match_at U ignorecase r prev (w ++ s) = Some (length w, gs) ->
    repl gs <> []
    /\ chain (fun x y => ~ (is_blank x = true /\ is_blank y = true)) (repl gs)
    /\ (forall y, hd_error (repl gs) = Some y -> is_blank y = false)
    /\ (forall y, last_char None (repl gs) = Some y -> is_blank y = false).

Lemma solid_rewrites :
  forall prev s o,
    rewrites U ignorecase r repl prev s o ->
    chain (fun x y => ~ (is_blank x = true /\ is_blank y = true)) s ->
    chain (fun x y => ~ (is_blank x = true /\ is_blank y = true)) o
    /\ (forall y, hd_error o = Some y -> is_blank y = true ->
        hd_error s = Some y).
Proof.
  intros prev s o H.
  induction H as [prev | prev c s o Hno H IH | prev w s gs o Hw Hm H IH];
    intro Hs.
  - split; [exact I | discriminate].
  - apply chain_cons in Hs. destruct Hs as [Hc Hs].
    destruct (IH Hs) as [IHc IHh]. split; [|intros y Hy _; exact Hy].
    apply chain_cons. split; [|exact IHc].
    intros y Hy [Hbc Hby]. apply (Hc y); [|split; assumption].
    apply IHh; assumption.
  - destruct (IH (@chain_app_r _ w s Hs)) as [IHc IHh].
    destruct (@solid prev w s gs Hw Hm) as (Hne & Hch & Hhd & Hlast).
    split.
    + apply chain_app; [exact Hch | exact IHc|].
      intros x y Hx _ [Hbx _]. rewrite (Hlast x Hx) in Hbx. discriminate.
    + intros y Hy Hb. rewrite hd_error_app in Hy by exact Hne.
      rewrite (Hhd y Hy) in Hb. discriminate.
Qed.

End SolidReplacements.

Section KeptCharacters.

Variable U : ucd.
Variable ignorecase : bool.
Variable r : regex.
Variable repl : list (nat * str) -> str.
Variable Q : char -> Prop.

Hypothesis replacements_keep :
  forall prev (w s : str) gs,
    w <> [] ->
    match_at U ignorecase r prev (w ++ s) = Some (length w, gs) ->
    Forall Q (repl gs).

Lemma kept_rewrites :
  forall prev s o,
    rewrites U ignorecase r repl prev s o -> Forall Q s -> Forall Q o.
Proof.
  intros prev s o H.
  induction H as [prev | prev c s o Hno H IH | prev w s gs o Hw Hm H IH];
    intro Hs.
  - constructor.
  - inversion Hs; subst. constructor; [assumption | apply IH; assumption].
  - apply Forall_app in Hs. destruct Hs as [_ Hs].
    apply Forall_app. split; [|apply IH; exact Hs].
    apply (@replacements_keep prev w s gs Hw Hm).
Qed.

End KeptCharacters.

Lemma in_join :
  forall (c : char) sep ps,
    List.In c (join sep ps) ->
    List.In c sep \/ exists p, List.In p ps /\ List.In c p.
Proof.
  intros c sep. induction ps as [|p ps IH]; intro H; [contradiction|].
  destruct ps as [|q ps].
  - right. exists p. split; [left; reflexivity | exact H].
  - change (join sep (p :: q :: ps)) with (p ++ sep ++ join sep (q :: ps))
      in H.
    apply in_app_or in H. destruct H as [H | H].
    { right. exists p. split; [left; reflexivity | exact H]. }
    apply in_app_or in H. destruct H as [H | H]; [left; exact H|].
    destruct (IH H) as [H' | (p' & Hp' & Hc)]; [left; exact H'|].
    right. exists p'. split; [right; exact Hp' | exact Hc].
Qed.

Lemma letter_is_no_blank :
  forall c, ascii_letter c = true -> is_blank c = false.
Proof.
  intros c H. unfold is_blank.
  destruct (N.eqb_spec SPACE c) as [<- | _]; [discriminate H|].
  destruct (N.eqb_spec TAB c) as [<- | _]; [discriminate H|].
  reflexivity.
Qed.

Lemma fullwidth_is_no_blank :
  forall c, List.In c fullwidth_punctuation -> is_blank c = false.
Proof.
  intros c H. cbn in H.
  repeat (destruct H as [<- | H]; [reflexivity|]). contradiction.
Qed.

(** *** Blanks before a mark *)

Section BlanksBefore.

Variable U : ucd.
Variable marks : str.
Hypothesis marks_no_blank : forall c, List.In c marks -> is_blank c = false.

Lemma matches_plus_nonempty :
  forall ignorecase greedy lo hi r prev w next gs gs',
    matches U ignorecase (Rep greedy (S lo) hi r) prev w next gs gs' ->
    w <> [].
Proof.
  intros ignorecase greedy lo hi r prev w next gs gs' H.
  inversion H; subst. destruct w1; [contradiction | discriminate].
Qed.

Lemma blanks_before_shape :
  forall prev w next gs,
    matches U false
      (cats [plus (OneOf blank); Group 1 (OneOf (chars marks))])
      prev w next [] gs ->
    exists bl p,
      w = bl ++ [p] /\ bl <> [] /\ forallb is_blank bl = true
      /\ List.In p marks /\ group gs 1 = [p].
Proof.
  intros prev w next gs H. unfold cats in H. cbn [fold_right] in H.
  apply matches_cat_inv in H. destruct H as (w1 & w2 & gs1 & -> & H1 & H).
  apply matches_cat_inv in H. destruct H as (w3 & w4 & gs2 & -> & H2 & H).
  apply matches_eps_inv in H. destruct H as [-> ->].
  pose proof (matches_plus_nonempty H1) as Hne.
  apply matches_class_run in H1. destruct H1 as [Hbl ->].
  apply matches_group_inv in H2. destruct H2 as (g & -> & H2).
  apply matches_one_of_inv in H2. destruct H2 as (p & -> & Hp & ->).
  exists w1, p. split; [reflexivity|]. split; [exact Hne|].
  split; [rewrite <- Hbl; apply forallb_same; intro c; symmetry;
          apply in_set_blank|].
  split; [apply (in_set_chars U); exact Hp | reflexivity].
Qed.

Lemma blanks_before_matches :
  forall prev bl p next,
    bl <> [] -> forallb is_blank bl = true -> List.In p marks ->
    matches U false
      (cats [plus (OneOf blank); Group 1 (OneOf (chars marks))])
      prev (bl ++ [p]) next [] [(1, [p])].
Proof.
  intros prev bl p next Hne Hbl Hp. unfold cats. cbn [fold_right].
  change (bl ++ [p]) with (bl ++ [p] ++ []).
  apply matches_cat with (gs1 := []).
  - apply class_run_matches.
    + rewrite <- Hbl. apply forallb_same. intro c. apply in_set_blank.
    + destruct bl; [contradiction | cbn [length]; lia].
  - apply matches_cat with (gs1 := [(1, [p])]).
    + constructor. constructor. apply (in_set_chars U). exact Hp.
    + constructor.
Qed.

Lemma blanks_before_seen :
  forall prev bl p s,
    bl <> [] -> forallb is_blank bl = true -> List.In p marks ->
    ~ no_match_at U false
        (cats [plus (OneOf blank); Group 1 (OneOf (chars marks))])
        prev ((bl ++ [p]) ++ s).
Proof.
  intros prev bl p s Hne Hbl Hp.
  apply (@matched_is_seen U false _ prev (bl ++ [p]) s [(1, [p])]).
  - apply blanks_before_matches; assumption.
  - intros prev' w' next' gs' H. apply blanks_before_shape in H.
    destruct H as (bl' & p' & -> & _). destruct bl'; discriminate.
Qed.

(** The pass that takes the blanks before a mark away leaves no blank
    directly before a mark. *)
Lemma blanks_before_rewrites :
  forall prev s o,
    rewrites U false
      (cats [plus (OneOf blank); Group 1 (OneOf (chars marks))])
      (fun m => group m 1) prev s o ->
    chain (fun x y => ~ (is_blank x = true /\ List.In y marks)) o
    /\ (forall y, hd_error o = Some y -> List.In y marks ->
        forall prev' c,
          is_blank c = true ->
          ~ no_match_at U false
              (cats [plus (OneOf blank); Group 1 (OneOf (chars marks))])
              prev' (c :: s)).
Proof.
  intros prev s o H.
  induction H as [prev | prev c s o Hno H [IHc IHh]
                 | prev w s gs o Hw Hm H [IHc IHh]].
  - split; [exact I | discriminate].
  - split.
    + apply chain_cons. split; [|exact IHc].
      intros y Hy [Hc Hm]. apply (IHh y Hy Hm prev c Hc). exact Hno.
    + intros y Hy Hm prev' c0 Hc0. injection Hy as <-.
      apply (@blanks_before_seen prev' [c0] c s); try assumption.
      * discriminate.
      * cbn [forallb]. rewrite Hc0. reflexivity.
  - apply match_at_matches in Hm. apply blanks_before_shape in Hm.
    destruct Hm as (bl & p & -> & Hne & Hbl & Hp & ->).
    cbn [app]. split.
    + apply chain_cons. split; [|exact IHc].
      intros y _ [Hb _]. rewrite (marks_no_blank p Hp) in Hb. discriminate.
    + intros y Hy Hm prev' c0 Hc0.
      change (c0 :: (bl ++ [p]) ++ s) with (((c0 :: bl) ++ [p]) ++ s).
      apply blanks_before_seen; try assumption.
      * discriminate.
      * cbn [forallb]. rewrite Hc0. exact Hbl.
Qed.

(** Its replacements have solid ends. *)
Lemma blanks_before_solid :
  forall prev (w s : str) gs,
    w <> [] ->
    match_at U false
      (cats [plus (OneOf blank); Group 1 (OneOf (chars marks))])
      prev (w ++ s) = Some (length w, gs) ->
    exists p, group gs 1 = [p] /\ List.In p marks.
Proof.
  intros prev w s gs _ Hm.
  apply match_at_matches in Hm. apply blanks_before_shape in Hm.
  destruct Hm as (bl & p & _ & _ & _ & Hp & E). exists p. auto.
Qed.

End BlanksBefore.

(** *** The lines [clean_spacing] returns *)

Lemma solid_single :
  forall p,
    is_blank p = false ->
    [p] <> []
    /\ chain (fun x y => ~ (is_blank x = true /\ is_blank y = true)) [p]
    /\ (forall y, hd_error [p] = Some y -> is_blank y = false)
    /\ (forall y, last_char None [p] = Some y -> is_blank y = false).
Proof.
  intros p Hp. split; [discriminate|]. split; [exact I|].
  split; intros y Hy; injection Hy as <-; exact Hp.
Qed.

Lemma solid_triple :
  forall p l,
    is_blank p = false -> is_blank l = false ->
    [p; SPACE; l] <> []
    /\ chain (fun x y => ~ (is_blank x = true /\ is_blank y = true))
         [p; SPACE; l]
    /\ (forall y, hd_error [p; SPACE; l] = Some y -> is_blank y = false)
    /\ (forall y, last_char None [p; SPACE; l] = Some y -> is_blank y = false).
Proof.
  intros p l Hp Hl. split; [discriminate|]. split; [|split].
  - cbn [chain]. split; [|split; [|exact I]].
    + intros [H _]. congruence.
    + intros [_ H]. congruence.
  - intros y Hy. injection Hy as <-. exact Hp.
  - intros y Hy. injection Hy as <-. exact Hl.
Qed.

Section CleanLines.

Variable U : ucd.

Lemma punct_then_letter_solid :
  forall prev (w s : str) gs,
    w <> [] ->
    match_at U false punct_then_letter prev (w ++ s) = Some (length w, gs) ->
    exists p l,
      group gs 1 ++ py " " ++ group gs 2 = [p; SPACE; l]
      /\ is_blank p = false /\ is_blank l = false.
Proof.
  intros prev w s gs _ Hm.
  apply match_at_matches in Hm. apply punct_then_letter_shape in Hm.
  destruct Hm as (p & l & _ & Hp & Hl & -> & ->).
  exists p, l. split; [reflexivity|].
  split; [apply punctuation_is_no_blank; exact Hp
         | apply letter_is_no_blank; exact Hl].
Qed.

(** The last pass of an English line puts no blank before a mark. *)
Lemma punct_then_letter_keeps :
  forall prev s o,
    rewrites U false punct_then_letter
      (fun m => group m 1 ++ py " " ++ group m 2) prev s o ->
    chain (fun x y => ~ (is_blank x = true /\ List.In y punctuation)) s ->
    chain (fun x y => ~ (is_blank x = true /\ List.In y punctuation)) o.
Proof.
  intros prev s o H.
  induction H as [prev | prev c s o Hno H IH | prev w s gs o Hw Hm H IH];
    intro Hs.
  - exact I.
  - apply chain_cons in Hs. destruct Hs as [Hc Hs].
    apply chain_cons. split; [|apply IH; exact Hs].
    intros y Hy. apply Hc.
    destruct (@punct_then_letter_rewrites U _ _ _ H) as [Hh _].
    rewrite <- Hh. exact Hy.
  - apply match_at_matches in Hm. apply punct_then_letter_shape in Hm.
    destruct Hm as (p & l & -> & Hp & Hl & -> & ->).
    change ([p] ++ py " " ++ [l]) with [p; SPACE; l]. cbn [app].
    apply chain_cons. split.
    { intros y Hy [_ Hin]. injection Hy as <-.
      apply punctuation_is_no_blank in Hin. discriminate Hin. }
    apply chain_cons. split.
    { intros y Hy [_ Hin]. injection Hy as <-.
      apply punctuation_is_no_letter in Hin. congruence. }
    apply chain_cons. split.
    { intros y _ [Hb _]. apply letter_is_no_blank in Hl. congruence. }
    apply IH. apply (@chain_app_r _ [p; l] s). exact Hs.
Qed.

(** No line has two blanks in a row. *)
Lemma clean_line_blanks :
  forall lang line,
    chain (fun x y => ~ (is_blank x = true /\ is_blank y = true))
      (clean_line U lang line).
Proof.
  intros lang line. unfold clean_line.
  destruct (negb (truthy (strip line))); [exact I|].
  apply chain_strip. destruct (is_chinese lang).
  - match goal with
    | |- chain _ (re_sub _ _ ?r ?f ?s) =>
        refine (proj1 (@solid_rewrites U false r f _ None s _
                         (re_sub_rewrites U false r f s) _))
    end.
    + intros prev w s gs Hw Hm.
      destruct (@blanks_before_solid U fullwidth_punctuation prev w s gs Hw Hm)
        as (p & -> & Hp).
      apply solid_single. apply fullwidth_is_no_blank. exact Hp.
    + match goal with
      | |- chain _ (re_sub _ _ _ ?f ?s) =>
          apply (@blank_runs_rewrites U 2 (conj (le_S _ _ (le_n 1)) (le_n 2))
                   None s _ (re_sub_rewrites U false blanks2 f s))
      end.
  - match goal with
    | |- chain _ (re_sub _ _ ?r ?f ?s) =>
        refine (proj1 (@solid_rewrites U false r f _ None s _
                         (re_sub_rewrites U false r f s) _))
    end.
    + intros prev w s gs Hw Hm.
      destruct (@punct_then_letter_solid prev w s gs Hw Hm)
        as (p & l & -> & Hp & Hl).
      apply solid_triple; assumption.
    + match goal with
      | |- chain _ (re_sub _ _ ?r ?f ?s) =>
          refine (proj1 (@solid_rewrites U false r f _ None s _
                           (re_sub_rewrites U false r f s) _))
      end.
      * intros prev w s gs Hw Hm.
        destruct (@blanks_before_solid U punctuation prev w s gs Hw Hm)
          as (p & -> & Hp).
        apply solid_single. apply punctuation_is_no_blank. exact Hp.
      * match goal with
        | |- chain _ (re_sub _ _ _ ?f ?s) =>
            apply (@blank_runs_rewrites U 1 (conj (le_n 1) (le_S _ _ (le_n 1)))
                     None s _ (re_sub_rewrites U false blanks f s))
        end.
Qed.

(** An English line has no tab. *)
Lemma clean_line_no_tab :
  forall lang line,
    is_chinese lang = false -> ~ List.In TAB (clean_line U lang line).
Proof.
  intros lang line Hl. unfold clean_line. rewrite Hl.
  destruct (negb (truthy (strip line))); [intros []|].
  intro Hin. apply (@subsequence_in _ _ _ TAB (strip_subsequence _)) in Hin.
  match type of Hin with
  | List.In TAB ?s => enough (HF : Forall (fun c => c <> TAB) s)
  end.
  { rewrite Forall_forall in HF. exact (HF TAB Hin eq_refl). }
  clear Hin.
  match goal with
  | |- Forall _ (re_sub _ _ ?p ?f ?t) =>
      refine (@kept_rewrites U false p f (fun c => c <> TAB) _ None t _
                (re_sub_rewrites U false p f t) _)
  end.
  { intros prev w s gs Hw Hm.
    destruct (@punct_then_letter_solid prev w s gs Hw Hm)
      as (p & l & -> & Hp & Hl').
    apply Forall_cons; [intros ->; discriminate|].
    apply Forall_cons; [discriminate|].
    apply Forall_cons; [intros ->; discriminate | apply Forall_nil]. }
  match goal with
  | |- Forall _ (re_sub _ _ ?p ?f ?t) =>
      refine (@kept_rewrites U false p f (fun c => c <> TAB) _ None t _
                (re_sub_rewrites U false p f t) _)
  end.
  { intros prev w s gs Hw Hm.
    destruct (@blanks_before_solid U punctuation prev w s gs Hw Hm)
      as (p & -> & Hp).
    apply Forall_cons; [|apply Forall_nil]. intros ->.
    apply punctuation_is_no_blank in Hp. discriminate. }
  apply Forall_forall. intros c Hc ->. revert Hc.
  match goal with
  | |- List.In TAB (re_sub _ _ _ ?f ?s) -> False =>
      apply (@blank_runs_rewrites U 1 (conj (le_n 1) (le_S _ _ (le_n 1)))
               None s _ (re_sub_rewrites U false blanks f s))
  end.
  reflexivity.
Qed.

(** No line has a blank directly before a mark of its language. *)
Lemma clean_line_marks :
  forall lang line,
    chain (fun x y =>
             ~ (is_blank x = true
                /\ List.In y (if is_chinese lang then fullwidth_punctuation
                              else punctuation)))
      (clean_line U lang line).
Proof.
  intros lang line. unfold clean_line.
  destruct (negb (truthy (strip line))); [exact I|].
  apply chain_strip. destruct (is_chinese lang).
  - match goal with
    | |- chain _ (re_sub _ _ ?r ?f ?s) =>
        apply (@blanks_before_rewrites U fullwidth_punctuation
                 fullwidth_is_no_blank None s _
                 (re_sub_rewrites U false r f s))
    end.
  - match goal with
    | |- chain _ (re_sub _ _ ?r ?f ?s) =>
        apply (@punct_then_letter_keeps None s _
                 (re_sub_rewrites U false r f s))
    end.
    match goal with
    | |- chain _ (re_sub _ _ ?r ?f ?s) =>
        apply (@blanks_before_rewrites U punctuation
                 punctuation_is_no_blank None s _
                 (re_sub_rewrites U false r f s))
    end.
Qed.

Lemma clean_spacing_blanks :
  forall text lang,
    chain (fun x y => ~ (is_blank x = true /\ is_blank y = true))
      (clean_spacing U text lang).
Proof.
  intros text lang. unfold clean_spacing. apply chain_strip.
  apply chain_join.
  - intros x [_ H]. discriminate H.
  - intros y [H _]. discriminate H.
  - apply Forall_forall. intros l Hin. apply in_map_iff in Hin.
    destruct Hin as (line & <- & _). apply clean_line_blanks.
Qed.

Lemma clean_spacing_no_tab :
  forall text lang,
    is_chinese lang = false -> ~ List.In TAB (clean_spacing U text lang).
Proof.
  intros text lang Hl Hin. unfold clean_spacing in Hin.
  apply (@subsequence_in _ _ _ TAB (strip_subsequence _)) in Hin.
  apply in_join in Hin. destruct Hin as [[E | []] | (p & Hp & Hin)].
  - discriminate E.
  - apply in_map_iff in Hp. destruct Hp as (line & <- & _).
    revert Hin. apply clean_line_no_tab. exact Hl.
Qed.

Lemma clean_spacing_marks :
  forall text lang,
    chain (fun x y =>
             ~ (is_blank x = true
                /\ List.In y (if is_chinese lang then fullwidth_punctuation
                              else punctuation)))
      (clean_spacing U text lang).
Proof.
  intros text lang. unfold clean_spacing. apply chain_strip.
  apply chain_join.
  - intros x [_ H]. destruct (is_chinese lang); cbn in H;
      repeat (destruct H as [H | H]; [discriminate H|]); contradiction.
  - intros y [H _]. discriminate H.
  - apply Forall_forall. intros l Hin. apply in_map_iff in Hin.
    destruct Hin as (line & <- & _). apply clean_line_marks.
Qed.

End CleanLines.

(** Whatever the language, the text [clean_spacing] returns has no two
    blanks, spaces or tabs, in a row. *)
Theorem clean_spacing_leaves_no_blank_run :
  forall U text lang x y,
    is_blank x = true -> is_blank y = true ->
    ~ adjacent x y (clean_spacing U text lang).
Proof.
  intros U text lang x y Hx Hy Ha.
  apply (@chain_adjacent _ _ x y (clean_spacing_blanks U text lang) Ha).
  split; assumption.
Qed.

Lemma clean_spacing_leaves_no_blank_run_example :
  ~ adjacent SPACE SPACE
      (clean_spacing ascii_tables (py "one   two") lang_en).
Proof.
  apply (@clean_spacing_leaves_no_blank_run ascii_tables (py "one   two")
           lang_en SPACE SPACE); reflexivity.
Defined.

(** For a language other than the two Chinese ones, the text [clean_spacing]
    returns has no tab. *)
Theorem clean_spacing_leaves_no_tab :
  forall U text lang,
    is_chinese lang = false -> ~ List.In TAB (clean_spacing U text lang).
Proof.
  intros U text lang Hl. apply clean_spacing_no_tab. exact Hl.
Qed.

Lemma clean_spacing_leaves_no_tab_example :
  ~ List.In TAB (clean_spacing ascii_tables (TAB :: py "one" ++ TAB :: py "two")
                   lang_en).
Proof.
  apply (@clean_spacing_leaves_no_tab ascii_tables
           (TAB :: py "one" ++ TAB :: py "two") lang_en).
  reflexivity.
Defined.

(** The text [clean_spacing] returns has no blank directly before a
    punctuation mark of the language: the full-width marks for the two
    Chinese languages, [,.!?;:] for every other one. *)
Theorem clean_spacing_leaves_no_blank_before_a_mark :
  forall U text lang x y,
    is_blank x = true ->
    List.In y (if is_chinese lang then fullwidth_punctuation
               else punctuation) ->
    ~ adjacent x y (clean_spacing U text lang).
Proof.
  intros U text lang x y Hx Hy Ha.
  apply (@chain_adjacent _ _ x y (clean_spacing_marks U text lang) Ha).
  split; assumption.
Qed.

Lemma clean_spacing_leaves_no_blank_before_a_mark_example :
  ~ adjacent SPACE 44%N
      (clean_spacing ascii_tables (py "one , two") lang_en).
Proof.
  apply (@clean_spacing_leaves_no_blank_before_a_mark ascii_tables
           (py "one , two") lang_en SPACE 44%N); [reflexivity|].
  cbn. left. reflexivity.
Defined.

(** For a language other than the two Chinese ones, the text [clean_spacing]
    returns has no ASCII letter directly behind one of the marks [,.!?;:]. *)
Theorem clean_spacing_parts_marks_and_letters :
  forall U text lang x y,
    is_chinese lang = false ->
    List.In x punctuation -> ascii_letter y = true ->
    ~ adjacent x y (clean_spacing U text lang).
Proof.
  intros U text lang x y Hl Hx Hy Ha.
  apply (@chain_adjacent _ _ x y
           (@clean_spacing_punctuation U text lang Hl) Ha).
  split; assumption.
Qed.

Lemma clean_spacing_parts_marks_and_letters_example :
  ~ adjacent 44%N 116%N
      (clean_spacing ascii_tables (py "one,two") lang_en).
Proof.
  apply (@clean_spacing_parts_marks_and_letters ascii_tables (py "one,two")
           lang_en 44%N 116%N); [reflexivity | | reflexivity].
  cbn. left. reflexivity.
Defined.

(** *** Capitals *)

Section Pointwise.

Variable U : ucd.
Variable ignorecase : bool.
Variable r : regex.
Variable repl : list (nat * str) -> str.
Variable Rel : char -> char -> Prop.

Hypothesis Rel_refl : forall a, Rel a a.

(** Every replacement has the length of what it replaces, and is related
    to it character by character. *)
Hypothesis repl_related :
  forall prev (w s : str) gs,
    w <> [] ->
    match_at U ignorecase r prev (w ++ s) = Some (length w, gs) ->
    Forall2 Rel w (repl gs).

Lemma pointwise_rewrites :
  forall prev s o, rewrites U ignorecase r repl prev s o -> Forall2 Rel s o.
Proof.
  intros prev s o H.
  induction H as [prev | prev c s o Hno H IH | prev w s gs o Hw Hm H IH].
  - constructor.
  - constructor; [apply Rel_refl | exact IH].
  - apply Forall2_app; [|exact IH]. apply (@repl_related prev w s gs Hw Hm).
Qed.

End Pointwise.

Lemma capital_or_same_refl : forall a, capital_or_same a a.
Proof. intro a. left. reflexivity. Qed.

Lemma capital_or_same_trans :
  forall a b c,
    capital_or_same a b -> capital_or_same b c -> capital_or_same a c.
Proof.
  intros a b c [-> | [Ha ->]] [-> | [Hb ->]].
  - left. reflexivity.
  - right. split; [exact Hb | reflexivity].
  - right. split; [exact Ha | reflexivity].
  - exfalso. revert Ha Hb. unfold ascii_upper, ascii_islower, in_range.
    intro Ha. rewrite Ha. intro Hb.
    apply andb_true_iff in Ha. apply andb_true_iff in Hb.
    destruct Ha as [Ha1 Ha2]. destruct Hb as [Hb1 Hb2].
    apply N.leb_le in Ha1, Ha2, Hb1, Hb2. lia.
Qed.

Lemma Forall2_refl_on :
  forall {A : Type} (R : A -> A -> Prop) (xs : list A),
    (forall a, R a a) -> Forall2 R xs xs.
Proof.
  intros A R xs H. induction xs; constructor; [apply H | assumption].
Qed.

Lemma Forall2_trans_on :
  forall {A : Type} (R : A -> A -> Prop) (xs ys zs : list A),
    (forall a b c, R a b -> R b c -> R a c) ->
    Forall2 R xs ys -> Forall2 R ys zs -> Forall2 R xs zs.
Proof.
  intros A R xs ys zs Ht H. revert zs.
  induction H as [|x y xs ys Hxy H IH]; intros zs Hz; inversion Hz; subst.
  - constructor.
  - constructor; [eapply Ht; eassumption | apply IH; assumption].
Qed.

Lemma ascii_islower_is_ascii :
  forall c, ascii_islower c = true -> is_ascii c = true.
Proof.
  intros c H. unfold ascii_islower, in_range in H. unfold is_ascii.
  apply andb_true_iff in H. destruct H as [_ H]. apply N.leb_le in H.
  apply N.ltb_lt. lia.
Qed.

Section Capitals.

Variable U : ucd.

Lemma matches_lit_inv :
  forall ignorecase c prev w next gs gs',
    matches U ignorecase (Lit c) prev w next gs gs' ->
    exists x, w = [x] /\ lit_matches U ignorecase c x = true /\ gs' = gs.
Proof.
  intros ignorecase c prev w next gs gs' H. inversion H; subst.
  eexists. repeat split. assumption.
Qed.

Lemma matches_word_boundary_inv :
  forall ignorecase prev w next gs gs',
    matches U ignorecase WordB prev w next gs gs' ->
    w = [] /\ gs' = gs
    /\ at_boundary U {| ms_prev := prev; ms_rest := next; ms_groups := gs |}
       = true.
Proof.
  intros ignorecase prev w next gs gs' H. inversion H; subst. auto.
Qed.

Lemma sentence_start_shape :
  forall prev w next gs,
    matches U false sentence_start prev w next [] gs ->
    exists p ws l,
      w = p :: ws ++ [l] /\ List.In p (py ".!?") /\ ws <> []
      /\ forallb isspace ws = true /\ ascii_islower l = true
      /\ group gs 1 = p :: ws /\ group gs 2 = [l].
Proof.
  intros prev w next gs H. unfold sentence_start, cats in H.
  cbn [fold_right] in H.
  apply matches_cat_inv in H. destruct H as (w1 & w2 & gs1 & -> & H1 & H).
  apply matches_cat_inv in H. destruct H as (w3 & w4 & gs2 & -> & H2 & H).
  apply matches_eps_inv in H. destruct H as [-> ->].
  apply matches_group_inv in H1. destruct H1 as (g1 & -> & H1).
  apply matches_cat_inv in H1. destruct H1 as (a & b & g & -> & Ha & Hb).
  apply matches_one_of_inv in Ha. destruct Ha as (p & -> & Hp & ->).
  apply matches_cat_inv in Hb. destruct Hb as (ws & e & g' & -> & Hws & He).
  apply matches_eps_inv in He. destruct He as [-> ->].
  pose proof (matches_plus_nonempty Hws) as Hne.
  apply matches_class_run in Hws. destruct Hws as [Hws ->].
  apply matches_group_inv in H2. destruct H2 as (g2 & -> & H2).
  apply matches_one_of_inv in H2. destruct H2 as (l & -> & Hl & ->).
  exists p, ws, l. rewrite !app_nil_r. cbn [app].
  split; [reflexivity|].
  split; [apply (in_set_chars U); exact Hp|].
  split; [exact Hne|].
  split.
  { rewrite <- Hws. apply forallb_same. intro c. unfold in_set.
    cbn [existsb item_matches]. rewrite orb_false_r. reflexivity. }
  split.
  { unfold in_set in Hl. cbn [existsb item_matches] in Hl.
    rewrite orb_false_r in Hl. exact Hl. }
  split; reflexivity.
Qed.

Lemma lone_i_shape :
  forall prev w next gs,
    matches U false lone_i prev w next [] gs -> w = [105%N].
Proof.
  intros prev w next gs H. unfold lone_i, cats in H. cbn [fold_right] in H.
  apply matches_cat_inv in H. destruct H as (w1 & w2 & gs1 & -> & H1 & H).
  apply matches_cat_inv in H. destruct H as (w3 & w4 & gs2 & -> & H2 & H).
  apply matches_cat_inv in H. destruct H as (w5 & w6 & gs3 & -> & H3 & H).
  apply matches_eps_inv in H. destruct H as [-> ->].
  apply matches_word_boundary_inv in H1. destruct H1 as (-> & _).
  apply matches_word_boundary_inv in H3. destruct H3 as (-> & _).
  apply matches_lit_inv in H2. destruct H2 as (x & -> & Hx & _).
  change (N.eqb 105 x = true) in Hx. apply N.eqb_eq in Hx. subst x.
  reflexivity.
Qed.

Lemma i_apostrophe_shape :
  forall prev w next gs,
    matches U false i_apostrophe prev w next [] gs -> w = [105%N; 39%N].
Proof.
  intros prev w next gs H. unfold i_apostrophe, cats in H.
  cbn [fold_right] in H.
  apply matches_cat_inv in H. destruct H as (w1 & w2 & gs1 & -> & H1 & H).
  apply matches_cat_inv in H. destruct H as (w3 & w4 & gs2 & -> & H2 & H).
  apply matches_cat_inv in H. destruct H as (w5 & w6 & gs3 & -> & H3 & H).
  apply matches_eps_inv in H. destruct H as [-> ->].
  apply matches_word_boundary_inv in H1. destruct H1 as (-> & _).
  apply matches_lit_inv in H2. destruct H2 as (x & -> & Hx & _).
  apply matches_lit_inv in H3. destruct H3 as (y & -> & Hy & _).
  change (N.eqb 105 x = true) in Hx. change (N.eqb 39 y = true) in Hy.
  apply N.eqb_eq in Hx, Hy. subst x y. reflexivity.
Qed.

(** The three substitutions of [fix_capitalization] change nothing but
    ASCII lower-case letters, into their capitals. *)
Lemma sentence_start_capitals :
  forall s,
    Forall2 capital_or_same s
      (re_sub U false sentence_start
         (fun m => group m 1 ++ upper U (group m 2)) s).
Proof.
  intro s.
  match goal with
  | |- Forall2 _ _ (re_sub _ _ ?p ?f _) =>
      refine (@pointwise_rewrites U false p f capital_or_same
                capital_or_same_refl _ None s _
                (re_sub_rewrites U false p f s))
  end.
  intros prev w t gs _ Hm.
  apply match_at_matches in Hm. apply sentence_start_shape in Hm.
  destruct Hm as (p & ws & l & -> & _ & _ & _ & Hl & -> & ->).
  unfold upper. cbn [flat_map]. unfold upper1.
  rewrite (ascii_islower_is_ascii l Hl). rewrite app_nil_r.
  change (p :: ws ++ [l]) with ((p :: ws) ++ [l]).
  apply Forall2_app.
  - apply Forall2_refl_on. apply capital_or_same_refl.
  - constructor; [|constructor]. right. split; [exact Hl | reflexivity].
Qed.

Lemma lone_i_capitals :
  forall s,
    Forall2 capital_or_same s (re_sub U false lone_i (fun _ => py "I") s).
Proof.
  intro s.
  match goal with
  | |- Forall2 _ _ (re_sub _ _ ?p ?f _) =>
      refine (@pointwise_rewrites U false p f capital_or_same
                capital_or_same_refl _ None s _
                (re_sub_rewrites U false p f s))
  end.
  intros prev w t gs _ Hm.
  apply match_at_matches in Hm. apply lone_i_shape in Hm. subst w.
  constructor; [|constructor]. right. split; reflexivity.
Qed.

Lemma i_apostrophe_capitals :
  forall s,
    Forall2 capital_or_same s
      (re_sub U false i_apostrophe (fun _ => py "I'") s).
Proof.
  intro s.
  match goal with
  | |- Forall2 _ _ (re_sub _ _ ?p ?f _) =>
      refine (@pointwise_rewrites U false p f capital_or_same
                capital_or_same_refl _ None s _
                (re_sub_rewrites U false p f s))
  end.
  intros prev w t gs _ Hm.
  apply match_at_matches in Hm. apply i_apostrophe_shape in Hm. subst w.
  constructor; [|constructor; [|constructor]].
  - right. split; reflexivity.
  - left. reflexivity.
Qed.

Lemma capital_passes :
  forall t,
    Forall2 capital_or_same t
      (re_sub U false i_apostrophe (fun _ => py "I'")
         (re_sub U false lone_i (fun _ => py "I")
            (re_sub U false sentence_start
               (fun m => group m 1 ++ upper U (group m 2)) t))).
Proof.
  intro t.
  eapply Forall2_trans_on;
    [exact capital_or_same_trans | apply sentence_start_capitals|].
  eapply Forall2_trans_on;
    [exact capital_or_same_trans | apply lone_i_capitals|].
  apply i_apostrophe_capitals.
Qed.

Lemma fix_capitalization_capitals :
  forall text lang,
    (forall c, hd_error text = Some c ->
               is_ascii c = true \/ islower1 U c = false) ->
    exists out,
      fix_capitalization U text lang = Ok out
      /\ Forall2 capital_or_same text out.
Proof.
  intros text lang Hfirst. unfold fix_capitalization.
  rewrite config_for_cases. cbn [bind].
  destruct (cfg_fix_capitalization _); cbn [negb].
  2:{ eexists. split; [reflexivity|].
      apply Forall2_refl_on, capital_or_same_refl. }
  assert (Hrest : forall t,
    Forall2 capital_or_same text t ->
    Forall2 capital_or_same text
      (re_sub U false i_apostrophe (fun _ => py "I'")
         (re_sub U false lone_i (fun _ => py "I")
            (re_sub U false sentence_start
               (fun m => group m 1 ++ upper U (group m 2)) t)))).
  { intros t Ht.
    eapply Forall2_trans_on; [exact capital_or_same_trans | exact Ht|].
    apply capital_passes. }
  destruct text as [|c text];
    cbn [truthy is_empty negb index nth_error bind].
  - eexists. split; [reflexivity|]. apply Hrest. constructor.
  - destruct (islower1 U c) eqn:El; cbn [bind].
    + destruct (Hfirst c eq_refl) as [Ha | Hn]; [|congruence].
      eexists. split; [reflexivity|]. apply Hrest.
      unfold upper1. rewrite Ha. unfold islower1 in El. rewrite Ha in El.
      cbn [app slice_from skipn]. constructor.
      * right. split; [exact El | reflexivity].
      * apply Forall2_refl_on, capital_or_same_refl.
    + eexists. split; [reflexivity|]. apply Hrest.
      apply Forall2_refl_on, capital_or_same_refl.
Qed.

Lemma english_fixes_capitals :
  forall lang,
    is_chinese lang = false ->
    exists config,
      config_for lang = Ok config /\ cfg_fix_capitalization config = true.
Proof.
  intros lang H. rewrite config_for_cases. unfold is_chinese in H.
  cbn [existsb] in H. apply orb_false_iff in H. destruct H as [-> H].
  apply orb_false_iff in H. destruct H as [-> _].
  eexists. split; [reflexivity|]. destruct (str_eqb lang lang_en); reflexivity.
Qed.

Lemma fix_capitalization_first :
  forall c rest lang,
    is_chinese lang = false ->
    ascii_islower c = true ->
    exists rest',
      fix_capitalization U (c :: rest) lang = Ok (ascii_upper c :: rest')
      /\ Forall2 capital_or_same rest rest'.
Proof.
  intros c rest lang Hlang Hc. unfold fix_capitalization.
  destruct (english_fixes_capitals lang Hlang) as (config & -> & Hflag).
  cbn [bind]. rewrite Hflag.
  cbn [negb truthy is_empty index nth_error bind].
  unfold islower1, upper1. rewrite (ascii_islower_is_ascii c Hc), Hc.
  cbn [bind app slice_from skipn].
  pose proof (capital_passes (ascii_upper c :: rest)) as H.
  inversion H as [|a b t t' Hab Ht Ea Eb]; subst.
  exists t'. split; [|exact Ht]. f_equal. f_equal.
  destruct Hab as [-> | [Hlow _]]; [reflexivity|].
  exfalso. revert Hlow. unfold ascii_upper. rewrite Hc.
  unfold ascii_islower, in_range in *.
  apply andb_true_iff in Hc. destruct Hc as [H1 H2].
  apply N.leb_le in H1, H2. intro Hlow.
  apply andb_true_iff in Hlow. destruct Hlow as [H3 H4].
  apply N.leb_le in H3, H4. lia.
Qed.

End Capitals.

(** [fix_capitalization] changes nothing but the case of ASCII letters: its
    result has the length of the text, and every character of it is the
    character of the text at the same place, or its capital where that is an
    ASCII lower-case letter.  (The first character is set aside where it is
    a lower-case letter beyond ASCII: its capital may be longer.) *)
Theorem fix_capitalization_changes_case_only :
  forall U text lang,
    (forall c, hd_error text = Some c ->
               is_ascii c = true \/ islower1 U c = false) ->
    exists out,
      fix_capitalization U text lang = Ok out
      /\ Forall2 capital_or_same text out.
Proof.
  intros U text lang H. apply fix_capitalization_capitals. exact H.
Qed.

Lemma fix_capitalization_changes_case_only_example :
  exists out,
    fix_capitalization ascii_tables (py "well. i'm here") lang_en = Ok out
    /\ Forall2 capital_or_same (py "well. i'm here") out.
Proof.
  apply (@fix_capitalization_changes_case_only ascii_tables
           (py "well. i'm here") lang_en).
  intros c H. injection H as <-. left. reflexivity.
Defined.

(** For a language other than the two Chinese ones, a text that begins with
    an ASCII lower-case letter comes back with the capital of that letter
    first. *)
Theorem fix_capitalization_capitalizes_the_first_letter :
  forall U c rest lang,
    is_chinese lang = false ->
    ascii_islower c = true ->
    exists rest',
      fix_capitalization U (c :: rest) lang = Ok (ascii_upper c :: rest')
      /\ Forall2 capital_or_same rest rest'.
Proof.
  intros U c rest lang Hl Hc. apply fix_capitalization_first; assumption.
Qed.

Lemma fix_capitalization_capitalizes_the_first_letter_example :
  exists rest',
    fix_capitalization ascii_tables (104%N :: py "ello") lang_en
    = Ok (ascii_upper 104%N :: rest')
    /\ Forall2 capital_or_same (py "ello") rest'.
Proof.
  apply (@fix_capitalization_capitalizes_the_first_letter ascii_tables
           104%N (py "ello") lang_en); reflexivity.
Defined.

(** *** Sentences that begin with a small letter *)

Ltac split_ranges H :=
  repeat match type of H with
         | (_ || _) = true =>
             apply orb_true_iff in H; destruct H as [H | H]
         end;
  try (unfold in_range in H; apply andb_true_iff in H;
       let H1 := fresh in let H2 := fresh in
       destruct H as [H1 H2]; apply N.leb_le in H1, H2);
  try (apply N.eqb_eq in H).

Lemma space_no_capital :
  forall c, isspace c = true -> ascii_isupper c = false.
Proof.
  intros c H. destruct (ascii_isupper c) eqn:E; [exfalso|reflexivity].
  unfold ascii_isupper, in_range in E. apply andb_true_iff in E.
  destruct E as [E1 E2]. apply N.leb_le in E1, E2.
  unfold isspace in H. split_ranges H; lia.
Qed.

Lemma space_no_small :
  forall c, isspace c = true -> ascii_islower c = false.
Proof.
  intros c H. destruct (ascii_islower c) eqn:E; [exfalso|reflexivity].
  unfold ascii_islower, in_range in E. apply andb_true_iff in E.
  destruct E as [E1 E2]. apply N.leb_le in E1, E2.
  unfold isspace in H. split_ranges H; lia.
Qed.

Lemma small_no_capital :
  forall c, ascii_islower c = true -> ascii_isupper c = false.
Proof.
  intros c H. destruct (ascii_isupper c) eqn:E; [exfalso|reflexivity].
  unfold ascii_isupper, ascii_islower, in_range in *.
  apply andb_true_iff in E, H. destruct E as [E1 E2]. destruct H as [H1 H2].
  apply N.leb_le in E1, E2, H1, H2. lia.
Qed.

Lemma capital_of_small :
  forall c, ascii_islower c = true -> ascii_isupper (ascii_upper c) = true.
Proof.
  intros c H. unfold ascii_upper. rewrite H.
  unfold ascii_isupper, ascii_islower, in_range in *.
  apply andb_true_iff in H. destruct H as [H1 H2]. apply N.leb_le in H1, H2.
  apply andb_true_iff. split; apply N.leb_le; lia.
Qed.

Lemma sentence_mark_plain :
  forall c,
    List.In c (py ".!?") ->
    ascii_isupper c = false /\ isspace c = false.
Proof.
  intros c H. cbn in H.
  repeat (destruct H as [<- | H]; [split; reflexivity|]). contradiction.
Qed.

Lemma capital_or_same_plain :
  forall a b, capital_or_same a b -> ascii_isupper b = false -> a = b.
Proof.
  intros a b [-> | [Ha ->]] Hb; [reflexivity|].
  rewrite (@capital_of_small a Ha) in Hb. discriminate.
Qed.

Lemma capitals_keep_spaces :
  forall ws s t,
    forallb isspace ws = true ->
    Forall2 capital_or_same s (ws ++ t) ->
    exists s', s = ws ++ s' /\ Forall2 capital_or_same s' t.
Proof.
  induction ws as [|x ws IH]; intros s t Hws H.
  - exists s. split; [reflexivity | exact H].
  - cbn [forallb] in Hws. apply andb_true_iff in Hws.
    destruct Hws as [Hx Hws]. cbn [app] in H.
    inversion H as [|a b s1 t1 Hab Hrest Ea Eb]; subst.
    destruct (IH s1 t Hws Hrest) as (s' & -> & Hs').
    exists s'. split; [|exact Hs'].
    rewrite (@capital_or_same_plain a x Hab (@space_no_capital x Hx)).
    reflexivity.
Qed.

Lemma low_start_back :
  forall s o, Forall2 capital_or_same s o -> low_start o -> low_start s.
Proof.
  intros s o H (p & ws & l & b & -> & Hp & Hne & Hws & Hl).
  inversion H as [|p' p0 s1 t1 Hpp Hrest Ea Eb]; subst.
  destruct (@capitals_keep_spaces ws s1 (l :: b) Hws Hrest)
    as (s2 & -> & H2).
  inversion H2 as [|l' l0 b' t2 Hll Hb Ea Eb]; subst.
  exists p, ws, l, b'.
  rewrite (@capital_or_same_plain p' p Hpp
             (proj1 (@sentence_mark_plain p Hp))).
  rewrite (@capital_or_same_plain l' l Hll (@small_no_capital l Hl)).
  repeat split; assumption.
Qed.

Lemma no_low_start_back :
  forall s o,
    Forall2 capital_or_same s o ->
    (forall a b, s = a ++ b -> ~ low_start b) ->
    forall a b, o = a ++ b -> ~ low_start b.
Proof.
  intros s o H Hs a b E Hb. subst o.
  apply Forall2_app_inv_r in H. destruct H as (a' & b' & _ & Hbb & ->).
  apply (Hs a' b' eq_refl). apply (@low_start_back b' b Hbb Hb).
Qed.

Lemma run_unique :
  forall (ws ws' : str) x x' r r',
    forallb isspace ws = true -> forallb isspace ws' = true ->
    isspace x = false -> isspace x' = false ->
    ws ++ x :: r = ws' ++ x' :: r' ->
    ws = ws' /\ x = x'.
Proof.
  induction ws as [|c ws IH]; intros [|c' ws'] x x' r r' Hws Hws' Hx Hx' E;
    cbn [app forallb] in *.
  - injection E as -> _. split; reflexivity.
  - injection E as -> _. apply andb_true_iff in Hws'. destruct Hws' as [H _].
    congruence.
  - injection E as -> _. apply andb_true_iff in Hws. destruct Hws as [H _].
    congruence.
  - injection E as -> E. apply andb_true_iff in Hws, Hws'.
    destruct Hws as [_ Hws]. destruct Hws' as [_ Hws'].
    destruct (IH ws' x x' r r' Hws Hws' Hx Hx' E) as [-> ->].
    split; reflexivity.
Qed.

Section SentenceStarts.

Variable U : ucd.

Lemma sentence_start_matches :
  forall prev p ws l next,
    List.In p (py ".!?") -> ws <> [] -> forallb isspace ws = true ->
    ascii_islower l = true ->
    matches U false sentence_start prev (p :: ws ++ [l]) next []
      [(2, [l]); (1, p :: ws)].
Proof.
  intros prev p ws l next Hp Hne Hws Hl. unfold sentence_start, cats.
  cbn [fold_right].
  change (p :: ws ++ [l]) with ((p :: ws) ++ [l]).
  rewrite <- (app_nil_r [l]).
  apply matches_cat with (gs1 := [(1, p :: ws)]).
  - constructor. change (p :: ws) with ([p] ++ ws).
    rewrite <- (app_nil_r ws).
    apply matches_cat with (gs1 := []).
    + constructor. apply (in_set_chars U). exact Hp.
    + apply matches_cat with (gs1 := []); [|constructor].
      apply class_run_matches.
      * rewrite <- Hws. apply forallb_same. intro c. unfold in_set.
        cbn [existsb item_matches]. apply orb_false_r.
      * destruct ws; [contradiction | cbn [length]; lia].
  - apply matches_cat with (gs1 := [(2, [l]); (1, p :: ws)]); [|constructor].
    constructor. constructor. unfold in_set. cbn [existsb item_matches].
    rewrite orb_false_r. exact Hl.
Qed.

Lemma sentence_start_seen :
  forall prev s,
    low_start s -> ~ no_match_at U false sentence_start prev s.
Proof.
  intros prev s (p & ws & l & b & -> & Hp & Hne & Hws & Hl).
  change (p :: ws ++ l :: b) with ((p :: ws) ++ [l] ++ b).
  rewrite app_assoc.
  apply (@matched_is_seen U false sentence_start prev ((p :: ws) ++ [l]) b
           [(2, [l]); (1, p :: ws)]).
  - apply sentence_start_matches; assumption.
  - intros prev' w' next' gs' H. apply sentence_start_shape in H.
    destruct H as (p' & ws' & l' & -> & _). discriminate.
Qed.

Lemma sentence_start_related :
  forall prev (w s : str) gs,
    w <> [] ->
    match_at U false sentence_start prev (w ++ s) = Some (length w, gs) ->
    exists p ws l,
      w = p :: ws ++ [l]
      /\ group gs 1 ++ upper U (group gs 2) = p :: ws ++ [ascii_upper l]
      /\ List.In p (py ".!?") /\ forallb isspace ws = true
      /\ ascii_islower l = true.
Proof.
  intros prev w s gs _ Hm.
  apply match_at_matches in Hm. apply sentence_start_shape in Hm.
  destruct Hm as (p & ws & l & -> & Hp & _ & Hws & Hl & -> & ->).
  exists p, ws, l. split; [reflexivity|]. split; [|auto].
  unfold upper. cbn [flat_map]. unfold upper1.
  rewrite (ascii_islower_is_ascii l Hl). rewrite app_nil_r. reflexivity.
Qed.

Lemma sentence_start_pointwise :
  forall prev s o,
    rewrites U false sentence_start
      (fun m => group m 1 ++ upper U (group m 2)) prev s o ->
    Forall2 capital_or_same s o.
Proof.
  intros prev s o H.
  refine (@pointwise_rewrites U false sentence_start _ capital_or_same
            capital_or_same_refl _ prev s o H).
  intros prev' w t gs Hw Hm.
  destruct (@sentence_start_related prev' w t gs Hw Hm)
    as (p & ws & l & -> & -> & _ & _ & Hl).
  change (p :: ws ++ [l]) with ((p :: ws) ++ [l]).
  change (p :: ws ++ [ascii_upper l]) with ((p :: ws) ++ [ascii_upper l]).
  apply Forall2_app.
  - apply Forall2_refl_on. apply capital_or_same_refl.
  - constructor; [|constructor]. right. split; [exact Hl | reflexivity].
Qed.

(** Behind the pass over the sentence starts no sentence begins with a
    small letter. *)
Lemma sentence_start_rewrites :
  forall prev s o,
    rewrites U false sentence_start
      (fun m => group m 1 ++ upper U (group m 2)) prev s o ->
    forall a b, o = a ++ b -> ~ low_start b.
Proof.
  intros prev s o H.
  induction H as [prev | prev c s o Hno H IH | prev w s gs o Hw Hm H IH];
    intros a b E Hb.
  - destruct a; [|discriminate]. cbn [app] in E. subst b.
    destruct Hb as (p & ws & l & b & E & _). discriminate.
  - destruct a as [|c' a].
    + cbn [app] in E. subst b.
      apply (@sentence_start_seen prev (c :: s)); [|exact Hno].
      apply (@low_start_back (c :: s) (c :: o)); [|exact Hb].
      constructor; [apply capital_or_same_refl|].
      apply (@sentence_start_pointwise (Some c) s o H).
    + cbn [app] in E. injection E as _ E. apply (IH a b E Hb).
  - destruct (@sentence_start_related prev w s gs Hw Hm)
      as (p & ws & l & -> & Er & Hp & Hws & Hl).
    rewrite Er in E. clear Er.
    assert (HL : isspace (ascii_upper l) = false).
    { destruct (isspace (ascii_upper l)) eqn:Es; [|reflexivity].
      apply space_no_capital in Es.
      rewrite (@capital_of_small l Hl) in Es. discriminate. }
    apply app_eq_app in E.
    destruct E as (m & [[E1 E2] | [E1 E2]]).
    2:{ apply (IH m b E2 Hb). }
    destruct m as [|x m].
    + cbn [app] in E2. subst b. apply (IH [] o eq_refl Hb).
    + subst b. destruct a as [|c0 a].
      * cbn [app] in E1. rewrite <- E1 in Hb.
           destruct Hb as (p' & ws' & l' & b' & E & Hp' & _ & Hws' & Hl').
           cbn [app] in E. rewrite <- app_assoc in E. cbn [app] in E.
           injection E as _ E.
           assert (Hl's : isspace l' = false).
           { destruct (isspace l') eqn:Es; [|reflexivity].
             apply space_no_small in Es. congruence. }
           destruct (@run_unique ws ws' (ascii_upper l) l' o b' Hws Hws'
                       HL Hl's E) as [_ El].
           apply small_no_capital in Hl'. rewrite <- El in Hl'.
           rewrite (@capital_of_small l Hl) in Hl'. discriminate.
      * cbn [app] in E1. injection E1 as _ E1.
           destruct Hb as (p' & ws' & l' & b' & E & Hp' & _).
           cbn [app] in E. injection E as -> _.
           assert (Hin : List.In p' (ws ++ [ascii_upper l])).
           { rewrite E1. apply in_or_app. right. left. reflexivity. }
           apply sentence_mark_plain in Hp'. destruct Hp' as [Hcap Hsp].
           apply in_app_or in Hin. destruct Hin as [Hin | [<- | []]].
           -- rewrite forallb_forall in Hws. rewrite (Hws p' Hin) in Hsp.
              discriminate.
           -- rewrite (@capital_of_small l Hl) in Hcap. discriminate.
Qed.

Lemma fix_capitalization_starts :
  forall text lang out,
    is_chinese lang = false ->
    fix_capitalization U text lang = Ok out ->
    forall a b, out = a ++ b -> ~ low_start b.
Proof.
  intros text lang out Hlang. unfold fix_capitalization.
  destruct (@english_fixes_capitals lang Hlang) as (config & -> & Hflag).
  cbn [bind]. rewrite Hflag. cbn [negb].
  match goal with
  | |- bind ?c _ = _ -> _ => destruct c as [t|e]; cbn [bind]; [|discriminate]
  end.
  intro E. injection E as <-.
  eapply no_low_start_back; [apply i_apostrophe_capitals|].
  eapply no_low_start_back; [apply lone_i_capitals|].
  apply (@sentence_start_rewrites None t). apply re_sub_rewrites.
Qed.

End SentenceStarts.

(** For a language other than the two Chinese ones, nowhere in the text
    [fix_capitalization] returns do a mark of [.!?], white space and an
    ASCII lower-case letter follow one another: every sentence that begins
    behind such a mark begins with a capital. *)
Theorem fix_capitalization_leaves_no_small_sentence_start :
  forall U text lang out a b,
    is_chinese lang = false ->
    fix_capitalization U text lang = Ok out ->
    out = a ++ b ->
    ~ low_start b.
Proof.
  intros U text lang out a b Hlang Hout E.
  apply (@fix_capitalization_starts U text lang out Hlang Hout a b E).
Qed.

Lemma fix_capitalization_leaves_no_small_sentence_start_example :
  ~ low_start (py "? Three").
Proof.
  apply (@fix_capitalization_leaves_no_small_sentence_start ascii_tables
           (py "one. two? three") lang_en (py "One. Two? Three")
           (py "One. Two") (py "? Three")).
  - reflexivity.
  - vm_compute. reflexivity.
  - reflexivity.
Defined.
